(** * N-body simulation core: direct force evaluation, time integration,
      initial conditions and the accuracy metric of the benchmark harness.

    The C++ sources work on [vec3<float>] and [vec4<float>] arrays and mix
    [float] and [double] arithmetic.  The embedding keeps the code generic in
    the scalar arithmetic (a [Machine] supplies the two formats and the
    conversions between them) and gives two instances:
    - [IEEE.ieee_machine]: binary32 / binary64 with round-to-nearest-even,
      built on the executable [SpecFloat] operations of the standard library;
    - [Exact.exact_machine]: both formats are the real numbers.
    Every operation is rounded to the type C++ gives its expression
    ([float] when both operands are [float], [double] as soon as one operand
    is a [double]; a [double] stored in a [float] is rounded again).  The
    simulation sources include [<cmath>] only and call [sqrt], [cos] and
    [sin] unqualified: these are the C functions on [double], so a [float]
    argument is promoted and the result is a [double].  In the renderer,
    which also includes the OpenCV headers, [sqrt] and [log10] are read at the
    type of their [float] argument.
    Arrays are lists read with [!!] and written with [<[i:=v]>]; the sources
    never check an index, so every statement below that depends on an array
    element assumes the index in range. *)

From Stdlib Require Import ZArith List Lia Bool Reals Lra.
From Stdlib Require Import Floats.SpecFloat.
From stdpp Require Import base list.

(** ** Vector types ([vec3<T>], [vec4<T>]) *)

Module Vec3.
Record t (T : Type) := mk { x : T; y : T; z : T }.
Arguments mk {T} _ _ _.
Arguments x {T} _.
Arguments y {T} _.
Arguments z {T} _.
End Vec3.

Module Vec4.
Record t (T : Type) := mk { x : T; y : T; z : T; w : T }.
Arguments mk {T} _ _ _ _.
Arguments x {T} _.
Arguments y {T} _.
Arguments z {T} _.
Arguments w {T} _.
End Vec4.

Abbreviation vec3 := Vec3.t.
Abbreviation vec4 := Vec4.t.

(** ** Scalar arithmetic *)

(** The operations the sources use on one floating-point format.
    [flit n d] is the value of a literal written as the fraction [n/d]
    (every decimal literal of the sources is such a fraction), and of the
    integer [n] converted to the format when [d = 1]. *)
Class Scalar (T : Type) := {
  flit : Z -> positive -> T;
  fadd : T -> T -> T;
  fsub : T -> T -> T;
  fmul : T -> T -> T;
  fdiv : T -> T -> T;
  fopp : T -> T;
  fsqrt : T -> T;
  fle : T -> T -> Prop
}.

Declare Scope fp_scope.
Delimit Scope fp_scope with fp.
Infix "+" := fadd : fp_scope.
Infix "-" := fsub : fp_scope.
Infix "*" := fmul : fp_scope.
Infix "/" := fdiv : fp_scope.
Infix "<=" := fle : fp_scope.
Notation "- a" := (fopp a) : fp_scope.

(** A machine: the [float] and [double] formats and the two conversions
    (promotion of a [float] operand in a [double] expression, and the
    narrowing done when a [double] value is stored in a [float]). *)
Class Machine := {
  float : Type;
  double : Type;
  float_ops : Scalar float;
  double_ops : Scalar double;
  to_double : float -> double;
  to_float : double -> float
}.
#[global] Existing Instance float_ops.
#[global] Existing Instance double_ops.

(** *** IEEE 754 instance *)

Module IEEE.

Definition is_finite (v : spec_float) : bool :=
  match v with
  | S754_zero _ | S754_finite _ _ _ => true
  | S754_infinity _ | S754_nan => false
  end.

Definition is_zero (v : spec_float) : bool :=
  match v with
  | S754_zero _ => true
  | _ => false
  end.

Definition is_nan (v : spec_float) : bool :=
  match v with
  | S754_nan => true
  | _ => false
  end.

(** Correctly rounded value of the fraction [n/d] in the format
    ([prec], [emax]). *)
Definition lit (prec emax : Z) (n : Z) (d : positive) : spec_float :=
  match n with
  | Z0 => S754_zero false
  | Zpos p => SFdiv prec emax (S754_finite false p 0) (S754_finite false d 0)
  | Zneg p => SFdiv prec emax (S754_finite true p 0) (S754_finite false d 0)
  end.

(** Rounding of a value of another format to the format ([prec], [emax]). *)
Definition round (prec emax : Z) (v : spec_float) : spec_float :=
  match v with
  | S754_finite s m e => binary_normalize prec emax (cond_Zopp s (Zpos m)) e s
  | _ => v
  end.

Definition ieee_ops (prec emax : Z) : Scalar spec_float := {|
  flit := lit prec emax;
  fadd := SFadd prec emax;
  fsub := SFsub prec emax;
  fmul := SFmul prec emax;
  fdiv := SFdiv prec emax;
  fopp := SFopp;
  fsqrt := SFsqrt prec emax;
  fle := fun a b => SFleb a b = true
|}.

Definition binary32 : Type := spec_float.
Definition binary64 : Type := spec_float.

Definition ieee_machine : Machine := {|
  float := binary32;
  double := binary64;
  float_ops := ieee_ops 24 128;
  double_ops := ieee_ops 53 1024;
  to_double := round 53 1024;
  to_float := round 24 128
|}.

(** [FLT_MAX], the largest finite binary32 value. *)
Definition FLT_MAX : binary32 := S754_finite false 16777215 104.

(** The binary32 value of a (small) integer. *)
Definition f32 (n : Z) : binary32 := lit 24 128 n 1.

(** [v] is a NaN, +0, +infinity, or a positive finite value whose exponent
    is at least [emin] (as every rounded result is). *)
Definition is_nonneg (prec emax : Z) (v : spec_float) : bool :=
  match v with
  | S754_nan => true
  | S754_zero s | S754_infinity s => negb s
  | S754_finite s _ e => negb s && Z.leb (emin prec emax) e
  end.

(** As [is_nonneg], zero excluded. *)
Definition is_positive (prec emax : Z) (v : spec_float) : bool :=
  is_nonneg prec emax v && negb (is_zero v).

End IEEE.

(** *** Exact (real-number) instance *)

Module Exact.

Definition exact_ops : Scalar R := {|
  flit := fun n d => (IZR n / IZR (Zpos d))%R;
  fadd := Rplus;
  fsub := Rminus;
  fmul := Rmult;
  fdiv := Rdiv;
  fopp := Ropp;
  fsqrt := sqrt;
  fle := Rle
|}.

Definition exact_machine : Machine := {|
  float := R;
  double := R;
  float_ops := exact_ops;
  double_ops := exact_ops;
  to_double := fun v => v;
  to_float := fun v => v
|}.

End Exact.

(** *** IEEE 754 instance with the overflow flag

    A value together with the overflow status flag of the operations it was
    computed from: the flag IEEE 754 raises when an operation on finite
    operands gives a result too large for the format (which is then an
    infinity), and which stays raised.  A division of a finite value by a
    zero raises the division-by-zero flag, not this one, and an operation
    without a result (0/0, the square root of a negative number, ...) the
    invalid flag.  The values are those of [IEEE.ieee_machine]. *)
Module Flagged.
Import IEEE.

Record t := mk { val : spec_float; overflow : bool }.

(** A value that no operation has produced: an input or a literal. *)
Definition exact (v : spec_float) : t := mk v false.

Definition is_infinity (v : spec_float) : bool :=
  match v with
  | S754_infinity _ => true
  | _ => false
  end.

Definition op1 (f : spec_float -> spec_float) (a : t) : t :=
  mk (f (val a))
     (overflow a || (is_finite (val a) && is_infinity (f (val a)))).

Definition op2 (f : spec_float -> spec_float -> spec_float) (a b : t) : t :=
  mk (f (val a) (val b))
     (overflow a || overflow b ||
      (is_finite (val a) && is_finite (val b) && is_infinity (f (val a) (val b)))).

Definition div (prec emax : Z) (a b : t) : t :=
  mk (SFdiv prec emax (val a) (val b))
     (overflow a || overflow b ||
      (is_finite (val a) && is_finite (val b) && negb (is_zero (val b)) &&
       is_infinity (SFdiv prec emax (val a) (val b)))).

Definition flagged_ops (prec emax : Z) : Scalar t := {|
  flit := fun n d => exact (lit prec emax n d);
  fadd := op2 (SFadd prec emax);
  fsub := op2 (SFsub prec emax);
  fmul := op2 (SFmul prec emax);
  fdiv := div prec emax;
  fopp := op1 SFopp;
  fsqrt := op1 (SFsqrt prec emax);
  fle := fun a b => SFleb (val a) (val b) = true
|}.

Definition flagged_machine : Machine := {|
  float := t;
  double := t;
  float_ops := flagged_ops 24 128;
  double_ops := flagged_ops 53 1024;
  to_double := op1 (round 53 1024);
  to_float := op1 (round 24 128)
|}.

(** Inputs enter with the flag clear. *)
Definition inject4 (b : vec4 binary32) : vec4 t :=
  Vec4.mk (exact (Vec4.x b)) (exact (Vec4.y b)) (exact (Vec4.z b)) (exact (Vec4.w b)).

Definition inject3 (a : vec3 binary32) : vec3 t :=
  Vec3.mk (exact (Vec3.x a)) (exact (Vec3.y a)) (exact (Vec3.z a)).

Definition val3 (a : vec3 t) : vec3 binary32 :=
  Vec3.mk (val (Vec3.x a)) (val (Vec3.y a)) (val (Vec3.z a)).

(** The value is finite unless the overflow flag is raised. *)
Definition good (a : t) : Prop := overflow a = false -> is_finite (val a) = true.

Definition good3 (a : vec3 t) : Prop :=
  good (Vec3.x a) /\ good (Vec3.y a) /\ good (Vec3.z a).

End Flagged.

(** ** Loops *)

(** [for (int i = lo; i < n; i++) body], threading the state [s]. *)
Definition for_range {S : Type} (lo n : nat) (body : nat -> S -> S) (s : S) : S :=
  fold_left (fun s i => body i s) (seq lo (n - lo)) s.

(** ** Simulation parameters *)

Definition NUM_PARTICLES : Z := 1000.
Definition NUM_FRAMES : Z := 300.

Inductive SimulationType := RANDOM | SPIRAL_GALAXY | BINARY_SYSTEM | SOLAR_SYSTEM.

Section Simulation.
Context {M : Machine}.
Local Open Scope fp_scope.

Definition TIME_STEP : double := flit 1 100.
Definition G : double := flit 667430 10000000000000000.
Definition M_PI : double := flit 314159265358979323846 100000000000000000000.

(** ** Direct force evaluator ([calculateAccelerations])

    The unqualified [sqrt] is the C library's [double sqrt(double)], the
    only [sqrt] that [<cmath>] puts in the global namespace: its [float]
    argument is promoted, the quotient [1.0f / sqrt(distSqr)] is computed in
    [double] and narrowed once, when it is stored in [float invDist]. *)

Definition softening : float := flit 1 10.

(** [distSqr] of the pair (i, j): squared distance with softening. *)
Definition distSqr (bi bj : vec4 float) : float :=
  let dx := Vec4.x bj - Vec4.x bi in
  let dy := Vec4.y bj - Vec4.y bi in
  let dz := Vec4.z bj - Vec4.z bi in
  dx * dx + dy * dy + dz * dz + softening * softening.

(** The factor [s] of the pair (i, j). *)
Definition pair_scale (bi bj : vec4 float) : float :=
  let invDist := to_float (flit 1 1 / fsqrt (to_double (distSqr bi bj))) in
  let invDistCube := invDist * invDist * invDist in
  Vec4.w bj * invDistCube.

(** Body of the inner loop for a pair [i <> j]: the new value of
    [bodyAccel[i]] from its old value [a]. *)
Definition accumulate (bi bj : vec4 float) (a : vec3 float) : vec3 float :=
  let dx := Vec4.x bj - Vec4.x bi in
  let dy := Vec4.y bj - Vec4.y bi in
  let dz := Vec4.z bj - Vec4.z bi in
  let s := pair_scale bi bj in
  Vec3.mk (Vec3.x a + dx * s) (Vec3.y a + dy * s) (Vec3.z a + dz * s).

Definition zero3 : vec3 float := Vec3.mk (flit 0 1) (flit 0 1) (flit 0 1).

Definition clear_body (i : nat) (bodyAccel : list (vec3 float)) : list (vec3 float) :=
  <[i := zero3]> bodyAccel.

Definition inner_body (bodyPos : list (vec4 float)) (i j : nat)
    (bodyAccel : list (vec3 float)) : list (vec3 float) :=
  if Nat.eqb i j then bodyAccel
  else
    match bodyPos !! i, bodyPos !! j, bodyAccel !! i with
    | Some bi, Some bj, Some a => <[i := accumulate bi bj a]> bodyAccel
    | _, _, _ => bodyAccel
    end.

(** [calculateAccelerations(bodyPos, bodyAccel, numParticles)]; returns the
    final contents of [bodyAccel]. *)
Definition calculateAccelerations (bodyPos : list (vec4 float))
    (bodyAccel : list (vec3 float)) (numParticles : Z) : list (vec3 float) :=
  let n := Z.to_nat numParticles in
  let bodyAccel := for_range 0 n clear_body bodyAccel in
  for_range 0 n (fun i => for_range 0 n (inner_body bodyPos i)) bodyAccel.

(** Value accumulated for body [i] over the partners [j < m], from [a]:
    the inner loop seen from [bodyAccel[i]] alone. *)
Definition row (bodyPos : list (vec4 float)) (i m : nat) (a : vec3 float) : vec3 float :=
  for_range 0 m
    (fun j a =>
       if Nat.eqb i j then a
       else match bodyPos !! i, bodyPos !! j with
            | Some bi, Some bj => accumulate bi bj a
            | _, _ => a
            end) a.

(** ** Time integrator ([updateParticles]) *)

(** [v += a * TIME_STEP] on a [float] field: the product and the sum are
    computed in [double] and the result is stored back as a [float]. *)
Definition advance (v a : float) : float :=
  to_float (to_double v + to_double a * TIME_STEP).

Definition update_vel (v a : vec3 float) : vec3 float :=
  Vec3.mk (advance (Vec3.x v) (Vec3.x a))
          (advance (Vec3.y v) (Vec3.y a))
          (advance (Vec3.z v) (Vec3.z a)).

Definition update_pos (p : vec4 float) (v : vec3 float) : vec4 float :=
  Vec4.mk (advance (Vec4.x p) (Vec3.x v))
          (advance (Vec4.y p) (Vec3.y v))
          (advance (Vec4.z p) (Vec3.z v))
          (Vec4.w p).

Definition update_body (bodyAccel : list (vec3 float)) (i : nat)
    (st : list (vec4 float) * list (vec3 float)) :
    list (vec4 float) * list (vec3 float) :=
  let '(bodyPos, bodyVel) := st in
  match bodyPos !! i, bodyVel !! i, bodyAccel !! i with
  | Some p, Some v, Some a =>
      let v' := update_vel v a in
      let bodyVel := <[i := v']> bodyVel in
      let bodyPos := <[i := update_pos p v']> bodyPos in
      (bodyPos, bodyVel)
  | _, _, _ => st
  end.

(** [updateParticles(bodyPos, bodyVel, bodyAccel)]; returns the final
    contents of [bodyPos] and [bodyVel]. *)
Definition updateParticles (bodyPos : list (vec4 float)) (bodyVel bodyAccel : list (vec3 float)) :
    list (vec4 float) * list (vec3 float) :=
  for_range 0 (Z.to_nat NUM_PARTICLES) (update_body bodyAccel) (bodyPos, bodyVel).

(** One frame of the simulation loop of [main] (direct method); storing the
    frame only reads [bodyPos]. *)
Definition frame (st : list (vec4 float) * list (vec3 float) * list (vec3 float)) :
    list (vec4 float) * list (vec3 float) * list (vec3 float) :=
  let '(bodyPos, bodyVel, bodyAccel) := st in
  let bodyAccel := calculateAccelerations bodyPos bodyAccel NUM_PARTICLES in
  let '(bodyPos, bodyVel) := updateParticles bodyPos bodyVel bodyAccel in
  (bodyPos, bodyVel, bodyAccel).

(** ** Accuracy metric of the benchmark harness ([main] of test.cpp)

    [bodyAccel] holds the direct (reference) result and [bodyAcceld] the
    copy of the approximate one. *)

Definition difference (a d : vec3 float) : double :=
  to_double ((Vec3.x a - Vec3.x d) * (Vec3.x a - Vec3.x d) +
             (Vec3.y a - Vec3.y d) * (Vec3.y a - Vec3.y d) +
             (Vec3.z a - Vec3.z d) * (Vec3.z a - Vec3.z d)).

Definition normalizer (a : vec3 float) : double :=
  to_double (Vec3.x a * Vec3.x a + Vec3.y a * Vec3.y a + Vec3.z a * Vec3.z a).

Definition L2norm_body (bodyAccel bodyAcceld : list (vec3 float)) (numParticles : Z)
    (i : nat) (L2norm : double) : double :=
  match bodyAccel !! i, bodyAcceld !! i with
  | Some a, Some d => L2norm + difference a d / normalizer a / flit numParticles 1
  | _, _ => L2norm
  end.

(** The value printed as [error] for one iteration. *)
Definition L2norm (bodyAccel bodyAcceld : list (vec3 float)) (numParticles : Z) : double :=
  fsqrt (for_range 0 (Z.to_nat numParticles)
           (L2norm_body bodyAccel bodyAcceld numParticles) (flit 0 1)).

(** The copy of the approximate result made before the direct evaluation. *)
Definition copy_body (bodyAccel : list (vec3 float)) (i : nat)
    (bodyAcceld : list (vec3 float)) : list (vec3 float) :=
  match bodyAccel !! i with
  | Some a => <[i := Vec3.mk (Vec3.x a) (Vec3.y a) (Vec3.z a)]> bodyAcceld
  | None => bodyAcceld
  end.

Definition copy_accel (bodyAccel bodyAcceld : list (vec3 float)) (numParticles : Z) :
    list (vec3 float) :=
  for_range 0 (Z.to_nat numParticles) (copy_body bodyAccel) bodyAcceld.

End Simulation.

(** ** Initial condition generator ([initializeParticles])

    The random source is a state of type [Gen]; [uniform_real_distribution a b]
    is one draw of [std::uniform_real_distribution<float>(a, b)], returning
    the value and the advanced generator.  [fcos] and [fsin] are the library
    cosine and sine, the C functions on [double]: a [float] argument is
    promoted, the product with a [float] is computed in [double] and
    narrowed when it is stored. *)

Section Generator.
Context {M : Machine}.
Variable Gen : Type.
Variable uniform_real_distribution : float -> float -> Gen -> float * Gen.
Variables fcos fsin : double -> double.
Local Open Scope fp_scope.

Definition arrays : Type := (list (vec4 float) * list (vec3 float) * Gen)%type.

(** Body of the loop of the [RANDOM] case. *)
Definition random_body (i : nat) (st : arrays) : arrays :=
  let '(bodyPos, bodyVel, gen) := st in
  let posDist := uniform_real_distribution (to_float (- flit 10 1)) (to_float (flit 10 1)) in
  let massDist := uniform_real_distribution (to_float (flit 1 10)) (to_float (flit 1 1)) in
  let '(px, gen) := posDist gen in
  let '(py, gen) := posDist gen in
  let '(pz, gen) := posDist gen in
  let '(pw, gen) := massDist gen in
  let bodyPos := <[i := Vec4.mk px py pz pw]> bodyPos in
  let '(vx, gen) := posDist gen in
  let '(vy, gen) := posDist gen in
  let '(vz, gen) := posDist gen in
  let bodyVel :=
    <[i := Vec3.mk (to_float (to_double vx * flit 1 10))
                   (to_float (to_double vy * flit 1 10))
                   (to_float (to_double vz * flit 1 10))]> bodyVel in
  (bodyPos, bodyVel, gen).

(** Body of the loop of the [SPIRAL_GALAXY] case. *)
Definition spiral_body (i : nat) (st : arrays) : arrays :=
  let '(bodyPos, bodyVel, gen) := st in
  let angleDist := uniform_real_distribution (to_float (flit 0 1)) (to_float (flit 2 1 * M_PI)) in
  let radiusDist := uniform_real_distribution (to_float (flit 1 10)) (to_float (flit 10 1)) in
  let heightDist := uniform_real_distribution (to_float (- flit 1 2)) (to_float (flit 1 2)) in
  let massDist := uniform_real_distribution (to_float (flit 1 10)) (to_float (flit 1 1)) in
  let '(angle, gen) := angleDist gen in
  let '(radius, gen) := radiusDist gen in
  let spiralFactor := to_float (to_double angle / flit 10 1) in
  let px := to_float (to_double radius * fcos (to_double (angle + spiralFactor))) in
  let py := to_float (to_double radius * fsin (to_double (angle + spiralFactor))) in
  let '(h, gen) := heightDist gen in
  let pz := to_float (to_double h * (to_double radius / flit 10 1)) in
  let '(pw, gen) := massDist gen in
  let bodyPos := <[i := Vec4.mk px py pz pw]> bodyPos in
  match bodyPos !! 0%nat with
  | Some b0 =>
      let orbitalSpeed := to_float (fsqrt (G * to_double (Vec4.w b0) / to_double radius)) in
      let bodyVel :=
        <[i := Vec3.mk (to_float (to_double (- orbitalSpeed) *
                                  fsin (to_double (angle + spiralFactor))))
                       (to_float (to_double orbitalSpeed *
                                  fcos (to_double (angle + spiralFactor))))
                       (to_float (flit 0 1))]> bodyVel in
      (bodyPos, bodyVel, gen)
  | None => (bodyPos, bodyVel, gen)
  end.

(** Body of the planet loop of the [BINARY_SYSTEM] case. *)
Definition planet_body (i : nat) (st : arrays) : arrays :=
  let '(bodyPos, bodyVel, gen) := st in
  let angleDist := uniform_real_distribution (to_float (flit 0 1)) (to_float (flit 2 1 * M_PI)) in
  let radiusDist := uniform_real_distribution (to_float (flit 3 1)) (to_float (flit 10 1)) in
  let massDist := uniform_real_distribution (to_float (flit 1 10)) (to_float (flit 1 2)) in
  let '(angle, gen) := angleDist gen in
  let '(radius, gen) := radiusDist gen in
  let px := to_float (to_double radius * fcos (to_double angle)) in
  let py := to_float (to_double radius * fsin (to_double angle)) in
  let '(zangle, gen) := angleDist gen in
  let pz := to_float ((to_double zangle - M_PI) * flit 1 10) in
  let '(pw, gen) := massDist gen in
  let bodyPos := <[i := Vec4.mk px py pz pw]> bodyPos in
  match bodyPos !! 0%nat, bodyPos !! 1%nat with
  | Some b0, Some b1 =>
      let centerMass := Vec4.w b0 + Vec4.w b1 in
      let orbitalSpeed :=
        to_float (fsqrt (G * to_double centerMass / to_double radius) * flit 7 10) in
      let bodyVel :=
        <[i := Vec3.mk (to_float (to_double (- orbitalSpeed) * fsin (to_double angle)))
                       (to_float (to_double orbitalSpeed * fcos (to_double angle)))
                       (to_float (flit 0 1))]> bodyVel in
      (bodyPos, bodyVel, gen)
  | _, _ => (bodyPos, bodyVel, gen)
  end.

Definition planetRadii : list float :=
  map to_float
    [flit 4 10; flit 7 10; flit 1 1; flit 15 10; flit 52 10;
     flit 95 10; flit 192 10; flit 301 10; flit 395 10].

Definition planetMasses : list float :=
  map to_float
    [flit 55 1000; flit 815 1000; flit 1 1; flit 107 1000; flit 3178 10;
     flit 952 10; flit 145 10; flit 171 10; flit 2 1000].

(** Body of the planet loop of the [SOLAR_SYSTEM] case. *)
Definition solar_planet_body (i : nat) (st : arrays) : arrays :=
  let '(bodyPos, bodyVel, gen) := st in
  match planetRadii !! i, planetMasses !! i with
  | Some radius, Some mass =>
      let angle := to_float (flit 2 1 * M_PI * flit (Z.of_nat i) 1 / flit 9 1) in
      let bodyPos :=
        <[S i := Vec4.mk (to_float (to_double radius * fcos (to_double angle)))
                         (to_float (to_double radius * fsin (to_double angle)))
                         (to_float (flit 0 1))
                         (to_float (flit 1 2 + to_double mass * flit 1 10))]> bodyPos in
      match bodyPos !! 0%nat with
      | Some b0 =>
          let orbitalSpeed :=
            to_float (fsqrt (G * to_double (Vec4.w b0) / to_double radius) * flit 1 2) in
          let bodyVel :=
            <[S i := Vec3.mk (to_float (to_double (- orbitalSpeed) * fsin (to_double angle)))
                             (to_float (to_double orbitalSpeed * fcos (to_double angle)))
                             (to_float (flit 0 1))]> bodyVel in
          (bodyPos, bodyVel, gen)
      | None => (bodyPos, bodyVel, gen)
      end
  | _, _ => st
  end.

(** Body of the debris loop of the [SOLAR_SYSTEM] case. *)
Definition debris_body (i : nat) (st : arrays) : arrays :=
  let '(bodyPos, bodyVel, gen) := st in
  let angleDist := uniform_real_distribution (to_float (flit 0 1)) (to_float (flit 2 1 * M_PI)) in
  let radiusDist := uniform_real_distribution (to_float (flit 3 10)) (to_float (flit 40 1)) in
  let heightDist := uniform_real_distribution (to_float (- flit 1 2)) (to_float (flit 1 2)) in
  let massDist := uniform_real_distribution (to_float (flit 1 100)) (to_float (flit 1 10)) in
  let '(angle, gen) := angleDist gen in
  let '(radius, gen) := radiusDist gen in
  let px := to_float (to_double radius * fcos (to_double angle)) in
  let py := to_float (to_double radius * fsin (to_double angle)) in
  let '(pz, gen) := heightDist gen in
  let '(pw, gen) := massDist gen in
  let bodyPos := <[i := Vec4.mk px py pz pw]> bodyPos in
  match bodyPos !! 0%nat with
  | Some b0 =>
      let orbitalSpeed :=
        to_float (fsqrt (G * to_double (Vec4.w b0) / to_double radius) * flit 1 2) in
      let bodyVel :=
        <[i := Vec3.mk (to_float (to_double (- orbitalSpeed) * fsin (to_double angle)))
                       (to_float (to_double orbitalSpeed * fcos (to_double angle)))
                       (to_float (flit 0 1))]> bodyVel in
      (bodyPos, bodyVel, gen)
  | None => (bodyPos, bodyVel, gen)
  end.

(** [initializeParticles(bodyPos, bodyVel, type)], with the generator state
    [gen] made explicit. *)
Definition initializeParticles (bodyPos : list (vec4 float)) (bodyVel : list (vec3 float))
    (type : SimulationType) (gen : Gen) : arrays :=
  let n := Z.to_nat NUM_PARTICLES in
  let f0 := to_float (flit 0 1) in
  match type with
  | RANDOM => for_range 0 n random_body (bodyPos, bodyVel, gen)
  | SPIRAL_GALAXY =>
      let bodyPos := <[0%nat := Vec4.mk f0 f0 f0 (to_float (flit 100 1))]> bodyPos in
      let bodyVel := <[0%nat := Vec3.mk f0 f0 f0]> bodyVel in
      for_range 1 n spiral_body (bodyPos, bodyVel, gen)
  | BINARY_SYSTEM =>
      let bodyPos := <[0%nat := Vec4.mk (to_float (- flit 2 1)) f0 f0 (to_float (flit 50 1))]> bodyPos in
      let bodyVel := <[0%nat := Vec3.mk f0 (to_float (- flit 1 1)) f0]> bodyVel in
      let bodyPos := <[1%nat := Vec4.mk (to_float (flit 2 1)) f0 f0 (to_float (flit 50 1))]> bodyPos in
      let bodyVel := <[1%nat := Vec3.mk f0 (to_float (flit 1 1)) f0]> bodyVel in
      for_range 2 n planet_body (bodyPos, bodyVel, gen)
  | SOLAR_SYSTEM =>
      let bodyPos := <[0%nat := Vec4.mk f0 f0 f0 (to_float (flit 50 1))]> bodyPos in
      let bodyVel := <[0%nat := Vec3.mk f0 f0 f0]> bodyVel in
      let st := for_range 0 9 solar_planet_body (bodyPos, bodyVel, gen) in
      for_range 10 n debris_body st
  end.

End Generator.

(** The state of the [BINARY_SYSTEM] case once the bodies below index [k]
    are written: the two stars hold their documented values and every
    mass written so far is non-negative. *)
Definition binary_system_state {Gen : Type} (k : nat)
    (st : arrays (M := IEEE.ieee_machine) Gen) : Prop :=
  fst (fst st) !! 0%nat =
    Some (Vec4.mk (IEEE.f32 (-2)) (IEEE.f32 0) (IEEE.f32 0) (IEEE.f32 50)) /\
  snd (fst st) !! 0%nat = Some (Vec3.mk (IEEE.f32 0) (IEEE.f32 (-1)) (IEEE.f32 0)) /\
  fst (fst st) !! 1%nat =
    Some (Vec4.mk (IEEE.f32 2) (IEEE.f32 0) (IEEE.f32 0) (IEEE.f32 50)) /\
  snd (fst st) !! 1%nat = Some (Vec3.mk (IEEE.f32 0) (IEEE.f32 1) (IEEE.f32 0)) /\
  forall (i : nat) (p : vec4 IEEE.binary32),
    (i < k)%nat -> fst (fst st) !! i = Some p ->
    SFleb (IEEE.f32 0) (Vec4.w p) = true.

(** ** Reference formulas in exact arithmetic

    These definitions follow the wording of the specification, not the code;
    the theorems below compare the code with them. *)

Module Reference.
Local Open Scope R_scope.

(** Sum of [f 0 .. f (n-1)]. *)
Fixpoint Rsum (n : nat) (f : nat -> R) : R :=
  match n with
  | O => 0
  | S n' => Rsum n' f + f n'
  end.

Definition body_at (bodyPos : list (vec4 R)) (i : nat) : vec4 R :=
  default (Vec4.mk 0 0 0 0) (bodyPos !! i).

Definition vec_at (v : list (vec3 R)) (i : nat) : vec3 R :=
  default (Vec3.mk 0 0 0) (v !! i).

(** Squared distance of two bodies plus the softening constant squared. *)
Definition softened_sqdist (bi bj : vec4 R) : R :=
  (Vec4.x bj - Vec4.x bi) ^ 2 + (Vec4.y bj - Vec4.y bi) ^ 2 +
  (Vec4.z bj - Vec4.z bi) ^ 2 + (1 / 10) ^ 2.

(** One component of the pair term
    [displacement * mass[j] / (squared_distance_with_softening)^1.5],
    for the coordinate read by [c], and zero for the pair (i, i). *)
Definition pair_term (c : vec4 R -> R) (bodyPos : list (vec4 R)) (i j : nat) : R :=
  if Nat.eqb i j then 0
  else
    let bi := body_at bodyPos i in
    let bj := body_at bodyPos j in
    (c bj - c bi) * Vec4.w bj / Rpower (softened_sqdist bi bj) (3 / 2).

(** The pairwise sum for body [i] among [n] bodies. *)
Definition pairwise_sum (bodyPos : list (vec4 R)) (n i : nat) : vec3 R :=
  Vec3.mk (Rsum n (pair_term Vec4.x bodyPos i))
          (Rsum n (pair_term Vec4.y bodyPos i))
          (Rsum n (pair_term Vec4.z bodyPos i)).

(** Sum over the first [n] bodies of mass times a per-body vector:
    total momentum when [v] holds velocities, total force when it holds
    accelerations. *)
Definition mass_weighted_sum (bodyPos : list (vec4 R)) (v : list (vec3 R)) (n : nat) : vec3 R :=
  Vec3.mk (Rsum n (fun i => Vec4.w (body_at bodyPos i) * Vec3.x (vec_at v i)))
          (Rsum n (fun i => Vec4.w (body_at bodyPos i) * Vec3.y (vec_at v i)))
          (Rsum n (fun i => Vec4.w (body_at bodyPos i) * Vec3.z (vec_at v i))).

(** Sum of the masses of the first [n] bodies. *)
Definition total_mass (bodyPos : list (vec4 R)) (n : nat) : R :=
  Rsum n (fun j => Vec4.w (body_at bodyPos j)).

(** Per-body relative squared error: squared difference of approximate and
    reference acceleration over the squared magnitude of the reference. *)
Definition relative_sq_error (a d : vec3 R) : R :=
  ((Vec3.x a - Vec3.x d) ^ 2 + (Vec3.y a - Vec3.y d) ^ 2 + (Vec3.z a - Vec3.z d) ^ 2) /
  (Vec3.x a ^ 2 + Vec3.y a ^ 2 + Vec3.z a ^ 2).

(** The documented error: the per-body relative squared errors are summed,
    the sum is divided by [n], and the square root is taken. *)
Definition documented_L2 (bodyAccel bodyAcceld : list (vec3 R)) (n : nat) : R :=
  sqrt (Rsum n (fun i => relative_sq_error (vec_at bodyAccel i) (vec_at bodyAcceld i)) / INR n).

End Reference.

(** ** Main simulation loop ([main], direct method)

    Each of the [NUM_FRAMES] iterations is one [frame]; the frame number is
    only printed and passed to the renderer. *)

Section MainLoop.
Context {M : Machine}.

Definition simulate (st : list (vec4 float) * list (vec3 float) * list (vec3 float)) :
    list (vec4 float) * list (vec3 float) * list (vec3 float) :=
  for_range 0 (Z.to_nat NUM_FRAMES) (fun _ => frame) st.

End MainLoop.

(** ** Renderer helpers ([calculateRadius], [determineColor],
       [calculateScaleFactor]), in binary32 / binary64 arithmetic *)

Module Renderer.
Import IEEE.
Local Open Scope Z_scope.

Definition INT_MIN : Z := -2147483648.
Definition INT_MAX : Z := 2147483647.

(** [static_cast<int>] of a [double]: truncation towards zero.  The
    conversion is undefined in C++ when the truncated value is not an [int]
    (NaN and the infinities included); the value x86-64 then produces,
    [INT_MIN], is taken. *)
Definition to_int (v : binary64) : Z :=
  match v with
  | S754_zero _ => 0
  | S754_finite s m e =>
      let a := match e with
               | Z0 => Zpos m
               | Zpos _ => Zpos m * 2 ^ e
               | Zneg k => Zpos m / 2 ^ Zpos k
               end in
      let z := if s then - a else a in
      if Z.leb INT_MIN z && Z.leb z INT_MAX then z else INT_MIN
  | S754_infinity _ | S754_nan => INT_MIN
  end.

(** [std::max(a, b)] and [std::min(a, b)] on [double]. *)
Definition std_max (a b : binary64) : binary64 := if SFltb a b then b else a.
Definition std_min (a b : binary64) : binary64 := if SFltb b a then b else a.

(** A [cv::Scalar] built from three [int] channels. *)
Record cv_Scalar := { v0 : binary64; v1 : binary64; v2 : binary64; v3 : binary64 }.

Definition Scalar3 (a b c : Z) : cv_Scalar :=
  {| v0 := lit 53 1024 a 1; v1 := lit 53 1024 b 1; v2 := lit 53 1024 c 1;
     v3 := lit 53 1024 0 1 |}.

Section Functions.
(** The library [log10], read at the type of its [float] argument, and the
    globals [WIDTH], [HEIGHT] and [MAX_SCALE] as they stand at the call. *)
Variable flog10 : binary32 -> binary32.
Variables WIDTH HEIGHT : Z.
Variable MAX_SCALE : binary64.

Definition calculateRadius (mass : binary32) : Z :=
  Z.max 1
    (Z.min 20
       (to_int (SFmul 53 1024 (lit 53 1024 3 1)
                  (round 53 1024
                     (flog10 (SFadd 24 128 (SFmul 24 128 mass (f32 100)) (f32 1))))))).

Definition determineColor (mass : binary32) : cv_Scalar :=
  let normalizedMass :=
    std_min (lit 53 1024 1 1) (SFdiv 53 1024 (round 53 1024 mass) (lit 53 1024 10 1)) in
  if SFltb normalizedMass (lit 53 1024 3 10) then
    let blue := 255 in
    let red := to_int (SFmul 53 1024 (lit 53 1024 255 1)
                         (SFdiv 53 1024 normalizedMass (lit 53 1024 3 10))) in
    Scalar3 blue 0 red
  else if SFltb normalizedMass (lit 53 1024 6 10) then
    let factor := SFdiv 53 1024 (SFsub 53 1024 normalizedMass (lit 53 1024 3 10))
                    (lit 53 1024 3 10) in
    let value := 255 in
    let green := to_int (SFmul 53 1024 (lit 53 1024 255 1) factor) in
    Scalar3 value green value
  else
    let factor := SFdiv 53 1024 (SFsub 53 1024 normalizedMass (lit 53 1024 6 10))
                    (lit 53 1024 4 10) in
    let red := 255 in
    let green := to_int (SFmul 53 1024 (lit 53 1024 255 1)
                           (SFsub 53 1024 (lit 53 1024 1 1) factor)) in
    let blue := to_int (SFmul 53 1024 (lit 53 1024 255 1)
                          (SFsub 53 1024 (lit 53 1024 1 1) factor)) in
    Scalar3 blue green red.

(** Body of the loop of [calculateScaleFactor]. *)
Definition distance_body (bodies : list (vec4 binary32)) (i : nat) (maxDistance : binary64) :
    binary64 :=
  match bodies !! i with
  | Some b =>
      let distance :=
        round 53 1024
          (SFsqrt 24 128
             (SFadd 24 128
                (SFadd 24 128 (SFmul 24 128 (Vec4.x b) (Vec4.x b))
                   (SFmul 24 128 (Vec4.y b) (Vec4.y b)))
                (SFmul 24 128 (Vec4.z b) (Vec4.z b)))) in
      std_max maxDistance distance
  | None => maxDistance
  end.

(** The divisor used by [calculateScaleFactor]: the largest distance found,
    replaced by 1 when it is below 1e-10. *)
Definition maxDistance_of (bodies : list (vec4 binary32)) (nBodies : Z) : binary64 :=
  let maxDistance :=
    for_range 0 (Z.to_nat nBodies) (distance_body bodies) (lit 53 1024 0 1) in
  if SFltb maxDistance (lit 53 1024 1 10000000000) then lit 53 1024 1 1 else maxDistance.

Definition calculateScaleFactor (bodies : list (vec4 binary32)) (nBodies : Z) : binary64 :=
  let maxDistance := maxDistance_of bodies nBodies in
  let screenRadius := SFmul 53 1024 (lit 53 1024 (Z.min WIDTH HEIGHT) 1) (lit 53 1024 4 10) in
  let scale := SFdiv 53 1024 screenRadius maxDistance in
  std_min scale MAX_SCALE.

End Functions.
End Renderer.

(** ** Two values are opposite: one is the negation of the other, or both
       are +0 (the difference of two equal numbers in either order). *)
Definition opposite (u v : spec_float) : Prop :=
  v = SFopp u \/ (u = S754_zero false /\ v = S754_zero false).

(** A body moved by the vector [t], its mass unchanged. *)
Definition translate (t : vec3 R) (b : vec4 R) : vec4 R :=
  Vec4.mk (Vec4.x b + Vec3.x t)%R (Vec4.y b + Vec3.y t)%R (Vec4.z b + Vec3.z t)%R (Vec4.w b).

(** ** Footprint of the generator

    [writes_at i st st']: the arrays of [st'] are those of [st] except
    possibly at index [i]; [untouched_outside lo hi st st']: they are those
    of [st] except possibly at the indices [lo .. hi-1]. *)
Definition writes_at {M : Machine} {Gen : Type} (i : nat) (st st' : arrays Gen) : Prop :=
  length (fst (fst st')) = length (fst (fst st)) /\
  length (snd (fst st')) = length (snd (fst st)) /\
  forall j : nat, j <> i ->
    fst (fst st') !! j = fst (fst st) !! j /\ snd (fst st') !! j = snd (fst st) !! j.

Definition untouched_outside {M : Machine} {Gen : Type} (lo hi : nat)
    (st st' : arrays Gen) : Prop :=
  length (fst (fst st')) = length (fst (fst st)) /\
  length (snd (fst st')) = length (snd (fst st)) /\
  forall j : nat, (j < lo \/ hi <= j)%nat ->
    fst (fst st') !! j = fst (fst st) !! j /\ snd (fst st') !! j = snd (fst st) !! j.

(** Every body below index [k] satisfies [Q]. *)
Definition bodies_below {Gen : Type} (Q : vec4 IEEE.binary32 -> Prop) (k : nat)
    (st : arrays (M := IEEE.ieee_machine) Gen) : Prop :=
  forall (i : nat) (p : vec4 IEEE.binary32),
    (i < k)%nat -> fst (fst st) !! i = Some p -> Q p.

(** The mass of [p] is greater than zero. *)
Definition positive_mass (p : vec4 IEEE.binary32) : Prop :=
  SFltb (IEEE.f32 0) (Vec4.w p) = true.

(** [p] lies in the cube [-10, 10]^3 and its mass in [0.1f, 1]. *)
Definition in_random_box (p : vec4 IEEE.binary32) : Prop :=
  (SFleb (IEEE.f32 (-10)) (Vec4.x p) = true /\ SFleb (Vec4.x p) (IEEE.f32 10) = true) /\
  (SFleb (IEEE.f32 (-10)) (Vec4.y p) = true /\ SFleb (Vec4.y p) (IEEE.f32 10) = true) /\
  (SFleb (IEEE.f32 (-10)) (Vec4.z p) = true /\ SFleb (Vec4.z p) (IEEE.f32 10) = true) /\
  (SFleb (IEEE.lit 24 128 1 10) (Vec4.w p) = true /\ SFleb (Vec4.w p) (IEEE.f32 1) = true).

(** Sum over the first [n] bodies of mass times position: the total mass
    times the centre of mass. *)
Definition mass_weighted_position (bodyPos : list (vec4 R)) (n : nat) : vec3 R :=
  Vec3.mk
    (Reference.Rsum n
       (fun i => Vec4.w (Reference.body_at bodyPos i) * Vec4.x (Reference.body_at bodyPos i))%R)
    (Reference.Rsum n
       (fun i => Vec4.w (Reference.body_at bodyPos i) * Vec4.y (Reference.body_at bodyPos i))%R)
    (Reference.Rsum n
       (fun i => Vec4.w (Reference.body_at bodyPos i) * Vec4.z (Reference.body_at bodyPos i))%R).

(** ** The whole program ([main], direct method)

    [main] allocates the three arrays, fills positions and velocities with
    the spiral-galaxy configuration and runs the simulation loop; the
    arguments are the arrays as allocated and the seeded generator. *)
Section Main.
Context {M : Machine}.
Variable Gen : Type.
Variable uniform_real_distribution : float -> float -> Gen -> float * Gen.
Variables fcos fsin : double -> double.

Definition main_run (bodyPos : list (vec4 float)) (bodyVel bodyAccel : list (vec3 float))
    (gen : Gen) : list (vec4 float) * list (vec3 float) * list (vec3 float) :=
  let simType := SPIRAL_GALAXY in
  let st := initializeParticles Gen uniform_real_distribution fcos fsin
              bodyPos bodyVel simType gen in
  simulate (fst (fst st), snd (fst st), bodyAccel).

End Main.

(** One component of sum_i mass[i] * (pos[i] x v[i]) over the first [n]
    bodies: [c1] and [c2] read two coordinates of a position, [d1] and [d2]
    the same two coordinates of a vector. *)
Definition moment (c1 c2 : vec4 R -> R) (d1 d2 : vec3 R -> R)
    (bodyPos : list (vec4 R)) (v : list (vec3 R)) (n : nat) : R :=
  Reference.Rsum n
    (fun i => Vec4.w (Reference.body_at bodyPos i) *
              (c1 (Reference.body_at bodyPos i) * d2 (Reference.vec_at v i) -
               c2 (Reference.body_at bodyPos i) * d1 (Reference.vec_at v i)))%R.

(** Total angular momentum about the origin when [v] holds velocities,
    total torque when it holds accelerations. *)
Definition angular_momentum (bodyPos : list (vec4 R)) (v : list (vec3 R)) (n : nat) : vec3 R :=
  Vec3.mk (moment Vec4.y Vec4.z Vec3.y Vec3.z bodyPos v n)
          (moment Vec4.z Vec4.x Vec3.z Vec3.x bodyPos v n)
          (moment Vec4.x Vec4.y Vec3.x Vec3.y bodyPos v n).

(** The real number a finite binary floating-point value stands for. *)
Definition SF2R (v : spec_float) : R :=
  match v with
  | S754_finite s m e => (IZR (cond_Zopp s (Zpos m)) * powerRZ 2 e)%R
  | _ => 0%R
  end.

Definition real_body (b : vec4 IEEE.binary32) : vec4 R :=
  Vec4.mk (SF2R (Vec4.x b)) (SF2R (Vec4.y b)) (SF2R (Vec4.z b)) (SF2R (Vec4.w b)).

(** * Properties *)

(** ** Values of the IEEE instance *)

(** The literals [0.1f] and [0.01] are the binary32 value 0x3DCCCCCD and the
    binary64 value 0x3F847AE147AE147B. *)
Example softening_binary32 :
  softening (M := IEEE.ieee_machine) = S754_finite false 13421773 (-27).
Proof. reflexivity. Qed.

Example TIME_STEP_binary64 :
  TIME_STEP (M := IEEE.ieee_machine) = S754_finite false 5764607523034235 (-59).
Proof. reflexivity. Qed.

(** Three equal masses on a line at x = -1, 0, 1: the middle body gets
    exactly zero acceleration and the outer ones opposite accelerations
    towards it. *)
Example colinear_three_bodies :
  calculateAccelerations (M := IEEE.ieee_machine)
    [Vec4.mk (IEEE.f32 (-1)) (IEEE.f32 0) (IEEE.f32 0) (IEEE.f32 1);
     Vec4.mk (IEEE.f32 0) (IEEE.f32 0) (IEEE.f32 0) (IEEE.f32 1);
     Vec4.mk (IEEE.f32 1) (IEEE.f32 0) (IEEE.f32 0) (IEEE.f32 1)]
    [Vec3.mk S754_nan S754_nan S754_nan;
     Vec3.mk S754_nan S754_nan S754_nan;
     Vec3.mk S754_nan S754_nan S754_nan] 3
  = [Vec3.mk (S754_finite false 10353645 (-23)) (S754_zero false) (S754_zero false);
     Vec3.mk (S754_zero false) (S754_zero false) (S754_zero false);
     Vec3.mk (S754_finite true 10353645 (-23)) (S754_zero false) (S754_zero false)].
Proof. vm_compute. reflexivity. Qed.

(** ** Loops *)

Lemma for_range_0_S {S : Type} (n : nat) (body : nat -> S -> S) (s : S) :
  for_range 0 (Datatypes.S n) body s = body n (for_range 0 n body s).
Proof.
  unfold for_range. rewrite !Nat.sub_0_r, seq_S, fold_left_app. reflexivity.
Qed.

Lemma for_range_0_0 {S : Type} (body : nat -> S -> S) (s : S) :
  for_range 0 0 body s = s.
Proof. reflexivity. Qed.

Lemma for_range_S {S : Type} (lo n : nat) (body : nat -> S -> S) (s : S) :
  (lo <= n)%nat ->
  for_range lo (Datatypes.S n) body s = body n (for_range lo n body s).
Proof.
  intros Hle. unfold for_range.
  replace (Datatypes.S n - lo)%nat with (Datatypes.S (n - lo)) by lia.
  rewrite seq_S, fold_left_app. simpl.
  by replace (lo + (n - lo))%nat with n by lia.
Qed.

Lemma for_range_empty {S : Type} (lo : nat) (body : nat -> S -> S) (s : S) :
  for_range lo lo body s = s.
Proof. unfold for_range. by rewrite Nat.sub_diag. Qed.

Lemma for_range_length {A : Type} (body : nat -> list A -> list A) n (l : list A) :
  (forall i l, length (body i l) = length l) ->
  length (for_range 0 n body l) = length l.
Proof.
  intros Hbody. induction n as [|n IH]; [reflexivity|].
  by rewrite for_range_0_S, Hbody.
Qed.

Lemma ltb_succ_ne i k : i <> k -> Nat.ltb i (S k) = Nat.ltb i k.
Proof.
  intros Hne.
  destruct (Nat.ltb_spec i k), (Nat.ltb_spec i (S k)); try reflexivity; lia.
Qed.

Lemma ltb_succ_diag k : Nat.ltb k (S k) = true.
Proof. apply Nat.ltb_lt. lia. Qed.

(** ** The direct force evaluator, for any arithmetic *)

Section Evaluator.
Context {M : Machine}.

Lemma inner_loop_None bodyPos i m (acc : list (vec3 float)) :
  acc !! i = None -> for_range 0 m (inner_body bodyPos i) acc = acc.
Proof.
  intros Hi. induction m as [|m IH]; [reflexivity|].
  rewrite for_range_0_S, IH. unfold inner_body. rewrite Hi.
  destruct (Nat.eqb i m); [reflexivity|].
  destruct (bodyPos !! i); [|reflexivity].
  destruct (bodyPos !! m); reflexivity.
Qed.

Lemma inner_loop_Some bodyPos i m (acc : list (vec3 float)) a :
  acc !! i = Some a ->
  for_range 0 m (inner_body bodyPos i) acc = <[i := row bodyPos i m a]> acc.
Proof.
  intros Hi. pose proof (lookup_lt_Some _ _ _ Hi) as Hlt.
  induction m as [|m IH].
  - unfold row. rewrite !for_range_0_0. symmetry. by apply list_insert_id.
  - unfold row in *. rewrite !for_range_0_S, IH. unfold inner_body.
    destruct (Nat.eqb i m); [reflexivity|].
    rewrite list_lookup_insert_eq by exact Hlt.
    destruct (bodyPos !! i); [|reflexivity].
    destruct (bodyPos !! m); [|reflexivity].
    by rewrite list_insert_insert_eq.
Qed.

Lemma outer_loop_lookup bodyPos n k (acc : list (vec3 float)) i :
  for_range 0 k (fun i => for_range 0 n (inner_body bodyPos i)) acc !! i =
  match acc !! i with
  | Some a => Some (if Nat.ltb i k then row bodyPos i n a else a)
  | None => None
  end.
Proof.
  revert i. induction k as [|k IH]; intros i.
  - rewrite for_range_0_0. destruct (acc !! i); reflexivity.
  - rewrite for_range_0_S.
    set (acc' := for_range 0 k _ acc) in *.
    pose proof (IH k) as Hk. rewrite Nat.ltb_irrefl in Hk.
    destruct (acc !! k) as [a|] eqn:Hak.
    + rewrite (inner_loop_Some _ _ _ _ _ Hk).
      destruct (Nat.eq_dec i k) as [->|Hne].
      * rewrite list_lookup_insert_eq by (eapply lookup_lt_Some; exact Hk).
        by rewrite Hak, ltb_succ_diag.
      * rewrite list_lookup_insert_ne by congruence.
        rewrite IH. destruct (acc !! i); [|reflexivity].
        by rewrite ltb_succ_ne.
    + rewrite (inner_loop_None _ _ _ _ Hk). rewrite IH.
      destruct (acc !! i) eqn:Hai; [|reflexivity].
      rewrite ltb_succ_ne; [reflexivity|congruence].
Qed.

Lemma clear_loop_lookup k (acc : list (vec3 float)) i :
  for_range 0 k clear_body acc !! i =
  match acc !! i with
  | Some a => Some (if Nat.ltb i k then zero3 else a)
  | None => None
  end.
Proof.
  revert i. induction k as [|k IH]; intros i.
  - rewrite for_range_0_0. destruct (acc !! i); reflexivity.
  - rewrite for_range_0_S. unfold clear_body at 1.
    set (acc' := for_range 0 k _ acc) in *.
    destruct (Nat.eq_dec i k) as [->|Hne].
    + pose proof (IH k) as Hk. rewrite Nat.ltb_irrefl in Hk.
      destruct (acc !! k) as [a|] eqn:Hak.
      * rewrite list_lookup_insert_eq by (eapply lookup_lt_Some; exact Hk).
        by rewrite ltb_succ_diag.
      * rewrite list_insert_ge; [exact Hk|].
        by apply lookup_ge_None.
    + rewrite list_lookup_insert_ne by congruence.
      rewrite IH. destruct (acc !! i); [|reflexivity].
      by rewrite ltb_succ_ne.
Qed.

(** The evaluator's result at an index in range: the accumulation of
    the pair terms over [j = 0 .. n-1], [j <> i], from the zero vector. *)
Lemma calculateAccelerations_lookup bodyPos (bodyAccel : list (vec3 float)) n i :
  (i < n)%nat -> (n <= length bodyAccel)%nat ->
  calculateAccelerations bodyPos bodyAccel (Z.of_nat n) !! i =
    Some (row bodyPos i n zero3).
Proof.
  intros Hi Hn. unfold calculateAccelerations. rewrite Nat2Z.id.
  rewrite outer_loop_lookup, clear_loop_lookup.
  destruct (bodyAccel !! i) as [a|] eqn:Ha.
  - by rewrite (proj2 (Nat.ltb_lt i n) Hi).
  - apply lookup_ge_None in Ha. lia.
Qed.

(** Entries at or beyond [numParticles] are not touched. *)
Lemma calculateAccelerations_frame bodyPos (bodyAccel : list (vec3 float)) n i :
  (n <= i)%nat ->
  calculateAccelerations bodyPos bodyAccel (Z.of_nat n) !! i = bodyAccel !! i.
Proof.
  intros Hi. unfold calculateAccelerations. rewrite Nat2Z.id.
  rewrite outer_loop_lookup, clear_loop_lookup.
  destruct (bodyAccel !! i) as [a|]; [|reflexivity].
  by rewrite (proj2 (Nat.ltb_ge i n) Hi).
Qed.

Lemma inner_body_length bodyPos i j (acc : list (vec3 float)) :
  length (inner_body bodyPos i j acc) = length acc.
Proof.
  unfold inner_body. destruct (Nat.eqb i j); [reflexivity|].
  destruct (bodyPos !! i); [|reflexivity].
  destruct (bodyPos !! j); [|reflexivity].
  destruct (acc !! i); [|reflexivity].
  apply length_insert.
Qed.

Lemma calculateAccelerations_length bodyPos (bodyAccel : list (vec3 float)) numParticles :
  length (calculateAccelerations bodyPos bodyAccel numParticles) = length bodyAccel.
Proof.
  unfold calculateAccelerations. cbv zeta.
  rewrite for_range_length.
  - apply for_range_length. intros i l. apply length_insert.
  - intros i l. apply for_range_length. intros j l'. apply inner_body_length.
Qed.

(** C10. With one body, or none, the evaluator leaves exactly the zero
    vector at every index in range: the only pair is the skipped pair
    (0, 0), so nothing is ever accumulated on the cleared entry. *)
Theorem lone_body_zero_acceleration
    bodyPos (bodyAccel : list (vec3 float)) (numParticles : Z) (i : nat) :
  (0 <= numParticles <= 1)%Z ->
  (i < Z.to_nat numParticles)%nat ->
  (Z.to_nat numParticles <= length bodyAccel)%nat ->
  calculateAccelerations bodyPos bodyAccel numParticles !! i = Some zero3.
Proof.
  intros Hn Hi Hlen.
  assert (Hone : numParticles = Z.of_nat 1) by lia. subst numParticles.
  rewrite Nat2Z.id in *.
  rewrite calculateAccelerations_lookup by assumption.
  assert (i = 0)%nat as -> by lia. reflexivity.
Qed.

End Evaluator.

Lemma lone_body_zero_acceleration_witness :
  calculateAccelerations (M := IEEE.ieee_machine)
    [Vec4.mk (S754_finite false 12582912 (-22)) (S754_zero false) (S754_zero false)
             (S754_finite false 8388608 (-23))]
    [Vec3.mk S754_nan (S754_infinity true) (S754_finite false 8388608 (-23))]
    1 !! 0%nat
  = Some (Vec3.mk (S754_zero false) (S754_zero false) (S754_zero false)).
Proof.
  apply (lone_body_zero_acceleration (M := IEEE.ieee_machine)); simpl; lia.
Defined.

(** ** The time integrator, for any arithmetic *)

Section Integrator.
Context {M : Machine}.
Local Open Scope fp_scope.

Lemma update_body_other bodyAccel k (st : list (vec4 float) * list (vec3 float)) i :
  i <> k ->
  fst (update_body bodyAccel k st) !! i = fst st !! i /\
  snd (update_body bodyAccel k st) !! i = snd st !! i.
Proof.
  intros Hne. destruct st as [bodyPos bodyVel]. unfold update_body.
  destruct (bodyPos !! k); [|done].
  destruct (bodyVel !! k); [|done].
  destruct (bodyAccel !! k); [|done].
  simpl. by rewrite !list_lookup_insert_ne by congruence.
Qed.

Lemma update_loop_lookup bodyPos bodyVel bodyAccel k i p v a :
  bodyPos !! i = Some p -> bodyVel !! i = Some v -> bodyAccel !! i = Some a ->
  fst (for_range 0 k (update_body bodyAccel) (bodyPos, bodyVel)) !! i =
    Some (if Nat.ltb i k then update_pos p (update_vel v a) else p) /\
  snd (for_range 0 k (update_body bodyAccel) (bodyPos, bodyVel)) !! i =
    Some (if Nat.ltb i k then update_vel v a else v).
Proof.
  intros Hp Hv Ha. induction k as [|k [IHp IHv]].
  - rewrite for_range_0_0. done.
  - rewrite for_range_0_S.
    destruct (Nat.eq_dec i k) as [->|Hne].
    + rewrite Nat.ltb_irrefl in IHp, IHv. rewrite ltb_succ_diag.
      destruct (for_range 0 k (update_body bodyAccel) (bodyPos, bodyVel)) as [P V].
      simpl in IHp, IHv. unfold update_body. rewrite IHp, IHv, Ha. simpl.
      split; apply list_lookup_insert_eq; eapply lookup_lt_Some; eassumption.
    + destruct (update_body_other bodyAccel k
                  (for_range 0 k (update_body bodyAccel) (bodyPos, bodyVel)) i Hne)
        as [Ep Ev].
      rewrite Ep, Ev, IHp, IHv. by rewrite ltb_succ_ne.
Qed.

Lemma update_loop_frame bodyPos bodyVel bodyAccel k i :
  (k <= i)%nat ->
  fst (for_range 0 k (update_body bodyAccel) (bodyPos, bodyVel)) !! i = bodyPos !! i /\
  snd (for_range 0 k (update_body bodyAccel) (bodyPos, bodyVel)) !! i = bodyVel !! i.
Proof.
  induction k as [|k IH]; intros Hi.
  - rewrite for_range_0_0. done.
  - rewrite for_range_0_S.
    destruct (update_body_other bodyAccel k
                (for_range 0 k (update_body bodyAccel) (bodyPos, bodyVel)) i) as [Ep Ev];
      [lia|].
    rewrite Ep, Ev. apply IH. lia.
Qed.

Lemma update_body_mass bodyAccel k (st : list (vec4 float) * list (vec3 float)) :
  Vec4.w <$> fst (update_body bodyAccel k st) = Vec4.w <$> fst st.
Proof.
  destruct st as [bodyPos bodyVel]. unfold update_body.
  destruct (bodyPos !! k) as [p|] eqn:Hp; [|done].
  destruct (bodyVel !! k); [|done].
  destruct (bodyAccel !! k); [|done].
  simpl. rewrite list_fmap_insert. apply list_insert_id.
  by rewrite list_lookup_fmap, Hp.
Qed.

Lemma update_loop_mass bodyPos bodyVel bodyAccel k :
  Vec4.w <$> fst (for_range 0 k (update_body bodyAccel) (bodyPos, bodyVel)) =
  Vec4.w <$> bodyPos.
Proof.
  induction k as [|k IH]; [reflexivity|].
  by rewrite for_range_0_S, update_body_mass.
Qed.

(** C3. One integrator step is semi-implicit Euler: for every body in
    range the new velocity is [v + a * TIME_STEP], and the new position is
    [p + v' * TIME_STEP] with [v'] the velocity just written, that is
    [p + (v + a * TIME_STEP) * TIME_STEP] (each update evaluated in [double]
    and stored as a [float], as the code does). *)
Theorem updateParticles_semi_implicit_euler
    bodyPos bodyVel bodyAccel (i : nat) (p : vec4 float) (v a : vec3 float) :
  (i < Z.to_nat NUM_PARTICLES)%nat ->
  bodyPos !! i = Some p -> bodyVel !! i = Some v -> bodyAccel !! i = Some a ->
  let step (q u : float) : float := to_float (to_double q + to_double u * TIME_STEP) in
  let v' := Vec3.mk (step (Vec3.x v) (Vec3.x a))
                    (step (Vec3.y v) (Vec3.y a))
                    (step (Vec3.z v) (Vec3.z a)) in
  snd (updateParticles bodyPos bodyVel bodyAccel) !! i = Some v' /\
  fst (updateParticles bodyPos bodyVel bodyAccel) !! i =
    Some (Vec4.mk (step (Vec4.x p) (Vec3.x v'))
                  (step (Vec4.y p) (Vec3.y v'))
                  (step (Vec4.z p) (Vec3.z v'))
                  (Vec4.w p)) /\
  (Vec4.x <$> fst (updateParticles bodyPos bodyVel bodyAccel) !! i =
     Some (step (Vec4.x p) (step (Vec3.x v) (Vec3.x a))) /\
   Vec4.y <$> fst (updateParticles bodyPos bodyVel bodyAccel) !! i =
     Some (step (Vec4.y p) (step (Vec3.y v) (Vec3.y a))) /\
   Vec4.z <$> fst (updateParticles bodyPos bodyVel bodyAccel) !! i =
     Some (step (Vec4.z p) (step (Vec3.z v) (Vec3.z a)))).
Proof.
  intros Hi Hp Hv Ha step v'. unfold updateParticles.
  destruct (update_loop_lookup bodyPos bodyVel bodyAccel
              (Z.to_nat NUM_PARTICLES) i p v a Hp Hv Ha) as [Ep Ev].
  rewrite (proj2 (Nat.ltb_lt _ _) Hi) in Ep, Ev.
  rewrite Ep, Ev. repeat split.
Qed.

(** C9. The integrator never changes a mass: the [w] fields of the
    position array after a step are those before it, body by body. *)
Theorem updateParticles_preserves_mass
    (bodyPos : list (vec4 float)) (bodyVel bodyAccel : list (vec3 float)) :
  Vec4.w <$> fst (updateParticles bodyPos bodyVel bodyAccel) = Vec4.w <$> bodyPos.
Proof. apply update_loop_mass. Qed.

Lemma frame_unfold bodyPos bodyVel bodyAccel :
  frame (bodyPos, bodyVel, bodyAccel) =
  (fst (updateParticles bodyPos bodyVel
          (calculateAccelerations bodyPos bodyAccel NUM_PARTICLES)),
   snd (updateParticles bodyPos bodyVel
          (calculateAccelerations bodyPos bodyAccel NUM_PARTICLES)),
   calculateAccelerations bodyPos bodyAccel NUM_PARTICLES).
Proof.
  unfold frame.
  by destruct (updateParticles bodyPos bodyVel
                 (calculateAccelerations bodyPos bodyAccel NUM_PARTICLES)).
Qed.

End Integrator.

Lemma updateParticles_semi_implicit_euler_witness :
  snd (updateParticles (M := IEEE.ieee_machine)
         (replicate 1000 (Vec4.mk (S754_finite false 8388608 (-23)) (S754_zero false)
                                  (S754_zero false) (S754_finite false 8388608 (-23))))
         (replicate 1000 (Vec3.mk (S754_zero false) (S754_finite false 8388608 (-23))
                                  (S754_zero false)))
         (replicate 1000 (Vec3.mk (S754_finite true 8388608 (-23)) (S754_zero false)
                                  (S754_zero false)))) !! 7%nat
  = Some (Vec3.mk (S754_finite true 10737418 (-30)) (S754_finite false 8388608 (-23))
                  (S754_zero false)).
Proof.
  apply (updateParticles_semi_implicit_euler (M := IEEE.ieee_machine)
           _ _ _ 7%nat
           (Vec4.mk (S754_finite false 8388608 (-23)) (S754_zero false)
                    (S754_zero false) (S754_finite false 8388608 (-23)))
           (Vec3.mk (S754_zero false) (S754_finite false 8388608 (-23)) (S754_zero false))
           (Vec3.mk (S754_finite true 8388608 (-23)) (S754_zero false) (S754_zero false))).
  - vm_compute. lia.
  - reflexivity.
  - reflexivity.
  - reflexivity.
Defined.

(** ** Exact arithmetic *)

Section ExactArithmetic.
Import Reference.
Local Open Scope R_scope.

Lemma Rsum_ext n (f g : nat -> R) :
  (forall i, (i < n)%nat -> f i = g i) -> Rsum n f = Rsum n g.
Proof.
  induction n as [|n IH]; intros H; simpl; [reflexivity|].
  rewrite IH, (H n) by (intros; try apply H; lia). reflexivity.
Qed.

Lemma Rsum_plus n (f g : nat -> R) :
  Rsum n (fun i => f i + g i) = Rsum n f + Rsum n g.
Proof. induction n as [|n IH]; simpl; [lra|]. rewrite IH. lra. Qed.

Lemma Rsum_scal_l n (c : R) (f : nat -> R) :
  Rsum n (fun i => c * f i) = c * Rsum n f.
Proof. induction n as [|n IH]; simpl; [lra|]. rewrite IH. lra. Qed.

Lemma Rsum_scal_r n (c : R) (f : nat -> R) :
  Rsum n (fun i => f i * c) = Rsum n f * c.
Proof. induction n as [|n IH]; simpl; [lra|]. rewrite IH. lra. Qed.

Lemma Rsum_zero n : Rsum n (fun _ => 0) = 0.
Proof. induction n as [|n IH]; simpl; [reflexivity|]. rewrite IH. lra. Qed.

Lemma Rsum_le n (f g : nat -> R) :
  (forall i, (i < n)%nat -> f i <= g i) -> Rsum n f <= Rsum n g.
Proof.
  induction n as [|n IH]; intros H; simpl; [lra|].
  assert (Rsum n f <= Rsum n g) by (apply IH; intros; apply H; lia).
  assert (f n <= g n) by (apply H; lia). lra.
Qed.

Lemma Rsum_abs n (f : nat -> R) : Rabs (Rsum n f) <= Rsum n (fun i => Rabs (f i)).
Proof.
  induction n as [|n IH]; simpl.
  - rewrite Rabs_R0. lra.
  - eapply Rle_trans; [apply Rabs_triang|]. lra.
Qed.

(** A double sum of antisymmetric terms vanishes. *)
Lemma Rsum_antisymmetric n (F : nat -> nat -> R) :
  (forall i j, F i j = - F j i) ->
  Rsum n (fun i => Rsum n (fun j => F i j)) = 0.
Proof.
  intros Hanti. induction n as [|n IH]; [reflexivity|].
  simpl. rewrite Rsum_plus, IH.
  assert (Hd : F n n = 0) by (pose proof (Hanti n n); lra).
  rewrite Hd.
  assert (Hs : Rsum n (fun i => F i n) + Rsum n (fun j => F n j) = 0).
  { rewrite <- Rsum_plus. rewrite <- (Rsum_zero n).
    apply Rsum_ext. intros i _. rewrite (Hanti i n). lra. }
  lra.
Qed.

Lemma flit_exact_0 : @flit R Exact.exact_ops 0 1 = 0.
Proof. simpl. lra. Qed.

Lemma zero3_exact : zero3 (M := Exact.exact_machine) = Vec3.mk 0 0 0.
Proof. unfold zero3. simpl. f_equal; lra. Qed.

Lemma distSqr_exact (bi bj : vec4 R) :
  distSqr (M := Exact.exact_machine) bi bj = softened_sqdist bi bj.
Proof. unfold distSqr, softened_sqdist, softening. simpl. lra. Qed.

Lemma softened_sqdist_lower (bi bj : vec4 R) : (1 / 10) ^ 2 <= softened_sqdist bi bj.
Proof.
  unfold softened_sqdist.
  pose proof (pow2_ge_0 (Vec4.x bj - Vec4.x bi)).
  pose proof (pow2_ge_0 (Vec4.y bj - Vec4.y bi)).
  pose proof (pow2_ge_0 (Vec4.z bj - Vec4.z bi)).
  lra.
Qed.

Lemma softened_sqdist_pos (bi bj : vec4 R) : 0 < softened_sqdist bi bj.
Proof. pose proof (softened_sqdist_lower bi bj). lra. Qed.

Lemma softened_sqdist_sym (bi bj : vec4 R) : softened_sqdist bi bj = softened_sqdist bj bi.
Proof. unfold softened_sqdist. ring. Qed.

Lemma Rpower_three_halves (d : R) : 0 < d -> Rpower d (3 / 2) = d * sqrt d.
Proof.
  intros Hd. replace (3 / 2) with (1 + / 2) by lra.
  rewrite Rpower_plus, Rpower_1, Rpower_sqrt by assumption. reflexivity.
Qed.

(** The factor computed by the code, [mass[j] * (1 / sqrt d)^3], is
    [mass[j] / d^1.5]. *)
Lemma pair_scale_exact (bi bj : vec4 R) :
  pair_scale (M := Exact.exact_machine) bi bj =
  Vec4.w bj / Rpower (softened_sqdist bi bj) (3 / 2).
Proof.
  unfold pair_scale. rewrite distSqr_exact.
  pose proof (softened_sqdist_pos bi bj) as Hd.
  rewrite Rpower_three_halves by assumption.
  set (d := softened_sqdist bi bj) in *. simpl.
  pose proof (sqrt_lt_R0 d Hd) as Hs.
  rewrite <- (sqrt_sqrt d) at 4 by lra.
  field. lra.
Qed.

(** One coordinate of the value accumulated by a row of the evaluator.
    [c3] and [c4] read the same coordinate of a [vec3] and of a [vec4]. *)
Lemma row_coordinate (c3 : vec3 R -> R) (c4 : vec4 R -> R)
    (bodyPos : list (vec4 R)) (i m : nat) (a : vec3 R) :
  (forall bi bj a,
      c3 (accumulate (M := Exact.exact_machine) bi bj a) =
      c3 a + (c4 bj - c4 bi) * pair_scale (M := Exact.exact_machine) bi bj) ->
  (m <= length bodyPos)%nat -> (i < length bodyPos)%nat ->
  c3 (row (M := Exact.exact_machine) bodyPos i m a) = c3 a + Rsum m (pair_term c4 bodyPos i).
Proof.
  intros Hacc Hm Hi. induction m as [|m IH].
  - unfold row. rewrite for_range_0_0. simpl. lra.
  - unfold row in *. rewrite for_range_0_S. simpl Rsum.
    unfold pair_term at 2. unfold body_at.
    change (@float Exact.exact_machine) with R in *.
    specialize (IH ltac:(lia)).
    set (r := for_range 0 m _ a) in *.
    destruct (Nat.eqb i m) eqn:Heq.
    + rewrite IH. lra.
    + destruct (lookup_lt_is_Some_2 bodyPos i Hi) as [bi Hbi].
      destruct (lookup_lt_is_Some_2 bodyPos m ltac:(lia)) as [bj Hbj].
      rewrite Hbi, Hbj. simpl default.
      rewrite Hacc, IH. rewrite pair_scale_exact.
      unfold Rdiv. lra.
Qed.

(** In exact arithmetic the evaluator computes the pairwise sum. *)
Lemma calculateAccelerations_exact (bodyPos : list (vec4 R)) (bodyAccel : list (vec3 R))
    (n i : nat) :
  (n <= length bodyPos)%nat -> (n <= length bodyAccel)%nat -> (i < n)%nat ->
  calculateAccelerations (M := Exact.exact_machine) bodyPos bodyAccel (Z.of_nat n) !! i =
    Some (pairwise_sum bodyPos n i).
Proof.
  intros Hp Ha Hi.
  etrans; [exact (calculateAccelerations_lookup (M := Exact.exact_machine)
                    bodyPos bodyAccel n i Hi Ha)|].
  f_equal. rewrite zero3_exact. unfold pairwise_sum.
  pose proof (row_coordinate Vec3.x Vec4.x bodyPos i n (Vec3.mk 0 0 0)
                ltac:(reflexivity) Hp ltac:(lia)) as Hx.
  pose proof (row_coordinate Vec3.y Vec4.y bodyPos i n (Vec3.mk 0 0 0)
                ltac:(reflexivity) Hp ltac:(lia)) as Hy.
  pose proof (row_coordinate Vec3.z Vec4.z bodyPos i n (Vec3.mk 0 0 0)
                ltac:(reflexivity) Hp ltac:(lia)) as Hz.
  simpl in Hx, Hy, Hz. rewrite Rplus_0_l in Hx, Hy, Hz.
  destruct (row (M := Exact.exact_machine) bodyPos i n (Vec3.mk 0 0 0)) as [rx ry rz].
  simpl in Hx, Hy, Hz. by subst.
Qed.

(** C1 (amended). The evaluator first zeroes every output entry in range
    and then accumulates, for every ordered pair (i, j) with i <> j and in
    the order of j, the term of the pair, each operation being rounded in
    the arithmetic at hand (this much for any arithmetic); the pair (i, i)
    contributes nothing.  In exact arithmetic the term is
    (pos[j] - pos[i]) * mass[j] / (|pos[j] - pos[i]|^2 + 0.1^2)^1.5 and the
    final [bodyAccel[i]] is exactly the pairwise sum of these terms,
    whatever the array held before.  In single precision the result is the
    rounded accumulation and in general differs from the pairwise sum. *)
Theorem calculateAccelerations_pairwise_sum
    (bodyPos : list (vec4 R)) (bodyAccel : list (vec3 R)) (n i : nat) :
  (n <= length bodyPos)%nat -> (n <= length bodyAccel)%nat -> (i < n)%nat ->
  (forall (M : Machine) (pos : list (vec4 float)) (acc : list (vec3 float)),
      (n <= length acc)%nat ->
      for_range 0 n clear_body acc !! i = Some zero3 /\
      calculateAccelerations pos acc (Z.of_nat n) !! i = Some (row pos i n zero3)) /\
  pair_term Vec4.x bodyPos i i = 0 /\
  pair_term Vec4.y bodyPos i i = 0 /\
  pair_term Vec4.z bodyPos i i = 0 /\
  calculateAccelerations (M := Exact.exact_machine) bodyPos bodyAccel (Z.of_nat n) !! i =
    Some (pairwise_sum bodyPos n i).
Proof.
  intros Hp Ha Hi. split; [|split; [|split; [|split]]].
  - intros M pos acc Hacc. split.
    + rewrite clear_loop_lookup.
      destruct (lookup_lt_is_Some_2 acc i ltac:(lia)) as [a0 Ha0].
      by rewrite Ha0, (proj2 (Nat.ltb_lt i n) Hi).
    + by apply calculateAccelerations_lookup.
  - unfold pair_term. by rewrite Nat.eqb_refl.
  - unfold pair_term. by rewrite Nat.eqb_refl.
  - unfold pair_term. by rewrite Nat.eqb_refl.
  - by apply calculateAccelerations_exact.
Qed.

(** Newton's third law for the pair terms, weighted by the masses. *)
Lemma weighted_pair_term_antisymmetric (c : vec4 R -> R) (bodyPos : list (vec4 R)) (i j : nat) :
  Vec4.w (body_at bodyPos i) * pair_term c bodyPos i j =
  - (Vec4.w (body_at bodyPos j) * pair_term c bodyPos j i).
Proof.
  unfold pair_term. destruct (Nat.eqb_spec i j) as [->|Hne].
  - rewrite Nat.eqb_refl. lra.
  - rewrite (proj2 (Nat.eqb_neq j i)) by congruence.
    rewrite (softened_sqdist_sym (body_at bodyPos j) (body_at bodyPos i)).
    unfold Rdiv. ring.
Qed.

Lemma force_coordinate_zero (c : vec4 R -> R) (bodyPos : list (vec4 R)) (n : nat) :
  Rsum n (fun i => Vec4.w (body_at bodyPos i) * Rsum n (pair_term c bodyPos i)) = 0.
Proof.
  rewrite <- (Rsum_antisymmetric n
                (fun i j => Vec4.w (body_at bodyPos i) * pair_term c bodyPos i j)).
  - apply Rsum_ext. intros i _. by rewrite Rsum_scal_l.
  - intros i j. apply weighted_pair_term_antisymmetric.
Qed.

Lemma vec_at_calculateAccelerations (bodyPos : list (vec4 R)) (bodyAccel : list (vec3 R))
    (n i : nat) :
  (n <= length bodyPos)%nat -> (n <= length bodyAccel)%nat -> (i < n)%nat ->
  vec_at (calculateAccelerations (M := Exact.exact_machine) bodyPos bodyAccel (Z.of_nat n)) i =
  pairwise_sum bodyPos n i.
Proof.
  intros Hp Ha Hi. unfold vec_at.
  pose proof (calculateAccelerations_exact bodyPos bodyAccel n i Hp Ha Hi) as H.
  change (@float Exact.exact_machine) with R in H. by rewrite H.
Qed.

Lemma total_force_zero (bodyPos : list (vec4 R)) (bodyAccel : list (vec3 R)) (n : nat) :
  (n <= length bodyPos)%nat -> (n <= length bodyAccel)%nat ->
  mass_weighted_sum bodyPos
    (calculateAccelerations (M := Exact.exact_machine) bodyPos bodyAccel (Z.of_nat n)) n =
  Vec3.mk 0 0 0.
Proof.
  intros Hp Ha. unfold mass_weighted_sum.
  f_equal.
  - rewrite <- (force_coordinate_zero Vec4.x bodyPos n). apply Rsum_ext. intros i Hi.
    by rewrite vec_at_calculateAccelerations.
  - rewrite <- (force_coordinate_zero Vec4.y bodyPos n). apply Rsum_ext. intros i Hi.
    by rewrite vec_at_calculateAccelerations.
  - rewrite <- (force_coordinate_zero Vec4.z bodyPos n). apply Rsum_ext. intros i Hi.
    by rewrite vec_at_calculateAccelerations.
Qed.

(** Effect of the integrator loop (run over [k] bodies) on one coordinate of
    the mass-weighted velocity sum of the first [n <= k] bodies. *)
Lemma update_loop_momentum (c : vec3 R -> R)
    (bodyPos : list (vec4 R)) (bodyVel bodyAccel : list (vec3 R)) (n k : nat) :
  (forall v a, c (update_vel (M := Exact.exact_machine) v a) = c v + c a * (1 / 100)) ->
  (n <= k)%nat ->
  (n <= length bodyPos)%nat -> (n <= length bodyVel)%nat -> (n <= length bodyAccel)%nat ->
  Rsum n (fun i =>
    Vec4.w (body_at (fst (for_range 0 k (update_body (M := Exact.exact_machine) bodyAccel)
                            (bodyPos, bodyVel))) i) *
    c (vec_at (snd (for_range 0 k (update_body (M := Exact.exact_machine) bodyAccel)
                      (bodyPos, bodyVel))) i)) =
  Rsum n (fun i => Vec4.w (body_at bodyPos i) * c (vec_at bodyVel i)) +
  (1 / 100) * Rsum n (fun i => Vec4.w (body_at bodyPos i) * c (vec_at bodyAccel i)).
Proof.
  intros Hc Hk Hp Hv Ha.
  rewrite <- Rsum_scal_l, <- Rsum_plus. apply Rsum_ext. intros i Hi.
  destruct (lookup_lt_is_Some_2 bodyPos i ltac:(lia)) as [p Ep].
  destruct (lookup_lt_is_Some_2 bodyVel i ltac:(lia)) as [v Ev].
  destruct (lookup_lt_is_Some_2 bodyAccel i ltac:(lia)) as [a Ea].
  destruct (update_loop_lookup (M := Exact.exact_machine)
              bodyPos bodyVel bodyAccel k i p v a Ep Ev Ea) as [Hp' Hv'].
  rewrite (proj2 (Nat.ltb_lt i k) ltac:(lia)) in Hp', Hv'.
  unfold body_at, vec_at.
  change (@float Exact.exact_machine) with R in *.
  rewrite Hp', Hv', Ep, Ev, Ea. simpl. rewrite Hc. lra.
Qed.

(** Evaluator over [n] bodies followed by the integrator loop over [k >= n]
    bodies: the mass-weighted velocity sum of the [n] bodies is unchanged. *)
Lemma evaluate_then_update_momentum
    (bodyPos : list (vec4 R)) (bodyVel bodyAccel : list (vec3 R)) (n k : nat) :
  (n <= k)%nat ->
  (n <= length bodyPos)%nat -> (n <= length bodyVel)%nat -> (n <= length bodyAccel)%nat ->
  mass_weighted_sum
    (fst (for_range 0 k
            (update_body (M := Exact.exact_machine)
               (calculateAccelerations (M := Exact.exact_machine)
                  bodyPos bodyAccel (Z.of_nat n)))
            (bodyPos, bodyVel)))
    (snd (for_range 0 k
            (update_body (M := Exact.exact_machine)
               (calculateAccelerations (M := Exact.exact_machine)
                  bodyPos bodyAccel (Z.of_nat n)))
            (bodyPos, bodyVel))) n =
  mass_weighted_sum bodyPos bodyVel n.
Proof.
  intros Hk Hp Hv Ha.
  pose proof (calculateAccelerations_length (M := Exact.exact_machine)
                bodyPos bodyAccel (Z.of_nat n)) as Hlen.
  pose proof (total_force_zero bodyPos bodyAccel n Hp Ha) as Hzero.
  unfold mass_weighted_sum in Hzero. injection Hzero as Hx Hy Hz.
  set (A := calculateAccelerations (M := Exact.exact_machine) bodyPos bodyAccel (Z.of_nat n))
    in *.
  assert (HA : (n <= length A)%nat) by (rewrite Hlen; exact Ha).
  pose proof (update_loop_momentum Vec3.x bodyPos bodyVel A n k
                ltac:(reflexivity) Hk Hp Hv HA) as Mx.
  pose proof (update_loop_momentum Vec3.y bodyPos bodyVel A n k
                ltac:(reflexivity) Hk Hp Hv HA) as My.
  pose proof (update_loop_momentum Vec3.z bodyPos bodyVel A n k
                ltac:(reflexivity) Hk Hp Hv HA) as Mz.
  rewrite Hx in Mx. rewrite Hy in My. rewrite Hz in Mz.
  unfold mass_weighted_sum. f_equal.
  - etrans; [exact Mx|]. lra.
  - etrans; [exact My|]. lra.
  - etrans; [exact Mz|]. lra.
Qed.

(** C4. The accelerations the direct evaluator produces for [n] bodies
    satisfy sum_i mass[i] * accel[i] = 0, and therefore one integrator step
    applied with those accelerations leaves the total momentum
    sum_i mass[i] * vel[i] of the [n] bodies unchanged ([n] being at most
    the [NUM_PARTICLES] bodies the integrator advances); in particular one
    frame of the simulation loop conserves the total momentum. *)
Theorem internal_forces_conserve_momentum
    (bodyPos : list (vec4 R)) (bodyVel bodyAccel : list (vec3 R)) (n : nat) :
  (n <= length bodyPos)%nat -> (n <= length bodyVel)%nat -> (n <= length bodyAccel)%nat ->
  (n <= Z.to_nat NUM_PARTICLES)%nat ->
  let accel :=
    calculateAccelerations (M := Exact.exact_machine) bodyPos bodyAccel (Z.of_nat n) in
  mass_weighted_sum bodyPos accel n = Vec3.mk 0 0 0 /\
  mass_weighted_sum
    (fst (updateParticles (M := Exact.exact_machine) bodyPos bodyVel accel))
    (snd (updateParticles (M := Exact.exact_machine) bodyPos bodyVel accel)) n =
  mass_weighted_sum bodyPos bodyVel n /\
  (Z.of_nat n = NUM_PARTICLES ->
   mass_weighted_sum
     (fst (fst (frame (M := Exact.exact_machine) (bodyPos, bodyVel, bodyAccel))))
     (snd (fst (frame (M := Exact.exact_machine) (bodyPos, bodyVel, bodyAccel)))) n =
   mass_weighted_sum bodyPos bodyVel n).
Proof.
  intros Hp Hv Ha Hn accel. split; [by apply total_force_zero|]. split.
  - unfold accel, updateParticles. by apply evaluate_then_update_momentum.
  - intros HN.
    rewrite (frame_unfold (M := Exact.exact_machine)).
    unfold updateParticles. rewrite <- HN, Nat2Z.id.
    by apply evaluate_then_update_momentum.
Qed.

(** *** The error metric in exact arithmetic *)

Lemma relative_sq_error_exact (a d : vec3 R) :
  difference (M := Exact.exact_machine) a d / normalizer (M := Exact.exact_machine) a =
  relative_sq_error a d.
Proof. unfold difference, normalizer, relative_sq_error. simpl. f_equal; ring. Qed.

Lemma L2norm_loop_exact (bodyAccel bodyAcceld : list (vec3 R)) (N : Z) (k : nat) (acc : R) :
  (k <= length bodyAccel)%nat -> (k <= length bodyAcceld)%nat ->
  for_range 0 k (L2norm_body (M := Exact.exact_machine) bodyAccel bodyAcceld N) acc =
  acc + Rsum k (fun i =>
                  relative_sq_error (vec_at bodyAccel i) (vec_at bodyAcceld i) / (IZR N / 1)).
Proof.
  intros Ha Hd. induction k as [|k IH].
  - rewrite for_range_0_0. simpl. lra.
  - rewrite for_range_0_S, IH by lia. simpl Rsum.
    destruct (lookup_lt_is_Some_2 bodyAccel k ltac:(lia)) as [a Ea].
    destruct (lookup_lt_is_Some_2 bodyAcceld k ltac:(lia)) as [d Ed].
    unfold L2norm_body, vec_at.
    change (@float Exact.exact_machine) with R in *.
    rewrite Ea, Ed. simpl default.
    rewrite <- relative_sq_error_exact. simpl. lra.
Qed.

(** C7. For [n >= 1] bodies whose reference accelerations are nonzero, the
    value the harness computes (each body's relative squared error divided by
    [n] inside the loop, square root at the end) is, in exact arithmetic,
    the documented one (sum of the relative squared errors, divided by [n]
    after the summation, then square-rooted). *)
Theorem L2norm_division_placement
    (bodyAccel bodyAcceld : list (vec3 R)) (n : nat) :
  (1 <= n)%nat ->
  (n <= length bodyAccel)%nat -> (n <= length bodyAcceld)%nat ->
  (forall i a, (i < n)%nat -> bodyAccel !! i = Some a ->
               Vec3.x a ^ 2 + Vec3.y a ^ 2 + Vec3.z a ^ 2 <> 0) ->
  L2norm (M := Exact.exact_machine) bodyAccel bodyAcceld (Z.of_nat n) =
  documented_L2 bodyAccel bodyAcceld n.
Proof.
  intros Hn Ha Hd _. unfold L2norm, documented_L2. rewrite Nat2Z.id.
  rewrite L2norm_loop_exact by assumption.
  simpl. f_equal.
  rewrite <- INR_IZR_INZ.
  unfold Rdiv at 1. rewrite Rmult_0_l, Rplus_0_l.
  unfold Rdiv at 1. rewrite Rsum_scal_r.
  unfold Rdiv. rewrite Rinv_1, Rmult_1_r. reflexivity.
Qed.

(** *** Softening bounds the accelerations *)

Lemma Rabs_le_sqrt (u d : R) : u ^ 2 <= d -> Rabs u <= sqrt d.
Proof.
  intros H. rewrite <- sqrt_Rsqr_abs. apply sqrt_le_1_alt.
  unfold Rsqr. lra.
Qed.

Lemma pair_term_bound (c : vec4 R -> R) (bodyPos : list (vec4 R)) (i j : nat) :
  (forall bi bj, (c bj - c bi) ^ 2 <= softened_sqdist bi bj) ->
  0 <= Vec4.w (body_at bodyPos j) ->
  Rabs (pair_term c bodyPos i j) <= 100 * Vec4.w (body_at bodyPos j).
Proof.
  intros Hc Hw. unfold pair_term. destruct (Nat.eqb i j).
  - rewrite Rabs_R0. lra.
  - set (bi := body_at bodyPos i) in *. set (bj := body_at bodyPos j) in *.
    pose proof (softened_sqdist_pos bi bj) as Hd.
    pose proof (softened_sqdist_lower bi bj) as Hl.
    rewrite Rpower_three_halves by assumption.
    set (d := softened_sqdist bi bj) in *.
    pose proof (sqrt_lt_R0 d Hd) as Hs.
    pose proof (Rabs_le_sqrt (c bj - c bi) d (Hc bi bj)) as Hu.
    assert (Hprod : 0 < d * sqrt d) by (apply Rmult_lt_0_compat; assumption).
    unfold Rdiv. rewrite !Rabs_mult.
    rewrite (Rabs_pos_eq (Vec4.w bj)) by assumption.
    rewrite (Rabs_pos_eq (/ (d * sqrt d))) by (left; by apply Rinv_0_lt_compat).
    apply Rle_trans with (sqrt d * Vec4.w bj * / (d * sqrt d)).
    + apply Rmult_le_compat_r; [left; by apply Rinv_0_lt_compat|].
      apply Rmult_le_compat_r; assumption.
    + replace (sqrt d * Vec4.w bj * / (d * sqrt d)) with (Vec4.w bj * / d)
        by (field; split; lra).
      assert (Hinv : / d <= 100).
      { replace 100 with (/ (1 / 10) ^ 2) by (simpl; field).
        apply Rinv_le_contravar; [simpl; lra|assumption]. }
      rewrite (Rmult_comm 100). apply Rmult_le_compat_l; assumption.
Qed.

Lemma pairwise_sum_coordinate_bound (c : vec4 R -> R) (bodyPos : list (vec4 R)) (n i : nat) :
  (forall bi bj, (c bj - c bi) ^ 2 <= softened_sqdist bi bj) ->
  (forall j, (j < n)%nat -> 0 <= Vec4.w (body_at bodyPos j)) ->
  Rabs (Rsum n (pair_term c bodyPos i)) <= 100 * total_mass bodyPos n.
Proof.
  intros Hc Hw. eapply Rle_trans; [apply Rsum_abs|].
  unfold total_mass. rewrite <- Rsum_scal_l. apply Rsum_le.
  intros j Hj. apply pair_term_bound; [assumption|by apply Hw].
Qed.

Lemma coordinate_sq_le_x (bi bj : vec4 R) :
  (Vec4.x bj - Vec4.x bi) ^ 2 <= softened_sqdist bi bj.
Proof.
  unfold softened_sqdist.
  pose proof (pow2_ge_0 (Vec4.y bj - Vec4.y bi)).
  pose proof (pow2_ge_0 (Vec4.z bj - Vec4.z bi)). lra.
Qed.

Lemma coordinate_sq_le_y (bi bj : vec4 R) :
  (Vec4.y bj - Vec4.y bi) ^ 2 <= softened_sqdist bi bj.
Proof.
  unfold softened_sqdist.
  pose proof (pow2_ge_0 (Vec4.x bj - Vec4.x bi)).
  pose proof (pow2_ge_0 (Vec4.z bj - Vec4.z bi)). lra.
Qed.

Lemma coordinate_sq_le_z (bi bj : vec4 R) :
  (Vec4.z bj - Vec4.z bi) ^ 2 <= softened_sqdist bi bj.
Proof.
  unfold softened_sqdist.
  pose proof (pow2_ge_0 (Vec4.x bj - Vec4.x bi)).
  pose proof (pow2_ge_0 (Vec4.y bj - Vec4.y bi)). lra.
Qed.

End ExactArithmetic.

(** ** IEEE arithmetic *)

Section IEEEArithmetic.
Import IEEE.

(** *** Non-finite values propagate through the metric *)

Lemma SFdiv_by_zero_not_finite prec emax (v : spec_float) (s : bool) :
  is_finite (SFdiv prec emax v (S754_zero s)) = false.
Proof. destruct v; reflexivity. Qed.

Lemma SFdiv_not_finite_l prec emax (v u : spec_float) :
  is_finite v = false -> is_finite (SFdiv prec emax v u) = false.
Proof. destruct v; try discriminate; destruct u; reflexivity. Qed.

Lemma SFadd_not_finite_l prec emax (v u : spec_float) :
  is_finite v = false -> is_finite (SFadd prec emax v u) = false.
Proof.
  destruct v as [| sv | |]; try discriminate; intros _.
  - destruct u as [| su | |]; try reflexivity. destruct sv, su; reflexivity.
  - reflexivity.
Qed.

Lemma SFadd_not_finite_r prec emax (v u : spec_float) :
  is_finite u = false -> is_finite (SFadd prec emax v u) = false.
Proof.
  destruct u as [| su | |]; try discriminate; intros _.
  - destruct v as [| sv | |]; try reflexivity. destruct sv, su; reflexivity.
  - destruct v; reflexivity.
Qed.

Lemma SFsqrt_not_finite prec emax (v : spec_float) :
  is_finite v = false -> is_finite (SFsqrt prec emax v) = false.
Proof. destruct v as [| [] | |]; try discriminate; reflexivity. Qed.

(** The squared magnitude of an exactly zero reference acceleration is +0. *)
Lemma normalizer_zero (a : vec3 binary32) :
  is_zero (Vec3.x a) = true -> is_zero (Vec3.y a) = true -> is_zero (Vec3.z a) = true ->
  normalizer (M := ieee_machine) a = S754_zero false.
Proof.
  destruct a as [[sx| | |] [sy| | |] [sz| | |]]; try discriminate; intros _ _ _.
  destruct sx, sy, sz; reflexivity.
Qed.

Lemma L2norm_body_not_finite bodyAccel bodyAcceld numParticles i (acc : binary64) :
  is_finite acc = false ->
  is_finite (L2norm_body (M := ieee_machine) bodyAccel bodyAcceld numParticles i acc) = false.
Proof.
  intros Hacc. unfold L2norm_body.
  destruct (bodyAccel !! i); [|exact Hacc].
  destruct (bodyAcceld !! i); [|exact Hacc].
  by apply SFadd_not_finite_l.
Qed.

Lemma L2norm_loop_not_finite bodyAccel bodyAcceld numParticles (m k : nat)
    (a d : vec3 binary32) (acc : binary64) :
  (k < m)%nat ->
  bodyAccel !! k = Some a -> bodyAcceld !! k = Some d ->
  normalizer (M := ieee_machine) a = S754_zero false ->
  is_finite (for_range 0 m (L2norm_body (M := ieee_machine) bodyAccel bodyAcceld numParticles)
               acc) = false.
Proof.
  intros Hk Ea Ed Hnorm. induction m as [|m IH]; [lia|].
  rewrite for_range_0_S.
  destruct (Nat.eq_dec k m) as [->|Hne].
  - unfold L2norm_body at 1.
    change (@float ieee_machine) with binary32 in *. rewrite Ea, Ed, Hnorm.
    apply SFadd_not_finite_r, SFdiv_not_finite_l, SFdiv_by_zero_not_finite.
  - apply L2norm_body_not_finite, IH. lia.
Qed.

(** C2 (amended). The harness has no special case for a reference
    acceleration of zero magnitude: as soon as one body in range has a
    reference acceleration that is exactly zero, its term divides by zero
    (giving an infinity, or a NaN when the approximate result agrees), and
    the error computed for the iteration is not finite, whatever the
    approximate result and the other bodies are. *)
Theorem L2norm_zero_reference_not_finite
    (bodyAccel bodyAcceld : list (vec3 binary32)) (numParticles : Z) (k : nat)
    (a d : vec3 binary32) :
  (k < Z.to_nat numParticles)%nat ->
  bodyAccel !! k = Some a -> bodyAcceld !! k = Some d ->
  is_zero (Vec3.x a) = true -> is_zero (Vec3.y a) = true -> is_zero (Vec3.z a) = true ->
  is_finite (L2norm (M := ieee_machine) bodyAccel bodyAcceld numParticles) = false.
Proof.
  intros Hk Ea Ed Hx Hy Hz. unfold L2norm.
  apply SFsqrt_not_finite.
  eapply L2norm_loop_not_finite; eauto using normalizer_zero.
Qed.

(** *** Rounding a positive mantissa never gives a zero or a NaN *)

Lemma digits2_pos_lower (m : positive) : (2 ^ (Zpos (digits2_pos m) - 1) <= Zpos m)%Z.
Proof.
  induction m as [m IH|m IH|]; simpl digits2_pos.
  - rewrite Pos2Z.inj_succ, (Pos2Z.inj_xI m).
    replace (Z.succ (Zpos (digits2_pos m)) - 1)%Z
      with (Z.succ (Zpos (digits2_pos m) - 1)) by lia.
    rewrite Z.pow_succ_r by lia. lia.
  - rewrite Pos2Z.inj_succ, (Pos2Z.inj_xO m).
    replace (Z.succ (Zpos (digits2_pos m)) - 1)%Z
      with (Z.succ (Zpos (digits2_pos m) - 1)) by lia.
    rewrite Z.pow_succ_r by lia. lia.
  - simpl. lia.
Qed.

Lemma iter_pos_nat {A : Type} (f : A -> A) (p : positive) (a : A) :
  SpecFloat.iter_pos f p a = Nat.iter (Pos.to_nat p) f a.
Proof.
  revert a. induction p as [p IH|p IH|]; intros a; simpl SpecFloat.iter_pos.
  - rewrite !IH, Pos2Nat.inj_xI.
    replace (S (2 * Pos.to_nat p)) with (S (Pos.to_nat p + Pos.to_nat p)) by lia.
    by rewrite Nat.iter_succ_r, Nat.iter_add.
  - rewrite !IH, Pos2Nat.inj_xO.
    replace (2 * Pos.to_nat p)%nat with (Pos.to_nat p + Pos.to_nat p)%nat by lia.
    by rewrite Nat.iter_add.
  - reflexivity.
Qed.

Lemma shr_m_shr_1 (mrs : shr_record) :
  (0 <= shr_m mrs)%Z -> shr_m (shr_1 mrs) = Z.div2 (shr_m mrs).
Proof.
  destruct mrs as [m r s]. simpl. intros Hm.
  destruct m as [|[p|p|]|p]; try reflexivity. lia.
Qed.

Lemma shr_m_iter (k : nat) (mrs : shr_record) :
  (0 <= shr_m mrs)%Z ->
  shr_m (Nat.iter k shr_1 mrs) = Z.shiftr (shr_m mrs) (Z.of_nat k).
Proof.
  intros Hm. induction k as [|k IH].
  - simpl. by rewrite Z.shiftr_0_r.
  - simpl Nat.iter. rewrite shr_m_shr_1.
    + rewrite IH, Z.div2_spec, Z.shiftr_shiftr by lia. f_equal. lia.
    + rewrite IH. by apply Z.shiftr_nonneg.
Qed.

Lemma shr_m_of_loc (m : Z) (l : location) : shr_m (shr_record_of_loc m l) = m.
Proof. destruct l as [|[]]; reflexivity. Qed.

Lemma shr_fexp_positive prec emax (m : positive) (e : Z) (l : location) :
  (0 < prec)%Z -> (emin prec emax <= e)%Z ->
  (exists m', shr_m (fst (shr_fexp prec emax (Zpos m) e l)) = Zpos m') /\
  (emin prec emax <= snd (shr_fexp prec emax (Zpos m) e l))%Z.
Proof.
  intros Hprec He. unfold shr_fexp, shr.
  pose proof (digits2_pos_lower m) as Hdig.
  remember (fexp prec emax (Zdigits2 (Zpos m) + e) - e)%Z as n eqn:Hn.
  unfold fexp in Hn. simpl Zdigits2 in Hn.
  destruct n as [|p|p]; simpl fst; simpl snd.
  - rewrite shr_m_of_loc. eauto.
  - rewrite iter_pos_nat, shr_m_iter by (rewrite shr_m_of_loc; lia).
    rewrite shr_m_of_loc, positive_nat_Z. split; [|lia].
    assert (Hle : (2 ^ Zpos p <= Zpos m)%Z).
    { eapply Z.le_trans; [|exact Hdig]. apply Z.pow_le_mono_r; lia. }
    assert (Hpos : (0 < Z.shiftr (Zpos m) (Zpos p))%Z).
    { rewrite Z.shiftr_div_pow2 by lia. apply Z.div_str_pos. lia. }
    destruct (Z.shiftr (Zpos m) (Zpos p)) as [|q|q]; try lia. eauto.
  - rewrite shr_m_of_loc. eauto.
Qed.

Lemma round_nearest_even_positive (m : positive) (l : location) :
  exists m', round_nearest_even (Zpos m) l = Zpos m'.
Proof.
  destruct l as [|[]]; unfold round_nearest_even;
    try destruct (Z.even (Zpos m)); eexists; reflexivity.
Qed.

Lemma binary_round_aux_positive prec emax (s : bool) (m : positive) (e : Z) (l : location) :
  (0 < prec)%Z -> (emin prec emax <= e)%Z ->
  is_zero (binary_round_aux prec emax s (Zpos m) e l) = false /\
  is_nan (binary_round_aux prec emax s (Zpos m) e l) = false.
Proof.
  intros Hprec He. unfold binary_round_aux.
  destruct (shr_fexp_positive prec emax m e l Hprec He) as [[m1 H1] He1].
  destruct (shr_fexp prec emax (Zpos m) e l) as [mrs1 e1]. simpl in H1, He1.
  rewrite H1.
  destruct (round_nearest_even_positive m1 (loc_of_shr_record mrs1)) as [m2 H2].
  rewrite H2.
  destruct (shr_fexp_positive prec emax m2 e1 loc_Exact Hprec He1) as [[m3 H3] _].
  destruct (shr_fexp prec emax (Zpos m2) e1 loc_Exact) as [mrs2 e2]. simpl in H3.
  rewrite H3. destruct (Z.leb e2 (emax - prec)); done.
Qed.

(** The conversion of a positive integer to [double] is neither a zero
    nor a NaN. *)
Lemma lit_positive_integer (p : positive) :
  is_zero (lit 53 1024 (Zpos p) 1) = false /\ is_nan (lit 53 1024 (Zpos p) 1) = false.
Proof.
  unfold lit, SFdiv, SFdiv_core_binary. cbv zeta.
  set (e' := Z.min _ _).
  assert (He' : (emin 53 1024 <= e' <= 0)%Z).
  { unfold e', fexp, emin. lia. }
  set (m' := match (0 - 0 - e')%Z with
             | Zpos _ => Z.shiftl (Zpos p) (0 - 0 - e')
             | Z0 => Zpos p
             | Zneg _ => 0%Z
             end).
  assert (Hm' : (0 < m')%Z).
  { unfold m'. destruct (0 - 0 - e')%Z as [|q|q] eqn:Hs; try lia.
    rewrite Z.shiftl_mul_pow2 by lia.
    apply Z.mul_pos_pos; [lia|]. apply Z.pow_pos_nonneg; lia. }
  assert (Hq : Z.div_eucl m' 1 = (m', 0%Z)).
  { pose proof (Z.div_1_r m') as Hd. pose proof (Z.mod_1_r m') as Hr.
    unfold Z.div, Z.modulo in Hd, Hr.
    destruct (Z.div_eucl m' 1) as [q r]. by subst. }
  rewrite Hq. destruct m' as [|q|q]; try lia.
  apply binary_round_aux_positive; lia.
Qed.

(** *** The divisor of the evaluator is never zero *)

Lemma shr_fexp_exponent prec emax (m e : Z) (l : location) :
  (emin prec emax <= snd (shr_fexp prec emax m e l))%Z.
Proof.
  unfold shr_fexp, shr, fexp.
  destruct (Z.max (Zdigits2 m + e - prec) (emin prec emax) - e)%Z eqn:Hn;
    simpl snd; lia.
Qed.

(** Whatever is rounded, with the sign bit clear, the result is in the
    class [is_nonneg]. *)
Lemma binary_round_aux_nonneg prec emax (m e : Z) (l : location) :
  is_nonneg prec emax (binary_round_aux prec emax false m e l) = true.
Proof.
  unfold binary_round_aux.
  destruct (shr_fexp prec emax m e l) as [mrs1 e1].
  pose proof (shr_fexp_exponent prec emax
                (round_nearest_even (shr_m mrs1) (loc_of_shr_record mrs1)) e1 loc_Exact)
    as He2.
  destruct (shr_fexp prec emax _ e1 loc_Exact) as [mrs2 e2]. simpl in He2.
  destruct (shr_m mrs2); try reflexivity.
  destruct (Z.leb e2 (emax - prec)); [|reflexivity].
  simpl. by apply Z.leb_le.
Qed.

Lemma binary_round_positive prec emax (m : positive) (e : Z) :
  (emin prec emax <= e)%Z -> (0 < prec)%Z ->
  is_positive prec emax (binary_round prec emax false m e) = true.
Proof.
  intros He Hprec. unfold binary_round.
  assert (Hez : (emin prec emax <=
                 snd (shl_align m e (fexp prec emax (Zpos (digits2_pos m) + e))))%Z).
  { unfold shl_align, fexp.
    destruct (Z.max (Zpos (digits2_pos m) + e - prec) (emin prec emax) - e)%Z eqn:Hn;
      simpl snd; lia. }
  destruct (shl_align m e _) as [mz ez]. simpl in Hez.
  unfold is_positive.
  rewrite binary_round_aux_nonneg.
  destruct (binary_round_aux_positive prec emax false mz ez loc_Exact Hprec Hez) as [Hz _].
  by rewrite Hz.
Qed.

Lemma SFmul_diag_nonneg prec emax (v : spec_float) :
  is_nonneg prec emax (SFmul prec emax v v) = true.
Proof.
  destruct v as [[]|[]| |[] m e]; try reflexivity; apply binary_round_aux_nonneg.
Qed.

Lemma SFadd_nonneg prec emax (u v : spec_float) :
  (0 < prec)%Z ->
  is_nonneg prec emax u = true -> is_nonneg prec emax v = true ->
  is_nonneg prec emax (SFadd prec emax u v) = true.
Proof.
  intros Hprec Hu Hv.
  destruct u as [[]|[]| |[] mu eu]; try discriminate;
    destruct v as [[]|[]| |[] mv ev]; try discriminate; try reflexivity; try assumption.
  simpl in Hu, Hv. apply Z.leb_le in Hu, Hv.
  unfold SFadd, cond_Zopp, binary_normalize.
  change (Zpos ?a + Zpos ?b)%Z with (Zpos (a + b)).
  assert (Hpos : is_positive prec emax
                   (binary_round prec emax false
                      (fst (shl_align mu eu (Z.min eu ev)) + fst (shl_align mv ev (Z.min eu ev)))
                      (Z.min eu ev)) = true)
    by (apply binary_round_positive; lia).
  unfold is_positive in Hpos. by apply andb_prop in Hpos as [Hpos _].
Qed.

(** Adding a positive constant to a value of the class [is_nonneg] never
    gives a zero. *)
Lemma SFadd_positive prec emax (u : spec_float) (mc : positive) (ec : Z) :
  (0 < prec)%Z -> (emin prec emax <= ec)%Z ->
  is_nonneg prec emax u = true ->
  is_positive prec emax (SFadd prec emax u (S754_finite false mc ec)) = true.
Proof.
  intros Hprec Hec Hu.
  destruct u as [[]|[]| |[] mu eu]; try discriminate; try reflexivity.
  - unfold is_positive. simpl. rewrite andb_true_r. by apply Z.leb_le.
  - simpl in Hu. apply Z.leb_le in Hu.
    unfold SFadd, cond_Zopp, binary_normalize.
    change (Zpos ?a + Zpos ?b)%Z with (Zpos (a + b)).
    apply binary_round_positive; lia.
Qed.

Lemma SFsqrt_positive prec emax (v : spec_float) :
  (0 < prec)%Z -> (emin prec emax <= 0)%Z ->
  is_positive prec emax v = true ->
  is_zero (SFsqrt prec emax v) = false.
Proof.
  intros Hprec Hemin Hv.
  destruct v as [[]|[]| |[] m e]; try discriminate; try reflexivity.
  unfold is_positive in Hv. simpl in Hv. rewrite andb_true_r in Hv. apply Z.leb_le in Hv.
  unfold SFsqrt, SFsqrt_core_binary. cbv zeta.
  set (e' := Z.min _ (Z.div2 e)).
  assert (He' : (emin prec emax <= e' /\ 2 * e' <= e)%Z).
  { unfold e', fexp. rewrite Z.div2_div.
    pose proof (Z.mul_div_le e 2 ltac:(lia)).
    assert (emin prec emax <= e / 2)%Z by (apply Z.div_le_lower_bound; lia).
    lia. }
  set (m' := match (e - 2 * e')%Z with
             | Zpos _ => Z.shiftl (Zpos m) (e - 2 * e')
             | Z0 => Zpos m
             | Zneg _ => 0%Z
             end).
  assert (Hm' : (0 < m')%Z).
  { unfold m'. destruct (e - 2 * e')%Z as [|q|q] eqn:Hs; try lia.
    rewrite Z.shiftl_mul_pow2 by lia.
    apply Z.mul_pos_pos; [lia|]. apply Z.pow_pos_nonneg; lia. }
  pose proof (Z.sqrtrem_sqrt m') as Hq.
  pose proof (proj2 (Z.sqrt_pos m') Hm') as Hsqrt.
  destruct (Z.sqrtrem m') as [q r]. simpl in Hq. subst q.
  destruct (Z.sqrt m') as [|q|q]; try lia.
  apply binary_round_aux_positive; lia.
Qed.

Lemma round_double_positive (v : spec_float) :
  is_positive 24 128 v = true -> is_positive 53 1024 (round 53 1024 v) = true.
Proof.
  destruct v as [[]|[]| |[] m e]; try discriminate; intros Hv; try reflexivity.
  unfold is_positive in Hv. simpl in Hv. rewrite andb_true_r in Hv. apply Z.leb_le in Hv.
  unfold round, cond_Zopp, binary_normalize.
  apply binary_round_positive; [|lia]. unfold emin in *. lia.
Qed.

Lemma distSqr_positive (bi bj : vec4 binary32) :
  is_positive 24 128 (distSqr (M := ieee_machine) bi bj) = true.
Proof.
  unfold distSqr.
  cbn [fadd fsub fmul float_ops ieee_machine ieee_ops].
  change (SFmul 24 128 (softening (M := ieee_machine)) (softening (M := ieee_machine)))
    with (S754_finite false 10737419 (-30)).
  apply SFadd_positive; [lia|unfold emin; lia|].
  repeat apply SFadd_nonneg; try lia; apply SFmul_diag_nonneg.
Qed.

(** In IEEE arithmetic, whatever the two bodies are, the radicand
    [distSqr], promoted to [double], is not negative, and the value
    [sqrt(distSqr)] the evaluator divides by is not a zero. *)
Lemma radicand_not_negative (bi bj : vec4 binary32) (m : positive) (e : Z) :
  to_double (distSqr (M := ieee_machine) bi bj) <> S754_finite true m e.
Proof.
  pose proof (round_double_positive _ (distSqr_positive bi bj)) as H.
  cbn [to_double ieee_machine]. intros E. rewrite E in H. discriminate.
Qed.

Lemma divisor_not_zero (bi bj : vec4 binary32) :
  is_zero (fsqrt (to_double (distSqr (M := ieee_machine) bi bj))) = false.
Proof.
  cbn [fsqrt to_double double_ops ieee_machine ieee_ops].
  apply SFsqrt_positive; [lia|unfold emin; lia|].
  apply round_double_positive, distSqr_positive.
Qed.

(** *** Identical arrays *)

Lemma SFsub_diag_finite prec emax (v : spec_float) :
  is_finite v = true -> SFsub prec emax v v = S754_zero false.
Proof.
  destruct v as [s| | |s m e]; try discriminate; intros _.
  - destruct s; reflexivity.
  - unfold SFsub. rewrite Z.sub_diag. reflexivity.
Qed.

Lemma difference_same (a : vec3 binary32) :
  is_finite (Vec3.x a) = true -> is_finite (Vec3.y a) = true ->
  is_finite (Vec3.z a) = true ->
  difference (M := ieee_machine) a a = S754_zero false.
Proof.
  intros Hx Hy Hz. unfold difference. simpl.
  by rewrite !SFsub_diag_finite.
Qed.

Lemma SFdiv_zero_l prec emax (s : bool) (u : spec_float) :
  is_zero u = false -> is_nan u = false ->
  is_zero (SFdiv prec emax (S754_zero s) u) = true.
Proof. destruct u; try discriminate; reflexivity. Qed.

Lemma SFadd_zero_r prec emax (u : spec_float) :
  is_zero u = true -> SFadd prec emax (S754_zero false) u = S754_zero false.
Proof. destruct u as [[]| | |]; try discriminate; reflexivity. Qed.

Lemma is_zero_inv (u : spec_float) : is_zero u = true -> exists s, u = S754_zero s.
Proof. destruct u; try discriminate; eauto. Qed.

(** C6 (amended). For [N >= 1], when the approximate and the reference
    arrays are identical, every component is finite and every body's
    reference squared magnitude, as the harness computes it, is a nonzero
    number, the error computed for the iteration is exactly +0. *)
Theorem L2norm_identical_arrays
    (bodyAccel bodyAcceld : list (vec3 binary32)) (numParticles : Z) :
  (1 <= numParticles)%Z ->
  (forall i, (i < Z.to_nat numParticles)%nat ->
     exists a : vec3 binary32, bodyAccel !! i = Some a /\ bodyAcceld !! i = Some a /\
       is_finite (Vec3.x a) = true /\ is_finite (Vec3.y a) = true /\
       is_finite (Vec3.z a) = true /\
       is_zero (normalizer (M := ieee_machine) a) = false /\
       is_nan (normalizer (M := ieee_machine) a) = false) ->
  L2norm (M := ieee_machine) bodyAccel bodyAcceld numParticles = S754_zero false.
Proof.
  intros HN Hsame. unfold L2norm.
  assert (Hloop : for_range 0 (Z.to_nat numParticles)
                    (L2norm_body (M := ieee_machine) bodyAccel bodyAcceld numParticles)
                    (flit 0 1) = S754_zero false).
  { generalize (Z.to_nat numParticles), Hsame. intros n Hn.
    induction n as [|n IH]; [reflexivity|].
    rewrite for_range_0_S, IH by (intros i Hi; apply Hn; lia).
    destruct (Hn n ltac:(lia)) as (a & Ea & Ed & Hx & Hy & Hz & Hnz & Hnn).
    unfold L2norm_body.
    change (@float ieee_machine) with spec_float in *. unfold binary32 in *.
    rewrite Ea, Ed.
    rewrite difference_same by assumption.
    cbn [fadd fdiv flit double_ops ieee_machine ieee_ops].
    destruct (is_zero_inv _ (SFdiv_zero_l 53 1024 false _ Hnz Hnn)) as [s Hs].
    rewrite Hs.
    destruct numParticles as [|p|p]; try lia.
    destruct (lit_positive_integer p) as [Hpz Hpn].
    apply SFadd_zero_r, SFdiv_zero_l; assumption. }
  rewrite Hloop. reflexivity.
Qed.

Lemma SFleb_lower_refl (a b : spec_float) : SFleb a b = true -> SFleb a a = true.
Proof.
  destruct a as [s|s| |s m e]; intros H.
  - reflexivity.
  - destruct s; reflexivity.
  - discriminate.
  - unfold SFleb, SFcompare.
    rewrite Z.compare_refl, Pos.compare_cont_refl. destruct s; reflexivity.
Qed.

End IEEEArithmetic.

(** ** The overflow flag: what the softening term guarantees *)

Section OverflowFlag.
Import IEEE Flagged.

Lemma shr_fexp_nonneg prec emax (m e : Z) (l : location) :
  (0 <= m)%Z -> (0 <= shr_m (fst (shr_fexp prec emax m e l)))%Z.
Proof.
  intros Hm. unfold shr_fexp, shr.
  destruct (fexp prec emax (Zdigits2 m + e) - e)%Z as [|p|p]; simpl fst;
    try (rewrite shr_m_of_loc; exact Hm).
  rewrite iter_pos_nat, shr_m_iter by (rewrite shr_m_of_loc; exact Hm).
  rewrite shr_m_of_loc. apply Z.shiftr_nonneg. exact Hm.
Qed.

Lemma round_nearest_even_nonneg (m : Z) (l : location) :
  (0 <= m)%Z -> (0 <= round_nearest_even m l)%Z.
Proof.
  intros Hm. destruct l as [|[]]; unfold round_nearest_even;
    try destruct (Z.even m); lia.
Qed.

Lemma binary_round_aux_not_nan prec emax (s : bool) (m e : Z) (l : location) :
  (0 <= m)%Z -> is_nan (binary_round_aux prec emax s m e l) = false.
Proof.
  intros Hm. unfold binary_round_aux.
  pose proof (shr_fexp_nonneg prec emax m e l Hm) as H1.
  destruct (shr_fexp prec emax m e l) as [mrs1 e1]. simpl in H1.
  pose proof (shr_fexp_nonneg prec emax
                (round_nearest_even (shr_m mrs1) (loc_of_shr_record mrs1)) e1 loc_Exact
                (round_nearest_even_nonneg _ _ H1)) as H2.
  destruct (shr_fexp prec emax _ e1 loc_Exact) as [mrs2 e2]. simpl in H2.
  destruct (shr_m mrs2) as [|q|q]; try reflexivity; [|lia].
  destruct (Z.leb e2 (emax - prec)); reflexivity.
Qed.

Lemma binary_normalize_not_nan prec emax (m e : Z) (sz : bool) :
  is_nan (binary_normalize prec emax m e sz) = false.
Proof.
  destruct m as [|q|q]; [reflexivity| |]; unfold binary_normalize, binary_round;
    destruct (shl_align q e _) as [mz ez]; apply binary_round_aux_not_nan; lia.
Qed.

Lemma SFadd_not_nan prec emax (a b : spec_float) :
  is_finite a = true -> is_finite b = true -> is_nan (SFadd prec emax a b) = false.
Proof.
  destruct a as [[]| | |sa ma ea], b as [[]| | |sb mb eb]; try discriminate;
    intros _ _; try reflexivity.
  apply binary_normalize_not_nan.
Qed.

Lemma SFsub_not_nan prec emax (a b : spec_float) :
  is_finite a = true -> is_finite b = true -> is_nan (SFsub prec emax a b) = false.
Proof.
  destruct a as [[]| | |sa ma ea], b as [[]| | |sb mb eb]; try discriminate;
    intros _ _; try reflexivity.
  apply binary_normalize_not_nan.
Qed.

Lemma SFmul_not_nan prec emax (a b : spec_float) :
  is_finite a = true -> is_finite b = true -> is_nan (SFmul prec emax a b) = false.
Proof.
  destruct a as [[]| | |sa ma ea], b as [[]| | |sb mb eb]; try discriminate;
    intros _ _; try reflexivity.
  apply binary_round_aux_not_nan. lia.
Qed.

Lemma SFdiv_not_nan prec emax (a b : spec_float) :
  is_finite a = true -> is_finite b = true -> is_zero b = false ->
  is_nan (SFdiv prec emax a b) = false.
Proof.
  destruct a as [[]| | |sa ma ea], b as [[]| | |sb mb eb]; try discriminate;
    intros _ _ _; try reflexivity.
  unfold SFdiv, SFdiv_core_binary. cbv zeta.
  set (m' := match _ with Zpos _ => _ | Z0 => _ | Zneg _ => _ end).
  assert (Hm' : (0 <= m')%Z).
  { unfold m'. destruct (_ - _ - _)%Z as [|q|q]; try lia.
    apply Z.shiftl_nonneg. lia. }
  pose proof (Z.div_pos m' (Zpos mb) Hm' ltac:(lia)) as Hq.
  unfold Z.div in Hq. destruct (Z.div_eucl m' (Zpos mb)) as [q r].
  by apply binary_round_aux_not_nan.
Qed.

Lemma SFsqrt_not_nan prec emax (a : spec_float) :
  is_finite a = true -> (forall m e, a <> S754_finite true m e) ->
  is_nan (SFsqrt prec emax a) = false.
Proof.
  destruct a as [[]| | |[] ma ea]; try discriminate; intros _ Hneg; try reflexivity.
  - by destruct (Hneg ma ea).
  - unfold SFsqrt, SFsqrt_core_binary. cbv zeta.
    set (m' := match _ with Zpos _ => _ | Z0 => _ | Zneg _ => _ end).
    pose proof (Z.sqrtrem_sqrt m') as Hq. pose proof (Z.sqrt_nonneg m') as Hs.
    destruct (Z.sqrtrem m') as [q r]. simpl in Hq. subst q.
    by apply binary_round_aux_not_nan.
Qed.

Lemma round_not_nan prec emax (a : spec_float) :
  is_finite a = true -> is_nan (round prec emax a) = false.
Proof.
  destruct a as [[]| | |sa ma ea]; try discriminate; intros _; try reflexivity.
  apply binary_normalize_not_nan.
Qed.

Lemma is_finite_classes (v : spec_float) :
  is_nan v = false -> is_infinity v = false -> is_finite v = true.
Proof. destruct v; try discriminate; reflexivity. Qed.

Lemma good_exact (v : spec_float) : is_finite v = true -> good (exact v).
Proof. intros Hv _. exact Hv. Qed.

Lemma good_op2 (f : spec_float -> spec_float -> spec_float) (a b : t) :
  (forall u v, is_finite u = true -> is_finite v = true -> is_nan (f u v) = false) ->
  good a -> good b -> good (op2 f a b).
Proof.
  intros Hf Ha Hb. unfold good, op2. cbn [val overflow]. intros Ho.
  apply orb_false_elim in Ho as [Ho Hi]. apply orb_false_elim in Ho as [Hoa Hob].
  specialize (Ha Hoa). specialize (Hb Hob). rewrite Ha, Hb in Hi. simpl in Hi.
  apply is_finite_classes; [by apply Hf|exact Hi].
Qed.

Lemma good_op1 (f : spec_float -> spec_float) (a : t) :
  (is_finite (val a) = true -> is_nan (f (val a)) = false) ->
  good a -> good (op1 f a).
Proof.
  intros Hf Ha. unfold good, op1. cbn [val overflow]. intros Ho.
  apply orb_false_elim in Ho as [Hoa Hi].
  specialize (Ha Hoa). rewrite Ha in Hi. simpl in Hi.
  apply is_finite_classes; [by apply Hf|exact Hi].
Qed.

Lemma good_div prec emax (a b : t) :
  is_zero (val b) = false -> good a -> good b -> good (div prec emax a b).
Proof.
  intros Hz Ha Hb. unfold good, div. cbn [val overflow]. intros Ho.
  apply orb_false_elim in Ho as [Ho Hi]. apply orb_false_elim in Ho as [Hoa Hob].
  specialize (Ha Hoa). specialize (Hb Hob). rewrite Ha, Hb, Hz in Hi. simpl in Hi.
  apply is_finite_classes; [by apply SFdiv_not_nan|exact Hi].
Qed.


Lemma val_distSqr (bi bj : vec4 binary32) :
  val (distSqr (M := flagged_machine) (inject4 bi) (inject4 bj)) =
  distSqr (M := ieee_machine) bi bj.
Proof.
  unfold distSqr, softening.
  cbn [fadd fsub fmul flit float_ops flagged_machine ieee_machine flagged_ops ieee_ops
       op2 val inject4 exact Vec4.x Vec4.y Vec4.z].
  reflexivity.
Qed.

Lemma val_accumulate (bi bj : vec4 binary32) (a : vec3 t) :
  val3 (accumulate (M := flagged_machine) (inject4 bi) (inject4 bj) a) =
  accumulate (M := ieee_machine) bi bj (val3 a).
Proof.
  unfold accumulate, pair_scale, distSqr, softening, val3.
  cbn [fadd fsub fmul fdiv fsqrt flit float_ops double_ops to_float to_double
       flagged_machine ieee_machine flagged_ops ieee_ops
       op1 op2 div val inject4 exact Vec4.x Vec4.y Vec4.z Vec4.w Vec3.x Vec3.y Vec3.z].
  reflexivity.
Qed.

Ltac good_ops :=
  repeat first
    [ apply (good_op2 (SFadd 24 128)); [exact (SFadd_not_nan 24 128)| |]
    | apply (good_op2 (SFsub 24 128)); [exact (SFsub_not_nan 24 128)| |]
    | apply (good_op2 (SFmul 24 128)); [exact (SFmul_not_nan 24 128)| |]
    | assumption
    | apply good_exact; assumption
    | apply good_exact; vm_compute; reflexivity ].

Lemma good_distSqr (bi bj : vec4 binary32) :
  is_finite (Vec4.x bi) = true -> is_finite (Vec4.y bi) = true ->
  is_finite (Vec4.z bi) = true ->
  is_finite (Vec4.x bj) = true -> is_finite (Vec4.y bj) = true ->
  is_finite (Vec4.z bj) = true ->
  good (distSqr (M := flagged_machine) (inject4 bi) (inject4 bj)).
Proof.
  intros Hxi Hyi Hzi Hxj Hyj Hzj. unfold distSqr, softening.
  cbn [fadd fsub fmul flit float_ops flagged_machine flagged_ops inject4
       Vec4.x Vec4.y Vec4.z].
  good_ops.
Qed.

Lemma good_pair_scale (bi bj : vec4 binary32) :
  is_finite (Vec4.x bi) = true -> is_finite (Vec4.y bi) = true ->
  is_finite (Vec4.z bi) = true ->
  is_finite (Vec4.x bj) = true -> is_finite (Vec4.y bj) = true ->
  is_finite (Vec4.z bj) = true -> is_finite (Vec4.w bj) = true ->
  good (pair_scale (M := flagged_machine) (inject4 bi) (inject4 bj)).
Proof.
  intros Hxi Hyi Hzi Hxj Hyj Hzj Hwj.
  pose proof (good_distSqr bi bj Hxi Hyi Hzi Hxj Hyj Hzj) as Hd.
  pose proof (val_distSqr bi bj) as Hv.
  pose proof (radicand_not_negative bi bj) as Hneg.
  pose proof (divisor_not_zero bi bj) as Hnz.
  unfold pair_scale.
  revert Hd Hv. generalize (distSqr (M := flagged_machine) (inject4 bi) (inject4 bj)) as d.
  intros d Hd Hv.
  cbn [fmul fdiv fsqrt flit float_ops double_ops to_float to_double
       flagged_machine flagged_ops inject4 Vec4.w].
  assert (Hinv : good (op1 (round 24 128)
                         (div 53 1024 (exact (lit 53 1024 1 1))
                            (op1 (SFsqrt 53 1024) (op1 (round 53 1024) d))))).
  { apply good_op1; [intros Hf; by apply round_not_nan|].
    apply good_div.
    - cbn [val op1]. rewrite Hv. exact Hnz.
    - apply good_exact. reflexivity.
    - apply good_op1.
      + intros Hf. apply SFsqrt_not_nan; [exact Hf|].
        cbn [val op1]. rewrite Hv. exact Hneg.
      + apply good_op1; [intros Hf; by apply round_not_nan|exact Hd]. }
  revert Hinv.
  generalize (op1 (round 24 128)
                (div 53 1024 (exact (lit 53 1024 1 1))
                   (op1 (SFsqrt 53 1024) (op1 (round 53 1024) d)))) as inv.
  intros inv Hinv. good_ops.
Qed.

Lemma good_accumulate (bi bj : vec4 binary32) (a : vec3 t) :
  is_finite (Vec4.x bi) = true -> is_finite (Vec4.y bi) = true ->
  is_finite (Vec4.z bi) = true ->
  is_finite (Vec4.x bj) = true -> is_finite (Vec4.y bj) = true ->
  is_finite (Vec4.z bj) = true -> is_finite (Vec4.w bj) = true ->
  good3 a ->
  good3 (accumulate (M := flagged_machine) (inject4 bi) (inject4 bj) a).
Proof.
  intros Hxi Hyi Hzi Hxj Hyj Hzj Hwj (Hax & Hay & Haz).
  pose proof (good_pair_scale bi bj Hxi Hyi Hzi Hxj Hyj Hzj Hwj) as Hs.
  unfold accumulate, good3. revert Hs.
  generalize (pair_scale (M := flagged_machine) (inject4 bi) (inject4 bj)) as s.
  intros s Hs.
  cbn [fadd fsub fmul float_ops flagged_machine flagged_ops inject4
       Vec4.x Vec4.y Vec4.z Vec3.x Vec3.y Vec3.z].
  split; [|split]; good_ops.
Qed.

Lemma val_zero3 : val3 (zero3 (M := flagged_machine)) = zero3 (M := ieee_machine).
Proof. reflexivity. Qed.

Lemma good_zero3 : good3 (zero3 (M := flagged_machine)).
Proof. unfold good3. split; [|split]; intros _; reflexivity. Qed.

Lemma row_val (bodyPos : list (vec4 binary32)) (i m : nat) (a : vec3 t) :
  val3 (row (M := flagged_machine) (inject4 <$> bodyPos) i m a) =
  row (M := ieee_machine) bodyPos i m (val3 a).
Proof.
  unfold row.
  change (@float flagged_machine) with t. change (@float ieee_machine) with spec_float.
  unfold binary32 in *. rewrite list_lookup_fmap.
  destruct (bodyPos !! i) as [bi|]; cbn [fmap option_fmap option_map].
  - induction m as [|m IH]; [reflexivity|].
    rewrite !for_range_0_S, <- IH. rewrite list_lookup_fmap.
    destruct (Nat.eqb i m); [reflexivity|].
    destruct (bodyPos !! m) as [bj|]; cbn [fmap option_fmap option_map]; [|reflexivity].
    apply val_accumulate.
  - induction m as [|m IH]; [reflexivity|].
    rewrite !for_range_0_S, <- IH. destruct (Nat.eqb i m); reflexivity.
Qed.

Lemma row_good (bodyPos : list (vec4 binary32)) (i m : nat) (a : vec3 t) :
  (forall j b, (j = i \/ j < m)%nat -> bodyPos !! j = Some b ->
     is_finite (Vec4.x b) = true /\ is_finite (Vec4.y b) = true /\
     is_finite (Vec4.z b) = true /\ is_finite (Vec4.w b) = true) ->
  good3 a ->
  good3 (row (M := flagged_machine) (inject4 <$> bodyPos) i m a).
Proof.
  intros Hfin Ha. unfold row.
  change (@float flagged_machine) with t. unfold binary32 in *. rewrite list_lookup_fmap.
  destruct (bodyPos !! i) as [bi|] eqn:Ei; cbn [fmap option_fmap option_map].
  - destruct (Hfin i bi ltac:(lia) Ei) as (Hxi & Hyi & Hzi & _).
    induction m as [|m IH]; [exact Ha|].
    rewrite for_range_0_S. rewrite list_lookup_fmap.
    assert (IH' := IH ltac:(intros j b Hj; apply Hfin; lia)). clear IH.
    destruct (Nat.eqb i m); [exact IH'|].
    destruct (bodyPos !! m) as [bj|] eqn:Ej; cbn [fmap option_fmap option_map];
      [|exact IH'].
    destruct (Hfin m bj ltac:(lia) Ej) as (Hxj & Hyj & Hzj & Hwj).
    by apply good_accumulate.
  - induction m as [|m IH]; [exact Ha|].
    rewrite for_range_0_S.
    assert (IH' := IH ltac:(intros j b Hj; apply Hfin; lia)).
    destruct (Nat.eqb i m); exact IH'.
Qed.

(** C5 (amended). For every N and all finite positions and masses (a mass
    of zero included), the softening term keeps the evaluator from dividing
    by zero and from any other invalid operation: the divisor
    [sqrt(distSqr)] is never a zero, and every component of every
    acceleration computed in single precision is finite unless an operation
    of its evaluation has overflowed.  ([Flagged.flagged_machine] computes
    the values of [IEEE.ieee_machine] together with the overflow flag.) *)
Theorem accelerations_finite_unless_overflow
    (bodyPos : list (vec4 binary32)) (bodyAccel : list (vec3 binary32)) (n i : nat) :
  (n <= length bodyPos)%nat -> (n <= length bodyAccel)%nat -> (i < n)%nat ->
  (forall j b, (j < n)%nat -> bodyPos !! j = Some b ->
     is_finite (Vec4.x b) = true /\ is_finite (Vec4.y b) = true /\
     is_finite (Vec4.z b) = true /\ is_finite (Vec4.w b) = true) ->
  (forall bi bj : vec4 binary32,
     is_zero (fsqrt (to_double (distSqr (M := ieee_machine) bi bj))) = false) /\
  exists a : vec3 Flagged.t,
    calculateAccelerations (M := flagged_machine)
      (inject4 <$> bodyPos) (inject3 <$> bodyAccel) (Z.of_nat n) !! i = Some a /\
    calculateAccelerations (M := ieee_machine) bodyPos bodyAccel (Z.of_nat n) !! i =
      Some (val3 a) /\
    (overflow (Vec3.x a) = false -> is_finite (val (Vec3.x a)) = true) /\
    (overflow (Vec3.y a) = false -> is_finite (val (Vec3.y a)) = true) /\
    (overflow (Vec3.z a) = false -> is_finite (val (Vec3.z a)) = true).
Proof.
  intros Hp Ha Hi Hfin. split; [exact divisor_not_zero|].
  exists (row (M := flagged_machine) (inject4 <$> bodyPos) i n (zero3 (M := flagged_machine))).
  split; [|split].
  - apply (calculateAccelerations_lookup (M := flagged_machine)); [exact Hi|].
    by rewrite length_fmap.
  - rewrite row_val, val_zero3.
    by apply (calculateAccelerations_lookup (M := ieee_machine)).
  - apply (row_good bodyPos i n (zero3 (M := flagged_machine))); [|exact good_zero3].
    intros j b Hj. apply Hfin. lia.
Qed.

End OverflowFlag.

(** ** Softening in exact arithmetic *)

Section Softening.
Import Reference.
Local Open Scope R_scope.

(** In exact arithmetic [distSqr] is at least 0.1^2, so that, for
    non-negative masses (zero included), every component of every
    acceleration is bounded in magnitude by 100 times the total mass. *)
Lemma exact_acceleration_bound
    (bodyPos : list (vec4 R)) (bodyAccel : list (vec3 R)) (n i : nat) :
  (n <= length bodyPos)%nat -> (n <= length bodyAccel)%nat -> (i < n)%nat ->
  (forall j b, (j < n)%nat -> bodyPos !! j = Some b -> 0 <= Vec4.w b) ->
  (forall bi bj : vec4 R,
      (1 / 10) ^ 2 <= distSqr (M := Exact.exact_machine) bi bj /\
      0 < sqrt (distSqr (M := Exact.exact_machine) bi bj)) /\
  exists a : vec3 R,
    calculateAccelerations (M := Exact.exact_machine) bodyPos bodyAccel (Z.of_nat n) !! i =
      Some a /\
    Rabs (Vec3.x a) <= 100 * total_mass bodyPos n /\
    Rabs (Vec3.y a) <= 100 * total_mass bodyPos n /\
    Rabs (Vec3.z a) <= 100 * total_mass bodyPos n.
Proof.
  intros Hp Ha Hi Hmass. split.
  - intros bi bj. rewrite distSqr_exact.
    pose proof (softened_sqdist_lower bi bj).
    pose proof (softened_sqdist_pos bi bj).
    split; [assumption|by apply sqrt_lt_R0].
  - exists (pairwise_sum bodyPos n i).
    assert (Hw : forall j, (j < n)%nat -> 0 <= Vec4.w (body_at bodyPos j)).
    { intros j Hj. unfold body_at.
      destruct (lookup_lt_is_Some_2 bodyPos j ltac:(lia)) as [b Eb].
      rewrite Eb. simpl. by apply (Hmass j). }
    split; [by apply calculateAccelerations_exact|].
    unfold pairwise_sum. simpl.
    split; [|split]; apply pairwise_sum_coordinate_bound; try assumption.
    + apply coordinate_sq_le_x.
    + apply coordinate_sq_le_y.
    + apply coordinate_sq_le_z.
Qed.

End Softening.

(** The real values of the binary32 numbers 0 and 1. *)
Section RoundingCounterexample.
Import Reference.
Local Open Scope R_scope.

Lemma SF2R_f32_0 : SF2R (IEEE.f32 0) = 0.
Proof. reflexivity. Qed.

Lemma SF2R_f32_1 : SF2R (IEEE.f32 1) = 1.
Proof.
  change (IEEE.f32 1) with (S754_finite false 8388608 (-23)).
  unfold SF2R, cond_Zopp, powerRZ. simpl. lra.
Qed.

(** C1, counterexample: two bodies of mass 1 at (0, 0, 0) and (1, 0, 0),
    all inputs finite.  The pairwise sum for body 0 is 1 / 1.01^1.5 in the x
    coordinate, which no binary32 number equals; the evaluator returns
    16528667 * 2^-24. *)
Lemma pairwise_sum_counterexample :
  exists a : vec3 IEEE.binary32,
    calculateAccelerations (M := IEEE.ieee_machine)
      [Vec4.mk (IEEE.f32 0) (IEEE.f32 0) (IEEE.f32 0) (IEEE.f32 1);
       Vec4.mk (IEEE.f32 1) (IEEE.f32 0) (IEEE.f32 0) (IEEE.f32 1)]
      [Vec3.mk S754_nan S754_nan S754_nan; Vec3.mk S754_nan S754_nan S754_nan]
      2 !! 0%nat = Some a /\
    SF2R (Vec3.x a) <>
    Vec3.x (pairwise_sum
              (real_body <$>
                 [Vec4.mk (IEEE.f32 0) (IEEE.f32 0) (IEEE.f32 0) (IEEE.f32 1);
                  Vec4.mk (IEEE.f32 1) (IEEE.f32 0) (IEEE.f32 0) (IEEE.f32 1)]) 2 0).
Proof.
  exists (Vec3.mk (S754_finite false 16528667 (-24)) (S754_zero false) (S754_zero false)).
  split; [vm_compute; reflexivity|].
  cbn [fmap list_fmap]. unfold real_body. cbn [Vec4.x Vec4.y Vec4.z Vec4.w].
  rewrite SF2R_f32_0, SF2R_f32_1.
  unfold pairwise_sum. cbn [Vec3.x Rsum]. unfold pair_term, body_at.
  cbn [Nat.eqb lookup list_lookup default from_option id Vec4.x Vec4.w].
  unfold Datatypes.id. cbn [Vec4.x Vec4.w].
  assert (Hd : softened_sqdist (Vec4.mk 0 0 0 1) (Vec4.mk 1 0 0 1) = 101 / 100)
    by (unfold softened_sqdist; cbn [Vec4.x Vec4.y Vec4.z]; lra).
  rewrite Hd, Rpower_three_halves by lra.
  pose proof (sqrt_sqrt (101 / 100) ltac:(lra)) as Hs.
  pose proof (sqrt_lt_R0 (101 / 100) ltac:(lra)) as Hpos.
  revert Hs Hpos. generalize (sqrt (101 / 100)) as r. intros r Hs Hpos.
  unfold SF2R, cond_Zopp, powerRZ.
  set (q := IZR 16528667 * / 2 ^ Pos.to_nat 24).
  assert (Hq : q = 16528667 / 16777216) by (unfold q; simpl; lra).
  intros H.
  assert (H1 : q * (101 / 100 * r) = 1).
  { rewrite H. field. lra. }
  assert (H2 : (q * (101 / 100)) * (q * (101 / 100)) * (r * r) = 1).
  { replace (q * (101 / 100) * (q * (101 / 100)) * (r * r))
      with ((q * (101 / 100 * r)) * (q * (101 / 100 * r))) by ring.
    rewrite H1. ring. }
  rewrite Hs, Hq in H2. lra.
Qed.

End RoundingCounterexample.

(** C2, counterexample: two bodies, the first with an exactly zero reference
    acceleration and the approximate result (1, 0, 0); the error computed
    for the iteration is +infinity. *)
Lemma L2norm_zero_reference_counterexample :
  L2norm (M := IEEE.ieee_machine)
    [Vec3.mk (S754_zero false) (S754_zero false) (S754_zero false);
     Vec3.mk (S754_finite false 8388608 (-23)) (S754_zero false) (S754_zero false)]
    [Vec3.mk (S754_finite false 8388608 (-23)) (S754_zero false) (S754_zero false);
     Vec3.mk (S754_finite false 8388608 (-23)) (S754_zero false) (S754_zero false)]
    2
  = S754_infinity false.
Proof. vm_compute. reflexivity. Qed.

Lemma L2norm_zero_reference_not_finite_witness :
  IEEE.is_finite
    (L2norm (M := IEEE.ieee_machine)
       [Vec3.mk (S754_zero false) (S754_zero true) (S754_zero false);
        Vec3.mk (S754_finite false 8388608 (-23)) (S754_zero false) (S754_zero false)]
       [Vec3.mk (S754_finite false 8388608 (-23)) (S754_zero false) (S754_zero false);
        Vec3.mk (S754_finite false 8388608 (-23)) (S754_zero false) (S754_zero false)]
       2) = false.
Proof.
  apply (L2norm_zero_reference_not_finite _ _ 2 0%nat
           (Vec3.mk (S754_zero false) (S754_zero true) (S754_zero false))
           (Vec3.mk (S754_finite false 8388608 (-23)) (S754_zero false) (S754_zero false)));
    try reflexivity.
  vm_compute. lia.
Defined.

(** C5, counterexample: two bodies at the origin, each of mass [FLT_MAX]
    (finite positions, finite non-negative masses, N = 2).  The factor
    [mass * invDistCube] overflows to +infinity and its product with the zero
    displacement is a NaN in every component. *)
Lemma softening_counterexample :
  calculateAccelerations (M := IEEE.ieee_machine)
    [Vec4.mk (S754_zero false) (S754_zero false) (S754_zero false) IEEE.FLT_MAX;
     Vec4.mk (S754_zero false) (S754_zero false) (S754_zero false) IEEE.FLT_MAX]
    [Vec3.mk (S754_zero false) (S754_zero false) (S754_zero false);
     Vec3.mk (S754_zero false) (S754_zero false) (S754_zero false)]
    2 !! 0%nat
  = Some (Vec3.mk S754_nan S754_nan S754_nan).
Proof. vm_compute. reflexivity. Qed.

(** In that run the overflow flag of the result is raised. *)
Example softening_counterexample_overflow :
  (fun a => Flagged.overflow (Vec3.x a)) <$>
    calculateAccelerations (M := Flagged.flagged_machine)
      (Flagged.inject4 <$>
         [Vec4.mk (S754_zero false) (S754_zero false) (S754_zero false) IEEE.FLT_MAX;
          Vec4.mk (S754_zero false) (S754_zero false) (S754_zero false) IEEE.FLT_MAX])
      (Flagged.inject3 <$>
         [Vec3.mk (S754_zero false) (S754_zero false) (S754_zero false);
          Vec3.mk (S754_zero false) (S754_zero false) (S754_zero false)])
      2 !! 0%nat
  = Some true.
Proof. vm_compute. reflexivity. Qed.

(** A run in which no operation overflows: the three flags of the result
    are clear and its components are finite. *)
Example no_overflow_example :
  (fun a => (Flagged.overflow (Vec3.x a), Flagged.overflow (Vec3.y a),
             Flagged.overflow (Vec3.z a), IEEE.is_finite (Flagged.val (Vec3.x a)))) <$>
    calculateAccelerations (M := Flagged.flagged_machine)
      (Flagged.inject4 <$>
         [Vec4.mk (IEEE.f32 0) (IEEE.f32 0) (IEEE.f32 0) (IEEE.f32 0);
          Vec4.mk (IEEE.f32 3) (IEEE.f32 4) (IEEE.f32 0) (IEEE.f32 5)])
      (Flagged.inject3 <$>
         [Vec3.mk S754_nan S754_nan S754_nan; Vec3.mk S754_nan S754_nan S754_nan])
      2 !! 0%nat
  = Some (false, false, false, true).
Proof. vm_compute. reflexivity. Qed.

Lemma accelerations_finite_unless_overflow_witness :
  (forall bi bj : vec4 IEEE.binary32,
     IEEE.is_zero (fsqrt (to_double (distSqr (M := IEEE.ieee_machine) bi bj))) = false) /\
  exists a : vec3 Flagged.t,
    calculateAccelerations (M := Flagged.flagged_machine)
      (Flagged.inject4 <$>
         [Vec4.mk (IEEE.f32 0) (IEEE.f32 0) (IEEE.f32 0) (IEEE.f32 0);
          Vec4.mk (IEEE.f32 3) (IEEE.f32 4) (IEEE.f32 0) (IEEE.f32 5)])
      (Flagged.inject3 <$>
         [Vec3.mk S754_nan S754_nan S754_nan; Vec3.mk S754_nan S754_nan S754_nan])
      (Z.of_nat 2) !! 0%nat = Some a /\
    calculateAccelerations (M := IEEE.ieee_machine)
      [Vec4.mk (IEEE.f32 0) (IEEE.f32 0) (IEEE.f32 0) (IEEE.f32 0);
       Vec4.mk (IEEE.f32 3) (IEEE.f32 4) (IEEE.f32 0) (IEEE.f32 5)]
      [Vec3.mk S754_nan S754_nan S754_nan; Vec3.mk S754_nan S754_nan S754_nan]
      (Z.of_nat 2) !! 0%nat = Some (Flagged.val3 a) /\
    (Flagged.overflow (Vec3.x a) = false -> IEEE.is_finite (Flagged.val (Vec3.x a)) = true) /\
    (Flagged.overflow (Vec3.y a) = false -> IEEE.is_finite (Flagged.val (Vec3.y a)) = true) /\
    (Flagged.overflow (Vec3.z a) = false -> IEEE.is_finite (Flagged.val (Vec3.z a)) = true).
Proof.
  apply (accelerations_finite_unless_overflow
           [Vec4.mk (IEEE.f32 0) (IEEE.f32 0) (IEEE.f32 0) (IEEE.f32 0);
            Vec4.mk (IEEE.f32 3) (IEEE.f32 4) (IEEE.f32 0) (IEEE.f32 5)]
           [Vec3.mk S754_nan S754_nan S754_nan; Vec3.mk S754_nan S754_nan S754_nan] 2 0).
  - simpl. lia.
  - simpl. lia.
  - lia.
  - intros j b Hj Hb. destruct j as [|[|j]]; simpl in Hb.
    + injection Hb as <-. repeat split; reflexivity.
    + injection Hb as <-. repeat split; reflexivity.
    + discriminate.
Defined.

(** C6, counterexample: a single body whose reference and approximate
    accelerations are both exactly zero; the error computed is a NaN. *)
Lemma L2norm_identical_arrays_counterexample :
  L2norm (M := IEEE.ieee_machine)
    [Vec3.mk (S754_zero false) (S754_zero false) (S754_zero false)]
    [Vec3.mk (S754_zero false) (S754_zero false) (S754_zero false)]
    1
  = S754_nan.
Proof. vm_compute. reflexivity. Qed.

Lemma L2norm_identical_arrays_witness :
  L2norm (M := IEEE.ieee_machine)
    [Vec3.mk (S754_finite false 8388608 (-23)) (S754_zero false) (S754_zero false);
     Vec3.mk (S754_finite true 12582912 (-22)) (S754_finite false 8388608 (-23))
             (S754_zero true)]
    [Vec3.mk (S754_finite false 8388608 (-23)) (S754_zero false) (S754_zero false);
     Vec3.mk (S754_finite true 12582912 (-22)) (S754_finite false 8388608 (-23))
             (S754_zero true)]
    2
  = S754_zero false.
Proof.
  apply L2norm_identical_arrays; [lia|].
  intros i Hi.
  destruct i as [|[|i]].
  - eexists. repeat split; reflexivity.
  - eexists. repeat split; reflexivity.
  - vm_compute in Hi. lia.
Defined.

(** ** The initial condition generator, binary-system configuration *)

Section BinarySystem.
Import IEEE.
Variable Gen : Type.
Variable uniform_real_distribution : binary32 -> binary32 -> Gen -> binary32 * Gen.
Variables fcos fsin : binary64 -> binary64.

(** Contract of the library distribution used here: a draw from
    [uniform_real_distribution a b] with [a <= b] is at least [a]. *)
Hypothesis draw_lower_bound :
  forall (a b : binary32) (g : Gen),
    SFleb a b = true -> SFleb a (fst (uniform_real_distribution a b g)) = true.

Lemma SFleb_zero_of_positive (m : positive) (e : Z) (v : spec_float) :
  SFleb (S754_finite false m e) v = true -> SFleb (f32 0) v = true.
Proof. destruct v as [[]|[]| |[] m' e']; try discriminate; reflexivity. Qed.

Lemma planet_body_state (k : nat) (st : arrays (M := ieee_machine) Gen) :
  (2 <= k)%nat ->
  binary_system_state k st ->
  binary_system_state (S k)
    (planet_body (M := ieee_machine) Gen uniform_real_distribution fcos fsin k st).
Proof.
  intros Hk Hst. destruct st as [[P V] g].
  unfold binary_system_state in Hst. cbn [fst snd] in Hst.
  destruct Hst as (HP0 & HV0 & HP1 & HV1 & Hmass).
  unfold planet_body. cbv beta zeta.
  destruct (uniform_real_distribution _ _ g) as [angle g1].
  destruct (uniform_real_distribution _ _ g1) as [radius g2].
  destruct (uniform_real_distribution _ _ g2) as [zangle g3].
  destruct (uniform_real_distribution _ _ g3) as [pw g4] eqn:Hdraw.
  assert (Hpw : SFleb (f32 0) pw = true).
  { match type of Hdraw with
    | uniform_real_distribution ?a ?b _ = _ =>
        pose proof (draw_lower_bound a b g3 eq_refl) as Hlow;
        rewrite Hdraw in Hlow;
        change a with (S754_finite false 13421773 (-27)) in Hlow
    end.
    exact (SFleb_zero_of_positive _ _ _ Hlow). }
  change (@float ieee_machine) with spec_float in *. unfold binary32 in *.
  rewrite !list_lookup_insert_ne by lia. rewrite HP0, HP1.
  unfold binary_system_state. cbn [fst snd].
  change (@float ieee_machine) with spec_float in *. unfold binary32 in *.
  rewrite !list_lookup_insert_ne by lia.
  split; [assumption|]. split; [assumption|].
  split; [assumption|]. split; [assumption|].
  intros i p Hi Hp.
  destruct (Nat.eq_dec i k) as [->|Hne].
  - destruct (Nat.lt_ge_cases k (length P)) as [Hlt|Hge].
    + rewrite list_lookup_insert_eq in Hp by exact Hlt.
      injection Hp as <-. exact Hpw.
    + rewrite list_insert_ge in Hp by exact Hge.
      apply lookup_lt_Some in Hp. lia.
  - rewrite list_lookup_insert_ne in Hp by congruence.
    apply (Hmass i p); [lia|exact Hp].
Qed.

Lemma planet_loop_state (n : nat) (st : arrays (M := ieee_machine) Gen) :
  (2 <= n)%nat ->
  binary_system_state 2 st ->
  binary_system_state n
    (for_range 2 n (planet_body (M := ieee_machine) Gen uniform_real_distribution fcos fsin)
       st).
Proof.
  intros Hn Hst. induction n as [|n IH]; [lia|].
  destruct (Nat.eq_dec n 1) as [->|Hne].
  - by rewrite for_range_empty.
  - rewrite for_range_S by lia. apply planet_body_state; [lia|]. apply IH. lia.
Qed.

(** C8. After the generator has run with the binary-system configuration
    on arrays of at least two bodies, body 0 is at (-2, 0, 0) with mass 50
    and velocity (0, -1, 0), body 1 is at (2, 0, 0) with mass 50 and velocity
    (0, 1, 0), and the mass of every generated body is non-negative. *)
Theorem initializeParticles_binary_system
    (bodyPos : list (vec4 binary32)) (bodyVel : list (vec3 binary32)) (gen : Gen) :
  (2 <= length bodyPos)%nat -> (2 <= length bodyVel)%nat ->
  let st := initializeParticles (M := ieee_machine) Gen uniform_real_distribution fcos fsin
              bodyPos bodyVel BINARY_SYSTEM gen in
  fst (fst st) !! 0%nat = Some (Vec4.mk (f32 (-2)) (f32 0) (f32 0) (f32 50)) /\
  snd (fst st) !! 0%nat = Some (Vec3.mk (f32 0) (f32 (-1)) (f32 0)) /\
  fst (fst st) !! 1%nat = Some (Vec4.mk (f32 2) (f32 0) (f32 0) (f32 50)) /\
  snd (fst st) !! 1%nat = Some (Vec3.mk (f32 0) (f32 1) (f32 0)) /\
  forall (i : nat) (p : vec4 binary32),
    (i < Z.to_nat NUM_PARTICLES)%nat -> fst (fst st) !! i = Some p ->
    SFleb (f32 0) (Vec4.w p) = true.
Proof.
  intros HP HV st.
  assert (Hst : binary_system_state (Z.to_nat NUM_PARTICLES) st).
  { unfold st, initializeParticles.
    apply planet_loop_state; [vm_compute; lia|].
    unfold binary_system_state. cbn [fst snd].
    split; [|split; [|split; [|split]]].
    - etrans; [apply list_lookup_insert_ne; lia|].
      etrans; [apply list_lookup_insert_eq; lia|]. reflexivity.
    - etrans; [apply list_lookup_insert_ne; lia|].
      etrans; [apply list_lookup_insert_eq; lia|]. reflexivity.
    - etrans; [apply list_lookup_insert_eq; rewrite length_insert; lia|]. reflexivity.
    - etrans; [apply list_lookup_insert_eq; rewrite length_insert; lia|]. reflexivity.
    - intros i p Hi Hp.
      destruct i as [|[|i]]; [| |lia].
      + assert (Some p = Some (Vec4.mk (f32 (-2)) (f32 0) (f32 0) (f32 50))) as Heq.
        { rewrite <- Hp.
          etrans; [apply list_lookup_insert_ne; lia|].
          etrans; [apply list_lookup_insert_eq; lia|]. reflexivity. }
        by injection Heq as ->.
      + assert (Some p = Some (Vec4.mk (f32 2) (f32 0) (f32 0) (f32 50))) as Heq.
        { rewrite <- Hp.
          etrans; [apply list_lookup_insert_eq; rewrite length_insert; lia|]. reflexivity. }
        by injection Heq as ->. }
  exact Hst.
Qed.

End BinarySystem.

Lemma initializeParticles_binary_system_witness :
  fst (fst (initializeParticles (M := IEEE.ieee_machine) unit
              (fun a _ g => (a, g)) (fun v => v) (fun v => v)
              (replicate 1000 (Vec4.mk S754_nan S754_nan S754_nan S754_nan))
              (replicate 1000 (Vec3.mk S754_nan S754_nan S754_nan))
              BINARY_SYSTEM tt)) !! 0%nat
  = Some (Vec4.mk (S754_finite true 8388608 (-22)) (S754_zero false) (S754_zero false)
                  (S754_finite false 13107200 (-18))).
Proof.
  apply (initializeParticles_binary_system unit (fun a _ g => (a, g))
           (fun v => v) (fun v => v)).
  - intros a b g Hab. exact (SFleb_lower_refl a b Hab).
  - rewrite length_replicate. lia.
  - rewrite length_replicate. lia.
Defined.

(** ** Instances of the statements of exact arithmetic *)

Section ExactWitnesses.
Import Reference.
Local Open Scope R_scope.

Lemma calculateAccelerations_pairwise_sum_witness :
  calculateAccelerations (M := Exact.exact_machine)
    [Vec4.mk 0 0 0 1; Vec4.mk 1 0 0 2; Vec4.mk 0 3 0 1]
    [Vec3.mk 7 7 7; Vec3.mk 7 7 7; Vec3.mk 7 7 7] (Z.of_nat 3) !! 0%nat
  = Some (pairwise_sum [Vec4.mk 0 0 0 1; Vec4.mk 1 0 0 2; Vec4.mk 0 3 0 1] 3 0).
Proof.
  apply (calculateAccelerations_pairwise_sum
           [Vec4.mk 0 0 0 1; Vec4.mk 1 0 0 2; Vec4.mk 0 3 0 1]
           [Vec3.mk 7 7 7; Vec3.mk 7 7 7; Vec3.mk 7 7 7] 3 0); simpl; lia.
Defined.

Lemma internal_forces_conserve_momentum_witness :
  mass_weighted_sum
    (fst (fst (frame (M := Exact.exact_machine)
                 (replicate 1000 (Vec4.mk 0 0 0 1), replicate 1000 (Vec3.mk 1 0 0),
                  replicate 1000 (Vec3.mk 0 0 0)))))
    (snd (fst (frame (M := Exact.exact_machine)
                 (replicate 1000 (Vec4.mk 0 0 0 1), replicate 1000 (Vec3.mk 1 0 0),
                  replicate 1000 (Vec3.mk 0 0 0))))) 1000
  = mass_weighted_sum (replicate 1000 (Vec4.mk 0 0 0 1)) (replicate 1000 (Vec3.mk 1 0 0)) 1000.
Proof.
  apply (internal_forces_conserve_momentum
           (replicate 1000 (Vec4.mk 0 0 0 1)) (replicate 1000 (Vec3.mk 1 0 0))
           (replicate 1000 (Vec3.mk 0 0 0)) 1000).
  - rewrite length_replicate. lia.
  - rewrite length_replicate. lia.
  - rewrite length_replicate. lia.
  - vm_compute. lia.
  - reflexivity.
Defined.

Lemma L2norm_division_placement_witness :
  L2norm (M := Exact.exact_machine)
    [Vec3.mk 1 0 0; Vec3.mk 0 2 0] [Vec3.mk 1 1 0; Vec3.mk 0 2 1] (Z.of_nat 2)
  = documented_L2 [Vec3.mk 1 0 0; Vec3.mk 0 2 0] [Vec3.mk 1 1 0; Vec3.mk 0 2 1] 2.
Proof.
  apply (L2norm_division_placement
           [Vec3.mk 1 0 0; Vec3.mk 0 2 0] [Vec3.mk 1 1 0; Vec3.mk 0 2 1] 2).
  - lia.
  - simpl. lia.
  - simpl. lia.
  - intros i a Hi Ha. destruct i as [|[|i]]; simpl in Ha.
    + injection Ha as <-. simpl. lra.
    + injection Ha as <-. simpl. lra.
    + discriminate.
Defined.

End ExactWitnesses.

(** * Further properties of the code *)

(** ** The evaluator: bounds, recomputation, own mass *)

Section EvaluatorMore.
Context {M : Machine}.

(** Every entry of the result, for any arrays and any count. *)
Lemma calculateAccelerations_lookup_any bodyPos (bodyAccel : list (vec3 float))
    (numParticles : Z) (i : nat) :
  calculateAccelerations bodyPos bodyAccel numParticles !! i =
  match bodyAccel !! i with
  | Some a =>
      Some (if Nat.ltb i (Z.to_nat numParticles)
            then row bodyPos i (Z.to_nat numParticles) zero3 else a)
  | None => None
  end.
Proof.
  unfold calculateAccelerations. rewrite outer_loop_lookup, clear_loop_lookup.
  destruct (bodyAccel !! i); [|reflexivity].
  destruct (Nat.ltb i (Z.to_nat numParticles)); reflexivity.
Qed.

(** X1. The evaluator writes only the first [numParticles] entries of the
    output array: the array keeps its length, every entry at or beyond
    [numParticles] keeps its value, and a count that is zero or negative
    leaves the whole array as it was. *)
Theorem calculateAccelerations_bounds
    (bodyPos : list (vec4 float)) (bodyAccel : list (vec3 float)) (numParticles : Z) :
  length (calculateAccelerations bodyPos bodyAccel numParticles) = length bodyAccel /\
  (forall i : nat, (Z.to_nat numParticles <= i)%nat ->
     calculateAccelerations bodyPos bodyAccel numParticles !! i = bodyAccel !! i) /\
  ((numParticles <= 0)%Z ->
     calculateAccelerations bodyPos bodyAccel numParticles = bodyAccel).
Proof.
  split; [apply calculateAccelerations_length|]. split.
  - intros i Hi. rewrite calculateAccelerations_lookup_any.
    destruct (bodyAccel !! i); [|reflexivity].
    by rewrite (proj2 (Nat.ltb_ge i (Z.to_nat numParticles)) Hi).
  - intros HN. unfold calculateAccelerations.
    replace (Z.to_nat numParticles) with 0%nat by lia. reflexivity.
Qed.

(** X2. The output is recomputed from the positions alone: two output
    arrays of the same length that agree beyond [numParticles] give the same
    result whatever they held before, and evaluating a second time on the
    result changes nothing. *)
Theorem calculateAccelerations_recomputes
    (bodyPos : list (vec4 float)) (acc1 acc2 : list (vec3 float)) (numParticles : Z) :
  length acc1 = length acc2 ->
  (forall i : nat, (Z.to_nat numParticles <= i)%nat -> acc1 !! i = acc2 !! i) ->
  calculateAccelerations bodyPos acc1 numParticles =
    calculateAccelerations bodyPos acc2 numParticles /\
  calculateAccelerations bodyPos (calculateAccelerations bodyPos acc1 numParticles)
    numParticles = calculateAccelerations bodyPos acc1 numParticles.
Proof.
  intros Hlen Htail. split.
  - apply list_eq. intros i. rewrite !calculateAccelerations_lookup_any.
    destruct (Nat.ltb_spec i (Z.to_nat numParticles)) as [Hlt|Hge].
    + destruct (acc1 !! i) as [a1|] eqn:E1; destruct (acc2 !! i) as [a2|] eqn:E2;
        try reflexivity.
      * apply lookup_lt_Some in E1. apply lookup_ge_None in E2. lia.
      * apply lookup_ge_None in E1. apply lookup_lt_Some in E2. lia.
    + rewrite (Htail i Hge). reflexivity.
  - apply list_eq. intros i. rewrite !calculateAccelerations_lookup_any.
    destruct (acc1 !! i); [|reflexivity].
    destruct (Nat.ltb i (Z.to_nat numParticles)); reflexivity.
Qed.

Lemma accumulate_own_mass (bi bi' bj : vec4 float) (a : vec3 float) :
  Vec4.x bi' = Vec4.x bi -> Vec4.y bi' = Vec4.y bi -> Vec4.z bi' = Vec4.z bi ->
  accumulate bi' bj a = accumulate bi bj a.
Proof.
  intros Hx Hy Hz. unfold accumulate, pair_scale, distSqr.
  by rewrite Hx, Hy, Hz.
Qed.

Lemma row_own_mass (bodyPos : list (vec4 float)) (i m : nat) (bi bi' : vec4 float)
    (a : vec3 float) :
  bodyPos !! i = Some bi ->
  Vec4.x bi' = Vec4.x bi -> Vec4.y bi' = Vec4.y bi -> Vec4.z bi' = Vec4.z bi ->
  row (<[i := bi']> bodyPos) i m a = row bodyPos i m a.
Proof.
  intros Hi Hx Hy Hz. pose proof (lookup_lt_Some _ _ _ Hi) as Hlt.
  unfold row. induction m as [|m IH]; [reflexivity|].
  rewrite !for_range_0_S, IH.
  destruct (Nat.eqb_spec i m) as [->|Hne]; [reflexivity|].
  rewrite list_lookup_insert_eq by exact Hlt.
  rewrite list_lookup_insert_ne by exact Hne.
  rewrite Hi. destruct (bodyPos !! m); [|reflexivity].
  by apply accumulate_own_mass.
Qed.

(** X3. The acceleration of a body does not depend on its own mass:
    changing only the [w] field of body [i] leaves [bodyAccel[i]] as it
    would have been. *)
Theorem calculateAccelerations_own_mass
    (bodyPos : list (vec4 float)) (bodyAccel : list (vec3 float)) (numParticles : Z)
    (i : nat) (bi : vec4 float) (mass : float) :
  bodyPos !! i = Some bi ->
  calculateAccelerations
    (<[i := Vec4.mk (Vec4.x bi) (Vec4.y bi) (Vec4.z bi) mass]> bodyPos)
    bodyAccel numParticles !! i =
  calculateAccelerations bodyPos bodyAccel numParticles !! i.
Proof.
  intros Hi. rewrite !calculateAccelerations_lookup_any.
  destruct (bodyAccel !! i); [|reflexivity].
  destruct (Nat.ltb i (Z.to_nat numParticles)); [|reflexivity].
  by rewrite (row_own_mass bodyPos i _ bi).
Qed.

End EvaluatorMore.

Lemma calculateAccelerations_recomputes_witness :
  calculateAccelerations (M := IEEE.ieee_machine)
    [Vec4.mk (IEEE.f32 0) (IEEE.f32 0) (IEEE.f32 0) (IEEE.f32 1);
     Vec4.mk (IEEE.f32 3) (IEEE.f32 4) (IEEE.f32 0) (IEEE.f32 2)]
    [Vec3.mk S754_nan S754_nan S754_nan; Vec3.mk (IEEE.f32 7) (IEEE.f32 7) (IEEE.f32 7);
     Vec3.mk (IEEE.f32 5) (IEEE.f32 5) (IEEE.f32 5)] 2
  = calculateAccelerations (M := IEEE.ieee_machine)
    [Vec4.mk (IEEE.f32 0) (IEEE.f32 0) (IEEE.f32 0) (IEEE.f32 1);
     Vec4.mk (IEEE.f32 3) (IEEE.f32 4) (IEEE.f32 0) (IEEE.f32 2)]
    [Vec3.mk (IEEE.f32 1) (IEEE.f32 2) (IEEE.f32 3); Vec3.mk S754_nan S754_nan S754_nan;
     Vec3.mk (IEEE.f32 5) (IEEE.f32 5) (IEEE.f32 5)] 2.
Proof.
  apply (calculateAccelerations_recomputes (M := IEEE.ieee_machine)).
  - reflexivity.
  - intros i Hi. destruct i as [|[|i]]; [vm_compute in Hi; lia..|reflexivity].
Defined.

Lemma calculateAccelerations_own_mass_witness :
  calculateAccelerations (M := IEEE.ieee_machine)
    (<[0%nat := Vec4.mk (IEEE.f32 0) (IEEE.f32 0) (IEEE.f32 0) (IEEE.f32 50)]>
       [Vec4.mk (IEEE.f32 0) (IEEE.f32 0) (IEEE.f32 0) (IEEE.f32 1);
        Vec4.mk (IEEE.f32 3) (IEEE.f32 4) (IEEE.f32 0) (IEEE.f32 2)])
    [Vec3.mk S754_nan S754_nan S754_nan; Vec3.mk S754_nan S754_nan S754_nan] 2 !! 0%nat
  = calculateAccelerations (M := IEEE.ieee_machine)
      [Vec4.mk (IEEE.f32 0) (IEEE.f32 0) (IEEE.f32 0) (IEEE.f32 1);
       Vec4.mk (IEEE.f32 3) (IEEE.f32 4) (IEEE.f32 0) (IEEE.f32 2)]
      [Vec3.mk S754_nan S754_nan S754_nan; Vec3.mk S754_nan S754_nan S754_nan] 2 !! 0%nat.
Proof.
  apply (calculateAccelerations_own_mass (M := IEEE.ieee_machine)
           [Vec4.mk (IEEE.f32 0) (IEEE.f32 0) (IEEE.f32 0) (IEEE.f32 1);
            Vec4.mk (IEEE.f32 3) (IEEE.f32 4) (IEEE.f32 0) (IEEE.f32 2)]
           _ 2 0%nat
           (Vec4.mk (IEEE.f32 0) (IEEE.f32 0) (IEEE.f32 0) (IEEE.f32 1)) (IEEE.f32 50)).
  reflexivity.
Defined.

Lemma calculateAccelerations_bounds_witness :
  calculateAccelerations (M := IEEE.ieee_machine)
    [Vec4.mk (IEEE.f32 0) (IEEE.f32 0) (IEEE.f32 0) (IEEE.f32 1)]
    [Vec3.mk S754_nan S754_nan S754_nan] (-3)
  = [Vec3.mk S754_nan S754_nan S754_nan].
Proof.
  apply (calculateAccelerations_bounds (M := IEEE.ieee_machine)). lia.
Defined.

(** ** Newton's third law in binary32 arithmetic *)

Section ThirdLaw.
Import IEEE.

Lemma binary_round_aux_opp prec emax (s : bool) (m e : Z) (l : location) :
  binary_round_aux prec emax (negb s) m e l = SFopp (binary_round_aux prec emax s m e l).
Proof.
  unfold binary_round_aux.
  destruct (shr_fexp prec emax m e l) as [mrs1 e1].
  destruct (shr_fexp prec emax _ e1 loc_Exact) as [mrs2 e2].
  destruct (shr_m mrs2); try reflexivity.
  destruct (Z.leb e2 (emax - prec)); reflexivity.
Qed.

Lemma binary_round_opp prec emax (m : positive) (e : Z) :
  binary_round prec emax true m e = SFopp (binary_round prec emax false m e).
Proof.
  unfold binary_round. destruct (shl_align m e _) as [mz ez].
  apply (binary_round_aux_opp prec emax false).
Qed.

Lemma binary_normalize_opp prec emax (d e : Z) :
  d <> 0%Z ->
  binary_normalize prec emax (- d) e false = SFopp (binary_normalize prec emax d e false).
Proof.
  destruct d as [|p|p]; intros Hd; [congruence| |]; simpl.
  - apply binary_round_opp.
  - rewrite binary_round_opp. by destruct (binary_round prec emax false p e) as [[]|[]| |[]].
Qed.

Lemma SFopp_involutive (v : spec_float) : SFopp (SFopp v) = v.
Proof. destruct v as [[]|[]| |[] m e]; reflexivity. Qed.

Lemma SFsub_opposite prec emax (u v : spec_float) :
  opposite (SFsub prec emax u v) (SFsub prec emax v u).
Proof.
  destruct u as [[]|[]| |su mu eu]; destruct v as [[]|[]| |sv mv ev];
    try (left; reflexivity); try (right; split; reflexivity);
    try (left; destruct su; reflexivity); try (left; destruct sv; reflexivity).
  unfold SFsub. rewrite (Z.min_comm ev eu).
  set (ez := Z.min eu ev).
  set (A := cond_Zopp su (Zpos (fst (shl_align mu eu ez)))).
  set (B := cond_Zopp sv (Zpos (fst (shl_align mv ev ez)))).
  destruct (Z.eq_dec (A - B)%Z 0%Z) as [Hz|Hnz].
  - right. replace (B - A)%Z with 0%Z by lia. rewrite Hz. split; reflexivity.
  - left. replace (B - A)%Z with (- (A - B))%Z by lia.
    by apply binary_normalize_opp.
Qed.

Lemma SFmul_opp_l prec emax (u v : spec_float) :
  SFmul prec emax (SFopp u) v = SFopp (SFmul prec emax u v).
Proof.
  destruct u as [su|su| |su mu eu]; destruct v as [sv|sv| |sv mv ev]; try reflexivity;
    try (destruct su, sv; reflexivity).
  simpl. rewrite <- binary_round_aux_opp. by destruct su, sv.
Qed.

Lemma SFmul_opp_r prec emax (u v : spec_float) :
  SFmul prec emax u (SFopp v) = SFopp (SFmul prec emax u v).
Proof.
  destruct u as [su|su| |su mu eu]; destruct v as [sv|sv| |sv mv ev]; try reflexivity;
    try (destruct su, sv; reflexivity).
  simpl. rewrite <- binary_round_aux_opp. by destruct su, sv.
Qed.

Lemma SFmul_square_opposite prec emax (d d' : spec_float) :
  opposite d d' -> SFmul prec emax d' d' = SFmul prec emax d d.
Proof.
  intros [->|[-> ->]]; [|reflexivity].
  by rewrite SFmul_opp_l, SFmul_opp_r, SFopp_involutive.
Qed.

(** The term added to a cleared entry, for opposite displacements and the
    same factor. *)
Lemma accumulated_opposite prec emax (d d' s : spec_float) :
  opposite d d' ->
  opposite (SFadd prec emax (S754_zero false) (SFmul prec emax d s))
           (SFadd prec emax (S754_zero false) (SFmul prec emax d' s)).
Proof.
  intros [->|[-> ->]].
  - rewrite SFmul_opp_l.
    destruct (SFmul prec emax d s) as [[]|[]| |[] m e];
      try (left; reflexivity); right; split; reflexivity.
  - destruct s as [[]|[]| |[] m e];
      try (left; reflexivity); right; split; reflexivity.
Qed.

Lemma distSqr_symmetric (b0 b1 : vec4 binary32) :
  distSqr (M := ieee_machine) b1 b0 = distSqr (M := ieee_machine) b0 b1.
Proof.
  unfold distSqr. cbn [fadd fsub fmul float_ops ieee_machine ieee_ops].
  change (@float ieee_machine) with spec_float in *. unfold binary32 in *.
  by rewrite (SFmul_square_opposite 24 128 _ _ (SFsub_opposite 24 128 (Vec4.x b1) (Vec4.x b0))),
    (SFmul_square_opposite 24 128 _ _ (SFsub_opposite 24 128 (Vec4.y b1) (Vec4.y b0))),
    (SFmul_square_opposite 24 128 _ _ (SFsub_opposite 24 128 (Vec4.z b1) (Vec4.z b0))).
Qed.

Lemma accumulate_opposite (b0 b1 : vec4 binary32) :
  Vec4.w b0 = Vec4.w b1 ->
  opposite (Vec3.x (accumulate (M := ieee_machine) b0 b1 zero3))
           (Vec3.x (accumulate (M := ieee_machine) b1 b0 zero3)) /\
  opposite (Vec3.y (accumulate (M := ieee_machine) b0 b1 zero3))
           (Vec3.y (accumulate (M := ieee_machine) b1 b0 zero3)) /\
  opposite (Vec3.z (accumulate (M := ieee_machine) b0 b1 zero3))
           (Vec3.z (accumulate (M := ieee_machine) b1 b0 zero3)).
Proof.
  intros Hw.
  assert (Hs : pair_scale (M := ieee_machine) b1 b0 = pair_scale (M := ieee_machine) b0 b1).
  { unfold pair_scale. rewrite distSqr_symmetric.
    change (@float ieee_machine) with spec_float in *. unfold binary32 in *.
    by rewrite Hw. }
  unfold accumulate. rewrite Hs.
  cbn [Vec3.x Vec3.y Vec3.z zero3 fadd fsub fmul flit float_ops ieee_machine ieee_ops lit].
  split; [|split]; apply accumulated_opposite, SFsub_opposite.
Qed.

(** X4. Newton's third law holds exactly in single precision: for two
    bodies of equal mass, each component of the acceleration of body 1 is the
    negation of that of body 0 (or both are +0), bit for bit, whatever the
    positions. *)
Theorem two_body_accelerations_opposite
    (bodyPos : list (vec4 binary32)) (bodyAccel : list (vec3 binary32))
    (b0 b1 : vec4 binary32) :
  bodyPos !! 0%nat = Some b0 -> bodyPos !! 1%nat = Some b1 ->
  (2 <= length bodyAccel)%nat ->
  Vec4.w b0 = Vec4.w b1 ->
  exists a0 a1 : vec3 binary32,
    calculateAccelerations (M := ieee_machine) bodyPos bodyAccel 2 !! 0%nat = Some a0 /\
    calculateAccelerations (M := ieee_machine) bodyPos bodyAccel 2 !! 1%nat = Some a1 /\
    opposite (Vec3.x a0) (Vec3.x a1) /\
    opposite (Vec3.y a0) (Vec3.y a1) /\
    opposite (Vec3.z a0) (Vec3.z a1).
Proof.
  intros H0 H1 Hlen Hw.
  exists (accumulate (M := ieee_machine) b0 b1 zero3),
         (accumulate (M := ieee_machine) b1 b0 zero3).
  split; [|split; [|by apply accumulate_opposite]].
  - etrans; [exact (calculateAccelerations_lookup (M := ieee_machine)
                      bodyPos bodyAccel 2 0 ltac:(lia) Hlen)|].
    unfold row, for_range. cbn [Nat.sub seq fold_left Nat.eqb].
    change (@float ieee_machine) with spec_float in *. unfold binary32 in *.
    by rewrite H0, H1.
  - etrans; [exact (calculateAccelerations_lookup (M := ieee_machine)
                      bodyPos bodyAccel 2 1 ltac:(lia) Hlen)|].
    unfold row, for_range. cbn [Nat.sub seq fold_left Nat.eqb].
    change (@float ieee_machine) with spec_float in *. unfold binary32 in *.
    by rewrite H0, H1.
Qed.

End ThirdLaw.

Lemma two_body_accelerations_opposite_witness :
  exists a0 a1 : vec3 IEEE.binary32,
    calculateAccelerations (M := IEEE.ieee_machine)
      [Vec4.mk (IEEE.f32 (-2)) (IEEE.f32 0) (IEEE.f32 0) (IEEE.f32 50);
       Vec4.mk (IEEE.f32 2) (IEEE.f32 0) (IEEE.f32 0) (IEEE.f32 50)]
      [Vec3.mk S754_nan S754_nan S754_nan; Vec3.mk S754_nan S754_nan S754_nan] 2 !! 0%nat
      = Some a0 /\
    calculateAccelerations (M := IEEE.ieee_machine)
      [Vec4.mk (IEEE.f32 (-2)) (IEEE.f32 0) (IEEE.f32 0) (IEEE.f32 50);
       Vec4.mk (IEEE.f32 2) (IEEE.f32 0) (IEEE.f32 0) (IEEE.f32 50)]
      [Vec3.mk S754_nan S754_nan S754_nan; Vec3.mk S754_nan S754_nan S754_nan] 2 !! 1%nat
      = Some a1 /\
    opposite (Vec3.x a0) (Vec3.x a1) /\
    opposite (Vec3.y a0) (Vec3.y a1) /\
    opposite (Vec3.z a0) (Vec3.z a1).
Proof.
  apply (two_body_accelerations_opposite _ _
           (Vec4.mk (IEEE.f32 (-2)) (IEEE.f32 0) (IEEE.f32 0) (IEEE.f32 50))
           (Vec4.mk (IEEE.f32 2) (IEEE.f32 0) (IEEE.f32 0) (IEEE.f32 50)));
    [reflexivity | reflexivity | simpl; lia | reflexivity].
Defined.

(** ** Translation invariance in exact arithmetic *)

Section Translation.
Import Reference.
Local Open Scope R_scope.

Lemma softened_sqdist_translate (t : vec3 R) (bi bj : vec4 R) :
  softened_sqdist (translate t bi) (translate t bj) = softened_sqdist bi bj.
Proof. unfold softened_sqdist, translate. simpl. ring. Qed.

Lemma body_at_translate (t : vec3 R) (bodyPos : list (vec4 R)) (k : nat) :
  (k < length bodyPos)%nat ->
  body_at (translate t <$> bodyPos) k = translate t (body_at bodyPos k).
Proof.
  intros Hk. unfold body_at. rewrite list_lookup_fmap.
  destruct (lookup_lt_is_Some_2 bodyPos k Hk) as [b Hb]. by rewrite Hb.
Qed.

Lemma pair_term_translate (c : vec4 R -> R) (t : vec3 R) (bodyPos : list (vec4 R))
    (i j : nat) :
  (forall bi bj, c (translate t bj) - c (translate t bi) = c bj - c bi) ->
  (i < length bodyPos)%nat -> (j < length bodyPos)%nat ->
  pair_term c (translate t <$> bodyPos) i j = pair_term c bodyPos i j.
Proof.
  intros Hc Hi Hj. unfold pair_term. destruct (Nat.eqb i j); [reflexivity|].
  rewrite !body_at_translate by assumption.
  by rewrite softened_sqdist_translate, Hc.
Qed.

(** X5. In exact arithmetic the accelerations depend only on the relative
    positions: moving every body by the same vector leaves every computed
    acceleration unchanged. *)
Theorem calculateAccelerations_translation_invariant
    (t : vec3 R) (bodyPos : list (vec4 R)) (bodyAccel : list (vec3 R)) (n i : nat) :
  (n <= length bodyPos)%nat -> (n <= length bodyAccel)%nat -> (i < n)%nat ->
  calculateAccelerations (M := Exact.exact_machine) (translate t <$> bodyPos) bodyAccel
    (Z.of_nat n) !! i =
  calculateAccelerations (M := Exact.exact_machine) bodyPos bodyAccel (Z.of_nat n) !! i.
Proof.
  intros Hp Ha Hi.
  assert (Hp' : (n <= length (translate t <$> bodyPos))%nat)
    by (rewrite length_fmap; assumption).
  etrans; [exact (calculateAccelerations_exact _ bodyAccel n i Hp' Ha Hi)|].
  etrans; [|symmetry; exact (calculateAccelerations_exact bodyPos bodyAccel n i Hp Ha Hi)].
  f_equal. unfold pairwise_sum.
  f_equal; apply Rsum_ext; intros j Hj; apply pair_term_translate; try lia;
    intros bi bj; unfold translate; simpl; ring.
Qed.

End Translation.

Lemma calculateAccelerations_translation_invariant_witness :
  calculateAccelerations (M := Exact.exact_machine)
    (translate (Vec3.mk 5 (-1) 2)%R <$> [Vec4.mk 0 0 0 1; Vec4.mk 1 0 0 2; Vec4.mk 0 3 0 1]%R)
    [Vec3.mk 7 7 7; Vec3.mk 7 7 7; Vec3.mk 7 7 7]%R (Z.of_nat 3) !! 1%nat
  = calculateAccelerations (M := Exact.exact_machine)
      [Vec4.mk 0 0 0 1; Vec4.mk 1 0 0 2; Vec4.mk 0 3 0 1]%R
      [Vec3.mk 7 7 7; Vec3.mk 7 7 7; Vec3.mk 7 7 7]%R (Z.of_nat 3) !! 1%nat.
Proof.
  apply (calculateAccelerations_translation_invariant (Vec3.mk 5 (-1) 2)%R
           [Vec4.mk 0 0 0 1; Vec4.mk 1 0 0 2; Vec4.mk 0 3 0 1]%R
           [Vec3.mk 7 7 7; Vec3.mk 7 7 7; Vec3.mk 7 7 7]%R 3 1); simpl; lia.
Defined.

(** ** The integrator and the main loop *)

Lemma for_range_invariant {S : Type} (I : nat -> S -> Prop) (lo n : nat)
    (body : nat -> S -> S) (s : S) :
  (lo <= n)%nat -> I lo s ->
  (forall i s, (lo <= i < n)%nat -> I i s -> I (Datatypes.S i) (body i s)) ->
  I n (for_range lo n body s).
Proof.
  intros Hle H0 Hstep. induction n as [|n IH].
  - assert (lo = 0)%nat as -> by lia. exact H0.
  - destruct (Nat.eq_dec lo (Datatypes.S n)) as [->|Hne].
    + by rewrite for_range_empty.
    + rewrite for_range_S by lia. apply Hstep; [lia|]. apply IH; [lia|].
      intros i s' Hi. apply Hstep. lia.
Qed.

Section Run.
Context {M : Machine}.

Lemma update_body_length bodyAccel k (st : list (vec4 float) * list (vec3 float)) :
  length (fst (update_body bodyAccel k st)) = length (fst st) /\
  length (snd (update_body bodyAccel k st)) = length (snd st).
Proof.
  destruct st as [bodyPos bodyVel]. unfold update_body.
  destruct (bodyPos !! k); [|done].
  destruct (bodyVel !! k); [|done].
  destruct (bodyAccel !! k); [|done].
  simpl. by rewrite !length_insert.
Qed.

Lemma update_loop_length bodyPos bodyVel bodyAccel k :
  length (fst (for_range 0 k (update_body bodyAccel) (bodyPos, bodyVel))) = length bodyPos /\
  length (snd (for_range 0 k (update_body bodyAccel) (bodyPos, bodyVel))) = length bodyVel.
Proof.
  induction k as [|k [IHp IHv]]; [done|].
  rewrite for_range_0_S.
  destruct (update_body_length bodyAccel k
              (for_range 0 k (update_body bodyAccel) (bodyPos, bodyVel))) as [Ep Ev].
  by rewrite Ep, Ev.
Qed.

(** X6. The integrator stays inside the first [NUM_PARTICLES] entries: both
    arrays keep their lengths, and every entry at an index of
    [NUM_PARTICLES] or more is left as it was. *)
Theorem updateParticles_bounds
    (bodyPos : list (vec4 float)) (bodyVel bodyAccel : list (vec3 float)) :
  length (fst (updateParticles bodyPos bodyVel bodyAccel)) = length bodyPos /\
  length (snd (updateParticles bodyPos bodyVel bodyAccel)) = length bodyVel /\
  forall i : nat, (Z.to_nat NUM_PARTICLES <= i)%nat ->
    fst (updateParticles bodyPos bodyVel bodyAccel) !! i = bodyPos !! i /\
    snd (updateParticles bodyPos bodyVel bodyAccel) !! i = bodyVel !! i.
Proof.
  unfold updateParticles.
  destruct (update_loop_length bodyPos bodyVel bodyAccel (Z.to_nat NUM_PARTICLES))
    as [Ep Ev].
  split; [exact Ep|]. split; [exact Ev|].
  intros i Hi. by apply update_loop_frame.
Qed.

Lemma frame_masses_lengths
    (st : list (vec4 float) * list (vec3 float) * list (vec3 float)) :
  Vec4.w <$> fst (fst (frame st)) = Vec4.w <$> fst (fst st) /\
  length (snd (fst (frame st))) = length (snd (fst st)) /\
  length (snd (frame st)) = length (snd st).
Proof.
  destruct st as [[P V] A]. rewrite frame_unfold. unfold updateParticles.
  pose proof (calculateAccelerations_length P A NUM_PARTICLES) as Ha.
  revert Ha. generalize (calculateAccelerations P A NUM_PARTICLES) as A'.
  generalize (Z.to_nat NUM_PARTICLES) as k. intros k A' Ha. cbn [fst snd].
  split; [exact (update_loop_mass P V A' k)|].
  split; [exact (proj2 (update_loop_length P V A' k))|exact Ha].
Qed.

Lemma frames_masses_lengths (m : nat)
    (st : list (vec4 float) * list (vec3 float) * list (vec3 float)) :
  Vec4.w <$> fst (fst (for_range 0 m (fun _ => frame) st)) = Vec4.w <$> fst (fst st) /\
  length (snd (fst (for_range 0 m (fun _ => frame) st))) = length (snd (fst st)) /\
  length (snd (for_range 0 m (fun _ => frame) st)) = length (snd st).
Proof.
  induction m as [|m (IHw & IHv & IHa)]; [done|].
  rewrite for_range_0_S.
  destruct (frame_masses_lengths (for_range 0 m (fun _ => frame) st)) as (Ew & Ev & Ea).
  by rewrite Ew, Ev, Ea.
Qed.

(** X7. The whole run of [NUM_FRAMES] frames never changes a mass and never
    resizes an array: after the simulation loop of [main] the [w] fields of
    the positions are those of the initial positions, body by body, and
    the three arrays have their initial lengths. *)
Theorem simulate_preserves_masses
    (st : list (vec4 float) * list (vec3 float) * list (vec3 float)) :
  Vec4.w <$> fst (fst (simulate st)) = Vec4.w <$> fst (fst st) /\
  length (fst (fst (simulate st))) = length (fst (fst st)) /\
  length (snd (fst (simulate st))) = length (snd (fst st)) /\
  length (snd (simulate st)) = length (snd st).
Proof.
  unfold simulate.
  destruct (frames_masses_lengths (Z.to_nat NUM_FRAMES) st) as (Ew & Ev & Ea).
  split; [exact Ew|]. split; [|split; [exact Ev|exact Ea]].
  apply (f_equal length) in Ew. by rewrite !length_fmap in Ew.
Qed.

End Run.

Lemma updateParticles_bounds_witness :
  fst (updateParticles (M := IEEE.ieee_machine)
         (replicate 1001 (Vec4.mk (IEEE.f32 1) (IEEE.f32 1) (IEEE.f32 1) (IEEE.f32 1)))
         (replicate 1001 (Vec3.mk (IEEE.f32 1) (IEEE.f32 1) (IEEE.f32 1)))
         (replicate 1001 (Vec3.mk (IEEE.f32 1) (IEEE.f32 1) (IEEE.f32 1)))) !! 1000%nat
  = replicate 1001 (Vec4.mk (IEEE.f32 1) (IEEE.f32 1) (IEEE.f32 1) (IEEE.f32 1)) !! 1000%nat.
Proof.
  apply (updateParticles_bounds (M := IEEE.ieee_machine)
           (replicate 1001 (Vec4.mk (IEEE.f32 1) (IEEE.f32 1) (IEEE.f32 1) (IEEE.f32 1)))
           (replicate 1001 (Vec3.mk (IEEE.f32 1) (IEEE.f32 1) (IEEE.f32 1)))
           (replicate 1001 (Vec3.mk (IEEE.f32 1) (IEEE.f32 1) (IEEE.f32 1)))).
  vm_compute. lia.
Defined.

(** ** Momentum over the whole run, in exact arithmetic *)

Section RunExact.
Import Reference.

Lemma frame_momentum (bodyPos : list (vec4 R)) (bodyVel bodyAccel : list (vec3 R)) (n : nat) :
  Z.of_nat n = NUM_PARTICLES ->
  (n <= length bodyPos)%nat -> (n <= length bodyVel)%nat -> (n <= length bodyAccel)%nat ->
  mass_weighted_sum
    (fst (fst (frame (M := Exact.exact_machine) (bodyPos, bodyVel, bodyAccel))))
    (snd (fst (frame (M := Exact.exact_machine) (bodyPos, bodyVel, bodyAccel)))) n =
  mass_weighted_sum bodyPos bodyVel n.
Proof.
  intros HN Hp Hv Ha.
  rewrite (frame_unfold (M := Exact.exact_machine)).
  unfold updateParticles. rewrite <- HN, Nat2Z.id.
  by apply evaluate_then_update_momentum.
Qed.

Lemma frames_momentum (m n : nat)
    (st : list (vec4 R) * list (vec3 R) * list (vec3 R)) :
  Z.of_nat n = NUM_PARTICLES ->
  (n <= length (fst (fst st)))%nat -> (n <= length (snd (fst st)))%nat ->
  (n <= length (snd st))%nat ->
  mass_weighted_sum
    (fst (fst (for_range 0 m (fun _ => frame (M := Exact.exact_machine)) st)))
    (snd (fst (for_range 0 m (fun _ => frame (M := Exact.exact_machine)) st))) n =
  mass_weighted_sum (fst (fst st)) (snd (fst st)) n.
Proof.
  intros HN Hp Hv Ha. induction m as [|m IH]; [done|].
  rewrite for_range_0_S.
  destruct (frames_masses_lengths (M := Exact.exact_machine) m st) as (Ew & Ev & Ea).
  apply (f_equal length) in Ew. rewrite !length_fmap in Ew.
  destruct (for_range 0 m (fun _ => frame (M := Exact.exact_machine)) st) as [[P V] A].
  cbn [fst snd] in *.
  etrans; [|exact IH].
  change (@float Exact.exact_machine) with R in *.
  apply frame_momentum; [exact HN|lia|lia|lia].
Qed.

(** X8. In exact arithmetic the whole run conserves the total momentum:
    after the [NUM_FRAMES] frames of the simulation loop of [main] the
    mass-weighted sum of the velocities of the [NUM_PARTICLES] bodies is the
    one of the initial state. *)
Theorem simulate_conserves_momentum
    (bodyPos : list (vec4 R)) (bodyVel bodyAccel : list (vec3 R)) (n : nat) :
  Z.of_nat n = NUM_PARTICLES ->
  (n <= length bodyPos)%nat -> (n <= length bodyVel)%nat -> (n <= length bodyAccel)%nat ->
  mass_weighted_sum
    (fst (fst (simulate (M := Exact.exact_machine) (bodyPos, bodyVel, bodyAccel))))
    (snd (fst (simulate (M := Exact.exact_machine) (bodyPos, bodyVel, bodyAccel)))) n =
  mass_weighted_sum bodyPos bodyVel n.
Proof.
  intros HN Hp Hv Ha. unfold simulate.
  exact (frames_momentum (Z.to_nat NUM_FRAMES) n (bodyPos, bodyVel, bodyAccel) HN Hp Hv Ha).
Qed.

End RunExact.

Lemma simulate_conserves_momentum_witness :
  Reference.mass_weighted_sum
    (fst (fst (simulate (M := Exact.exact_machine)
                 (replicate 1000 (Vec4.mk 0 0 0 1)%R, replicate 1000 (Vec3.mk 1 0 0)%R,
                  replicate 1000 (Vec3.mk 0 0 0)%R))))
    (snd (fst (simulate (M := Exact.exact_machine)
                 (replicate 1000 (Vec4.mk 0 0 0 1)%R, replicate 1000 (Vec3.mk 1 0 0)%R,
                  replicate 1000 (Vec3.mk 0 0 0)%R)))) 1000 =
  Reference.mass_weighted_sum
    (replicate 1000 (Vec4.mk 0 0 0 1)%R) (replicate 1000 (Vec3.mk 1 0 0)%R) 1000.
Proof.
  apply (simulate_conserves_momentum
           (replicate 1000 (Vec4.mk 0 0 0 1)%R) (replicate 1000 (Vec3.mk 1 0 0)%R)
           (replicate 1000 (Vec3.mk 0 0 0)%R) 1000).
  - reflexivity.
  - rewrite length_replicate. lia.
  - rewrite length_replicate. lia.
  - rewrite length_replicate. lia.
Defined.

(** ** The benchmark harness: snapshot of the approximate result *)

Section Harness.
Context {M : Machine}.

Lemma copy_body_length (bodyAccel : list (vec3 float)) i (bodyAcceld : list (vec3 float)) :
  length (copy_body bodyAccel i bodyAcceld) = length bodyAcceld.
Proof. unfold copy_body. destruct (bodyAccel !! i); [apply length_insert|done]. Qed.

Lemma copy_body_other (bodyAccel : list (vec3 float)) k (bodyAcceld : list (vec3 float)) i :
  i <> k -> copy_body bodyAccel k bodyAcceld !! i = bodyAcceld !! i.
Proof.
  intros Hne. unfold copy_body.
  destruct (bodyAccel !! k); [|done]. apply list_lookup_insert_ne. congruence.
Qed.

Lemma copy_body_self (bodyAccel : list (vec3 float)) k (bodyAcceld : list (vec3 float)) :
  (k < length bodyAccel)%nat -> (k < length bodyAcceld)%nat ->
  copy_body bodyAccel k bodyAcceld !! k = bodyAccel !! k.
Proof.
  intros Ha Hd. unfold copy_body.
  destruct (lookup_lt_is_Some_2 bodyAccel k Ha) as [a Ea]. rewrite Ea.
  etrans; [apply list_lookup_insert_eq; exact Hd|]. by destruct a.
Qed.

Lemma copy_loop_length (bodyAccel bodyAcceld : list (vec3 float)) k :
  length (for_range 0 k (copy_body bodyAccel) bodyAcceld) = length bodyAcceld.
Proof. apply for_range_length. intros i l. apply copy_body_length. Qed.

Lemma copy_loop_frame (bodyAccel bodyAcceld : list (vec3 float)) k i :
  (k <= i)%nat ->
  for_range 0 k (copy_body bodyAccel) bodyAcceld !! i = bodyAcceld !! i.
Proof.
  induction k as [|k IH]; intros Hi; [done|].
  rewrite for_range_0_S, copy_body_other by lia. apply IH. lia.
Qed.

Lemma copy_loop_lookup (bodyAccel bodyAcceld : list (vec3 float)) k i :
  (i < k)%nat -> (i < length bodyAccel)%nat -> (i < length bodyAcceld)%nat ->
  for_range 0 k (copy_body bodyAccel) bodyAcceld !! i = bodyAccel !! i.
Proof.
  intros Hi Ha Hd. induction k as [|k IH]; [lia|].
  rewrite for_range_0_S.
  destruct (Nat.eq_dec i k) as [->|Hne].
  - apply copy_body_self; [exact Ha|]. by rewrite copy_loop_length.
  - rewrite copy_body_other by exact Hne. apply IH. lia.
Qed.

(** X9. The snapshot loop of the harness copies exactly the first
    [numParticles] accelerations: the destination keeps its length, each of
    its first [numParticles] entries equals the source entry, and every
    later entry is left as it was. *)
Theorem copy_accel_snapshot (bodyAccel bodyAcceld : list (vec3 float)) (numParticles : Z) :
  length (copy_accel bodyAccel bodyAcceld numParticles) = length bodyAcceld /\
  (forall i : nat,
     (i < Z.to_nat numParticles)%nat ->
     (i < length bodyAccel)%nat -> (i < length bodyAcceld)%nat ->
     copy_accel bodyAccel bodyAcceld numParticles !! i = bodyAccel !! i) /\
  (forall i : nat,
     (Z.to_nat numParticles <= i)%nat ->
     copy_accel bodyAccel bodyAcceld numParticles !! i = bodyAcceld !! i).
Proof.
  unfold copy_accel. split; [apply copy_loop_length|]. split.
  - intros i Hi Ha Hd. by apply copy_loop_lookup.
  - intros i Hi. by apply copy_loop_frame.
Qed.

Lemma L2norm_loop_ext (a d d' : list (vec3 float)) (N : Z) (k : nat) (acc : double) :
  (forall i : nat, (i < k)%nat -> d !! i = d' !! i) ->
  for_range 0 k (L2norm_body a d N) acc = for_range 0 k (L2norm_body a d' N) acc.
Proof.
  intros Hag. induction k as [|k IH]; [done|].
  rewrite !for_range_0_S, IH by (intros i Hi; apply Hag; lia).
  unfold L2norm_body. by rewrite (Hag k) by lia.
Qed.

(** X10. The error metric computed against the snapshot is the metric
    against the array the snapshot was taken from: whatever the reference
    array and the previous contents of the snapshot, [L2norm] of the
    reference and the copy equals [L2norm] of the reference and the copied
    array, provided both arrays hold [numParticles] entries. *)
Theorem L2norm_of_snapshot
    (reference bodyAccel bodyAcceld : list (vec3 float)) (numParticles : Z) :
  (Z.to_nat numParticles <= length bodyAccel)%nat ->
  (Z.to_nat numParticles <= length bodyAcceld)%nat ->
  L2norm reference (copy_accel bodyAccel bodyAcceld numParticles) numParticles =
  L2norm reference bodyAccel numParticles.
Proof.
  intros Ha Hd. unfold L2norm. f_equal.
  apply L2norm_loop_ext. intros i Hi.
  unfold copy_accel. apply copy_loop_lookup; lia.
Qed.

End Harness.

Lemma copy_accel_snapshot_witness :
  copy_accel (M := IEEE.ieee_machine)
    [Vec3.mk (IEEE.f32 1) (IEEE.f32 2) (IEEE.f32 3); Vec3.mk (IEEE.f32 4) (IEEE.f32 5) (IEEE.f32 6)]
    [Vec3.mk S754_nan S754_nan S754_nan; Vec3.mk S754_nan S754_nan S754_nan] 1 !! 0%nat
  = [Vec3.mk (IEEE.f32 1) (IEEE.f32 2) (IEEE.f32 3);
     Vec3.mk (IEEE.f32 4) (IEEE.f32 5) (IEEE.f32 6)] !! 0%nat.
Proof.
  apply (copy_accel_snapshot (M := IEEE.ieee_machine)
           [Vec3.mk (IEEE.f32 1) (IEEE.f32 2) (IEEE.f32 3);
            Vec3.mk (IEEE.f32 4) (IEEE.f32 5) (IEEE.f32 6)]
           [Vec3.mk S754_nan S754_nan S754_nan; Vec3.mk S754_nan S754_nan S754_nan] 1);
    simpl; lia.
Defined.

Lemma L2norm_of_snapshot_witness :
  L2norm (M := IEEE.ieee_machine)
    [Vec3.mk (IEEE.f32 1) (IEEE.f32 2) (IEEE.f32 2)]
    (copy_accel (M := IEEE.ieee_machine)
       [Vec3.mk (IEEE.f32 1) (IEEE.f32 2) (IEEE.f32 3)]
       [Vec3.mk S754_nan S754_nan S754_nan] 1) 1
  = L2norm (M := IEEE.ieee_machine)
      [Vec3.mk (IEEE.f32 1) (IEEE.f32 2) (IEEE.f32 2)]
      [Vec3.mk (IEEE.f32 1) (IEEE.f32 2) (IEEE.f32 3)] 1.
Proof.
  apply (L2norm_of_snapshot (M := IEEE.ieee_machine)
           [Vec3.mk (IEEE.f32 1) (IEEE.f32 2) (IEEE.f32 2)]
           [Vec3.mk (IEEE.f32 1) (IEEE.f32 2) (IEEE.f32 3)]
           [Vec3.mk S754_nan S754_nan S754_nan] 1); simpl; lia.
Defined.

(** ** The renderer helpers *)

Section RendererProperties.
Import IEEE Renderer.

Lemma SFltb_irrefl (v : spec_float) : SFltb v v = false.
Proof.
  destruct v as [[]|[]| |s m e]; try reflexivity.
  unfold SFltb, SFcompare.
  destruct s; rewrite Z.compare_refl, Pos.compare_cont_refl; reflexivity.
Qed.

Lemma std_min_not_above (a b : binary64) : SFltb b (std_min a b) = false.
Proof.
  unfold std_min. destruct (SFltb b a) eqn:E; [apply SFltb_irrefl|exact E].
Qed.

Lemma std_max_keeps_nonneg (a b : binary64) :
  (a = S754_zero false \/ (exists m e, a = S754_finite false m e) \/ a = S754_infinity false) ->
  std_max a b = S754_zero false \/ (exists m e, std_max a b = S754_finite false m e) \/
  std_max a b = S754_infinity false.
Proof.
  intros Ha. unfold std_max. destruct (SFltb a b) eqn:E; [|exact Ha].
  destruct Ha as [->|[(m & e & ->)| ->]];
    destruct b as [[]|[]| |[] m' e']; try discriminate E; eauto.
Qed.

Lemma distance_loop_nonneg (bodies : list (vec4 binary32)) (k : nat) :
  let v := for_range 0 k (distance_body bodies) (lit 53 1024 0 1) in
  v = S754_zero false \/ (exists m e, v = S754_finite false m e) \/ v = S754_infinity false.
Proof.
  induction k as [|k IH]; [by left|].
  cbv zeta in *. rewrite for_range_0_S.
  revert IH. generalize (for_range 0 k (distance_body bodies) (lit 53 1024 0 1)) as v.
  intros v IH. unfold distance_body.
  destruct (bodies !! k); [|exact IH]. by apply std_max_keeps_nonneg.
Qed.

(** X11. The divisor of [calculateScaleFactor] is a positive number or
    +infinity whatever the positions are (NaN and infinite coordinates
    included): it is never NaN, never zero, never negative and never below
    1e-10; and the scale factor returned never exceeds [MAX_SCALE]. *)
Theorem calculateScaleFactor_safe
    (WIDTH HEIGHT : Z) (MAX_SCALE : binary64)
    (bodies : list (vec4 binary32)) (nBodies : Z) :
  is_nan (maxDistance_of bodies nBodies) = false /\
  is_zero (maxDistance_of bodies nBodies) = false /\
  SFltb (maxDistance_of bodies nBodies) (lit 53 1024 0 1) = false /\
  SFltb (maxDistance_of bodies nBodies) (lit 53 1024 1 10000000000) = false /\
  SFltb MAX_SCALE (calculateScaleFactor WIDTH HEIGHT MAX_SCALE bodies nBodies) = false.
Proof.
  split; [|split; [|split; [|split]]]; try apply std_min_not_above;
    unfold maxDistance_of;
    pose proof (distance_loop_nonneg bodies (Z.to_nat nBodies)) as Hv; cbv zeta in Hv;
    destruct (SFltb (for_range 0 (Z.to_nat nBodies) (distance_body bodies) (lit 53 1024 0 1))
                (lit 53 1024 1 10000000000)) eqn:E;
    try reflexivity; try exact E;
    destruct Hv as [Hv|[(m & e & Hv)|Hv]]; rewrite Hv in *;
    try reflexivity; discriminate E.
Qed.

(** X12. Saturation of the colour scale: whenever [mass / 10.0] is not
    below 1 (masses of 10 and more, +infinity, and also a NaN mass, which
    [std::min] replaces by 1), [determineColor] returns exactly
    [Scalar(0, 0, 255)]: the subtraction [1.0 - 0.6] and the division by
    [0.4] are exact in binary64, so green and blue are 0. *)
Theorem determineColor_saturates (mass : binary32) :
  SFltb (SFdiv 53 1024 (round 53 1024 mass) (lit 53 1024 10 1)) (lit 53 1024 1 1) = false ->
  determineColor mass = Scalar3 0 0 255.
Proof.
  intros H. unfold determineColor, std_min. rewrite H. reflexivity.
Qed.

End RendererProperties.

Lemma determineColor_saturates_witness :
  Renderer.determineColor (IEEE.f32 50) = Renderer.Scalar3 0 0 255.
Proof. apply (determineColor_saturates (IEEE.f32 50)). reflexivity. Defined.

(** ** The initial condition generator: footprint *)

Section GeneratorFootprint.
Context {M : Machine}.
Variable Gen : Type.
Variable uniform_real_distribution : float -> float -> Gen -> float * Gen.
Variables fcos fsin : double -> double.

Lemma writes_at_insert (i : nat) (P : list (vec4 float)) (V : list (vec3 float)) (g g' : Gen)
    (p : vec4 float) (v : vec3 float) :
  writes_at i (P, V, g) (<[i := p]> P, <[i := v]> V, g').
Proof.
  unfold writes_at. cbn [fst snd]. rewrite !length_insert.
  split; [reflexivity|split; [reflexivity|]]. intros j Hj.
  rewrite !list_lookup_insert_ne by congruence. split; reflexivity.
Qed.

Lemma writes_at_insert_pos (i : nat) (P : list (vec4 float)) (V : list (vec3 float))
    (g g' : Gen) (p : vec4 float) :
  writes_at i (P, V, g) (<[i := p]> P, V, g').
Proof.
  unfold writes_at. cbn [fst snd]. rewrite !length_insert.
  split; [reflexivity|split; [reflexivity|]]. intros j Hj.
  rewrite !list_lookup_insert_ne by congruence. split; reflexivity.
Qed.

Lemma random_body_writes_at (i : nat) (st : arrays Gen) :
  writes_at i st (random_body Gen uniform_real_distribution i st).
Proof.
  destruct st as [[P V] g]. unfold random_body. cbv beta zeta.
  repeat match goal with
         | |- context [uniform_real_distribution ?a ?b ?g] =>
             destruct (uniform_real_distribution a b g)
         end.
  first [apply writes_at_insert|apply writes_at_insert_pos].
Qed.

Lemma spiral_body_writes_at (i : nat) (st : arrays Gen) :
  writes_at i st (spiral_body Gen uniform_real_distribution fcos fsin i st).
Proof.
  destruct st as [[P V] g]. unfold spiral_body. cbv beta zeta.
  repeat match goal with
         | |- context [uniform_real_distribution ?a ?b ?g] =>
             destruct (uniform_real_distribution a b g)
         end.
  match goal with |- context [match ?l !! 0%nat with _ => _ end] => destruct (l !! 0%nat) end;
    first [apply writes_at_insert|apply writes_at_insert_pos].
Qed.

Lemma planet_body_writes_at (i : nat) (st : arrays Gen) :
  writes_at i st (planet_body Gen uniform_real_distribution fcos fsin i st).
Proof.
  destruct st as [[P V] g]. unfold planet_body. cbv beta zeta.
  repeat match goal with
         | |- context [uniform_real_distribution ?a ?b ?g] =>
             destruct (uniform_real_distribution a b g)
         end.
  match goal with |- context [match ?l !! 0%nat with _ => _ end] => destruct (l !! 0%nat) end;
    [match goal with |- context [match ?l !! 1%nat with _ => _ end] => destruct (l !! 1%nat) end|];
    first [apply writes_at_insert|apply writes_at_insert_pos].
Qed.

Lemma debris_body_writes_at (i : nat) (st : arrays Gen) :
  writes_at i st (debris_body Gen uniform_real_distribution fcos fsin i st).
Proof.
  destruct st as [[P V] g]. unfold debris_body. cbv beta zeta.
  repeat match goal with
         | |- context [uniform_real_distribution ?a ?b ?g] =>
             destruct (uniform_real_distribution a b g)
         end.
  match goal with |- context [match ?l !! 0%nat with _ => _ end] => destruct (l !! 0%nat) end;
    first [apply writes_at_insert|apply writes_at_insert_pos].
Qed.

Lemma writes_at_refl (i : nat) (st : arrays Gen) : writes_at i st st.
Proof. unfold writes_at. repeat split. Qed.

Lemma solar_planet_body_writes_at (i : nat) (st : arrays Gen) :
  writes_at (S i) st (solar_planet_body Gen fcos fsin i st).
Proof.
  destruct st as [[P V] g]. unfold solar_planet_body.
  destruct (planetRadii !! i); [|apply writes_at_refl].
  destruct (planetMasses !! i); [|apply writes_at_refl].
  cbv beta zeta.
  match goal with |- context [match ?l !! 0%nat with _ => _ end] => destruct (l !! 0%nat) end;
    first [apply writes_at_insert|apply writes_at_insert_pos].
Qed.

Lemma untouched_outside_refl (lo hi : nat) (st : arrays Gen) : untouched_outside lo hi st st.
Proof. unfold untouched_outside. repeat split. Qed.

Lemma untouched_outside_step (lo hi k : nat) (st s s' : arrays Gen) :
  (lo <= k < hi)%nat ->
  untouched_outside lo hi st s -> writes_at k s s' -> untouched_outside lo hi st s'.
Proof.
  intros Hk (Lp & Lv & Hs) (Lp' & Lv' & Hs').
  unfold untouched_outside.
  split; [by rewrite Lp'|]. split; [by rewrite Lv'|].
  intros j Hj. destruct (Hs' j ltac:(lia)) as [Ep Ev]. destruct (Hs j Hj) as [Ep' Ev'].
  by rewrite Ep, Ev.
Qed.

Lemma untouched_outside_trans (lo hi : nat) (st s s' : arrays Gen) :
  untouched_outside lo hi st s -> untouched_outside lo hi s s' ->
  untouched_outside lo hi st s'.
Proof.
  intros (Lp & Lv & Hs) (Lp' & Lv' & Hs').
  unfold untouched_outside.
  split; [by rewrite Lp'|]. split; [by rewrite Lv'|].
  intros j Hj. destruct (Hs' j Hj) as [Ep Ev]. destruct (Hs j Hj) as [Ep' Ev'].
  by rewrite Ep, Ev.
Qed.

Lemma untouched_outside_weaken (lo hi lo' hi' : nat) (st s : arrays Gen) :
  (lo' <= lo)%nat -> (hi <= hi')%nat ->
  untouched_outside lo hi st s -> untouched_outside lo' hi' st s.
Proof.
  intros Hlo Hhi (Lp & Lv & Hs). unfold untouched_outside.
  split; [exact Lp|]. split; [exact Lv|]. intros j Hj. apply Hs. lia.
Qed.

Lemma for_range_untouched (lo n d : nat) (body : nat -> arrays Gen -> arrays Gen)
    (st : arrays Gen) :
  (lo <= n)%nat ->
  (forall i s, writes_at (i + d) s (body i s)) ->
  untouched_outside (lo + d) (n + d) st (for_range lo n body st).
Proof.
  intros Hle Hbody.
  apply (for_range_invariant
           (fun k s => untouched_outside (lo + d) (n + d) st s) lo n body st Hle).
  - apply untouched_outside_refl.
  - intros i s Hi Hs.
    apply (untouched_outside_step (lo + d) (n + d) (i + d) st s); [lia|exact Hs|apply Hbody].
Qed.

Lemma untouched_outside_insert (k lo hi : nat) (P : list (vec4 float)) (V : list (vec3 float))
    (g : Gen) (p : vec4 float) (v : vec3 float) :
  (lo <= k < hi)%nat ->
  untouched_outside lo hi (P, V, g) (<[k := p]> P, <[k := v]> V, g).
Proof.
  intros Hk.
  apply (untouched_outside_step lo hi k (P, V, g) (P, V, g)); [exact Hk| |].
  - apply untouched_outside_refl.
  - apply writes_at_insert.
Qed.

(** The footprint of each configuration, for an array bound [n] that is
    large enough for the fixed part of the configuration. *)
Lemma initializeParticles_untouched
    (bodyPos : list (vec4 float)) (bodyVel : list (vec3 float))
    (type : SimulationType) (gen : Gen) :
  untouched_outside 0 (Z.to_nat NUM_PARTICLES) (bodyPos, bodyVel, gen)
    (initializeParticles Gen uniform_real_distribution fcos fsin bodyPos bodyVel type gen).
Proof.
  assert (HN : (10 <= Z.to_nat NUM_PARTICLES)%nat) by (vm_compute; lia).
  unfold initializeParticles. revert HN. generalize (Z.to_nat NUM_PARTICLES) as n.
  intros n HN. cbv zeta. destruct type.
  - apply (untouched_outside_weaken (0 + 0) (n + 0)); [lia|lia|].
    apply for_range_untouched; [lia|].
    intros i s. rewrite Nat.add_0_r. apply random_body_writes_at.
  - eapply untouched_outside_trans; [apply (untouched_outside_insert 0); lia|].
    apply (untouched_outside_weaken (1 + 0) (n + 0)); [lia|lia|].
    apply for_range_untouched; [lia|].
    intros i s. rewrite Nat.add_0_r. apply spiral_body_writes_at.
  - eapply untouched_outside_trans; [apply (untouched_outside_insert 0); lia|].
    eapply untouched_outside_trans; [apply (untouched_outside_insert 1); lia|].
    apply (untouched_outside_weaken (2 + 0) (n + 0)); [lia|lia|].
    apply for_range_untouched; [lia|].
    intros i s. rewrite Nat.add_0_r. apply planet_body_writes_at.
  - eapply untouched_outside_trans; [apply (untouched_outside_insert 0); lia|].
    eapply untouched_outside_trans.
    + apply (untouched_outside_weaken (0 + 1) (9 + 1)); [lia|lia|].
      apply for_range_untouched; [lia|].
      intros i s. rewrite Nat.add_1_r. apply solar_planet_body_writes_at.
    + apply (untouched_outside_weaken (10 + 0) (n + 0)); [lia|lia|].
      apply for_range_untouched; [lia|].
      intros i s. rewrite Nat.add_0_r. apply debris_body_writes_at.
Qed.

(** X13. Whatever the configuration and the random draws, the generator
    stays inside the first [NUM_PARTICLES] entries: both arrays keep their
    lengths and every entry at an index of [NUM_PARTICLES] or more is left
    as it was. *)
Theorem initializeParticles_bounds
    (bodyPos : list (vec4 float)) (bodyVel : list (vec3 float))
    (type : SimulationType) (gen : Gen) :
  let st := initializeParticles Gen uniform_real_distribution fcos fsin
              bodyPos bodyVel type gen in
  length (fst (fst st)) = length bodyPos /\
  length (snd (fst st)) = length bodyVel /\
  forall i : nat, (Z.to_nat NUM_PARTICLES <= i)%nat ->
    fst (fst st) !! i = bodyPos !! i /\ snd (fst st) !! i = bodyVel !! i.
Proof.
  intros st.
  destruct (initializeParticles_untouched bodyPos bodyVel type gen) as (Lp & Lv & Hs).
  split; [exact Lp|]. split; [exact Lv|]. intros i Hi. apply Hs. by right.
Qed.

End GeneratorFootprint.

Lemma initializeParticles_bounds_witness :
  fst (fst (initializeParticles (M := IEEE.ieee_machine) unit
              (fun a _ g => (a, g)) (fun v => v) (fun v => v)
              (replicate 1001 (Vec4.mk S754_nan S754_nan S754_nan S754_nan))
              (replicate 1001 (Vec3.mk S754_nan S754_nan S754_nan))
              SOLAR_SYSTEM tt)) !! 1000%nat
  = replicate 1001 (Vec4.mk S754_nan S754_nan S754_nan S754_nan) !! 1000%nat.
Proof.
  apply (initializeParticles_bounds (M := IEEE.ieee_machine) unit
           (fun a _ g => (a, g)) (fun v => v) (fun v => v)
           (replicate 1001 (Vec4.mk S754_nan S754_nan S754_nan S754_nan))
           (replicate 1001 (Vec3.mk S754_nan S754_nan S754_nan))
           SOLAR_SYSTEM tt).
  vm_compute. lia.
Defined.

(** ** The initial condition generator: generated values *)

Section GeneratorMasses.
Import IEEE.
Variable Gen : Type.
Variable uniform_real_distribution : binary32 -> binary32 -> Gen -> binary32 * Gen.
Variables fcos fsin : binary64 -> binary64.

(** Contract of the library distribution used here: a draw from
    [uniform_real_distribution a b] with [a <= b] is at least [a]. *)
Hypothesis draw_at_least :
  forall (a b : binary32) (g : Gen),
    SFleb a b = true -> SFleb a (fst (uniform_real_distribution a b g)) = true.

Lemma SFltb_zero_of_lower (lo v : spec_float) :
  SFltb (f32 0) lo = true -> SFleb lo v = true -> SFltb (f32 0) v = true.
Proof.
  destruct lo as [[]|[]| |[] m e], v as [[]|[]| |[] m' e']; try discriminate; reflexivity.
Qed.

Lemma bodies_below_0 (Q : vec4 binary32 -> Prop) (st : arrays (M := ieee_machine) Gen) :
  bodies_below Q 0 st.
Proof. intros i p Hi. lia. Qed.

Lemma bodies_below_insert (Q : vec4 binary32 -> Prop) (k : nat)
    (P : list (vec4 binary32)) (V V' : list (vec3 binary32)) (g g' : Gen) (b : vec4 binary32) :
  bodies_below (Gen := Gen) Q k (P, V, g) -> Q b ->
  bodies_below (Gen := Gen) Q (S k) (<[k := b]> P, V', g').
Proof.
  intros HP Hb i p Hi Hp. cbn [fst snd] in Hp.
  destruct (Nat.eq_dec i k) as [->|Hne].
  - destruct (Nat.lt_ge_cases k (length P)) as [Hlt|Hge].
    + rewrite list_lookup_insert_eq in Hp by exact Hlt. by injection Hp as <-.
    + rewrite list_insert_ge in Hp by exact Hge. apply lookup_lt_Some in Hp. lia.
  - rewrite list_lookup_insert_ne in Hp by congruence.
    apply (HP i p); [lia|exact Hp].
Qed.

Lemma planet_mass_positive (i : nat) (mass : binary32) :
  planetMasses (M := ieee_machine) !! i = Some mass ->
  SFltb (f32 0)
    (round 24 128
       (SFadd 53 1024 (lit 53 1024 1 2)
          (SFmul 53 1024 (round 53 1024 mass) (lit 53 1024 1 10)))) = true.
Proof.
  intros Hm.
  do 9 (destruct i as [|i]; [vm_compute in Hm; injection Hm as <-; reflexivity|]).
  vm_compute in Hm. discriminate.
Qed.

Ltac draw_all :=
  repeat match goal with
         | |- context [uniform_real_distribution ?a ?b ?g] =>
             let H := fresh "Hdraw" in destruct (uniform_real_distribution a b g) eqn:H
         end.

Ltac drawn_mass_positive :=
  unfold positive_mass; cbn [Vec4.w];
  match goal with
  | H : uniform_real_distribution ?a ?b ?g = (?pw, _) |- SFltb _ ?pw = true =>
      let Hlow := fresh "Hlow" in
      pose proof (draw_at_least a b g eq_refl) as Hlow;
      rewrite H in Hlow; cbn [fst] in Hlow;
      exact (SFltb_zero_of_lower a pw eq_refl Hlow)
  end.

Lemma random_body_masses (k : nat) (st : arrays (M := ieee_machine) Gen) :
  bodies_below positive_mass k st ->
  bodies_below positive_mass (S k)
    (random_body (M := ieee_machine) Gen uniform_real_distribution k st).
Proof.
  intros Hst. destruct st as [[P V] g]. unfold random_body. cbv beta zeta. draw_all.
  apply bodies_below_insert with (V := V) (g := g); [exact Hst|]. drawn_mass_positive.
Qed.

Lemma spiral_body_masses (k : nat) (st : arrays (M := ieee_machine) Gen) :
  bodies_below positive_mass k st ->
  bodies_below positive_mass (S k)
    (spiral_body (M := ieee_machine) Gen uniform_real_distribution fcos fsin k st).
Proof.
  intros Hst. destruct st as [[P V] g]. unfold spiral_body. cbv beta zeta. draw_all.
  match goal with |- context [match ?l !! 0%nat with _ => _ end] => destruct (l !! 0%nat) end;
    (apply bodies_below_insert with (V := V) (g := g); [exact Hst|]; drawn_mass_positive).
Qed.

Lemma planet_body_masses (k : nat) (st : arrays (M := ieee_machine) Gen) :
  bodies_below positive_mass k st ->
  bodies_below positive_mass (S k)
    (planet_body (M := ieee_machine) Gen uniform_real_distribution fcos fsin k st).
Proof.
  intros Hst. destruct st as [[P V] g]. unfold planet_body. cbv beta zeta. draw_all.
  match goal with |- context [match ?l !! 0%nat with _ => _ end] => destruct (l !! 0%nat) end;
    [match goal with |- context [match ?l !! 1%nat with _ => _ end] => destruct (l !! 1%nat) end|];
    (apply bodies_below_insert with (V := V) (g := g); [exact Hst|]; drawn_mass_positive).
Qed.

Lemma debris_body_masses (k : nat) (st : arrays (M := ieee_machine) Gen) :
  bodies_below positive_mass k st ->
  bodies_below positive_mass (S k)
    (debris_body (M := ieee_machine) Gen uniform_real_distribution fcos fsin k st).
Proof.
  intros Hst. destruct st as [[P V] g]. unfold debris_body. cbv beta zeta. draw_all.
  match goal with |- context [match ?l !! 0%nat with _ => _ end] => destruct (l !! 0%nat) end;
    (apply bodies_below_insert with (V := V) (g := g); [exact Hst|]; drawn_mass_positive).
Qed.

Lemma solar_planet_body_masses (k : nat) (st : arrays (M := ieee_machine) Gen) :
  (k < 9)%nat ->
  bodies_below positive_mass (S k) st ->
  bodies_below positive_mass (S (S k))
    (solar_planet_body (M := ieee_machine) Gen fcos fsin k st).
Proof.
  intros Hk Hst. destruct st as [[P V] g]. unfold solar_planet_body.
  destruct (planetRadii !! k) as [radius|] eqn:Hr.
  2:{ apply lookup_ge_None in Hr. vm_compute in Hr. lia. }
  destruct (planetMasses !! k) as [mass|] eqn:Hm.
  2:{ apply lookup_ge_None in Hm. vm_compute in Hm. lia. }
  cbv beta zeta.
  match goal with |- context [match ?l !! 0%nat with _ => _ end] => destruct (l !! 0%nat) end;
    (apply bodies_below_insert with (V := V) (g := g); [exact Hst|];
     unfold positive_mass; cbn [Vec4.w]; exact (planet_mass_positive k mass Hm)).
Qed.

Lemma initializeParticles_masses
    (bodyPos : list (vec4 binary32)) (bodyVel : list (vec3 binary32))
    (type : SimulationType) (gen : Gen) (n : nat) :
  (10 <= n)%nat ->
  let f0 := round 24 128 (lit 53 1024 0 1) in
  bodies_below positive_mass n
    match type with
    | RANDOM =>
        for_range 0 n (random_body (M := ieee_machine) Gen uniform_real_distribution)
          (bodyPos, bodyVel, gen)
    | SPIRAL_GALAXY =>
        for_range 1 n (spiral_body (M := ieee_machine) Gen uniform_real_distribution fcos fsin)
          (<[0%nat := Vec4.mk f0 f0 f0 (round 24 128 (lit 53 1024 100 1))]> bodyPos,
           <[0%nat := Vec3.mk f0 f0 f0]> bodyVel, gen)
    | BINARY_SYSTEM =>
        for_range 2 n (planet_body (M := ieee_machine) Gen uniform_real_distribution fcos fsin)
          (<[1%nat := Vec4.mk (round 24 128 (lit 53 1024 2 1)) f0 f0
                              (round 24 128 (lit 53 1024 50 1))]>
             (<[0%nat := Vec4.mk (round 24 128 (SFopp (lit 53 1024 2 1))) f0 f0
                                 (round 24 128 (lit 53 1024 50 1))]> bodyPos),
           <[1%nat := Vec3.mk f0 (round 24 128 (lit 53 1024 1 1)) f0]>
             (<[0%nat := Vec3.mk f0 (round 24 128 (SFopp (lit 53 1024 1 1))) f0]> bodyVel),
           gen)
    | SOLAR_SYSTEM =>
        for_range 10 n (debris_body (M := ieee_machine) Gen uniform_real_distribution fcos fsin)
          (for_range 0 9 (solar_planet_body (M := ieee_machine) Gen fcos fsin)
             (<[0%nat := Vec4.mk f0 f0 f0 (round 24 128 (lit 53 1024 50 1))]> bodyPos,
              <[0%nat := Vec3.mk f0 f0 f0]> bodyVel, gen))
    end.
Proof.
  intros Hn f0. destruct type.
  - apply (for_range_invariant (bodies_below positive_mass)); [lia|apply bodies_below_0|].
    intros i s _. apply random_body_masses.
  - apply (for_range_invariant (bodies_below positive_mass)); [lia| |].
    + apply bodies_below_insert with (V := bodyVel) (g := gen);
        [apply bodies_below_0|reflexivity].
    + intros i s _. apply spiral_body_masses.
  - apply (for_range_invariant (bodies_below positive_mass)); [lia| |].
    + apply bodies_below_insert
        with (V := <[0%nat := Vec3.mk f0 (round 24 128 (SFopp (lit 53 1024 1 1))) f0]> bodyVel)
             (g := gen); [|reflexivity].
      apply bodies_below_insert with (V := bodyVel) (g := gen);
        [apply bodies_below_0|reflexivity].
    + intros i s _. apply planet_body_masses.
  - apply (for_range_invariant (bodies_below positive_mass)); [lia| |].
    + apply (for_range_invariant (fun k s => bodies_below positive_mass (S k) s)); [lia| |].
      * apply bodies_below_insert with (V := bodyVel) (g := gen);
          [apply bodies_below_0|reflexivity].
      * intros i s Hi. apply solar_planet_body_masses. lia.
    + intros i s _. apply debris_body_masses.
Qed.

(** X14. In each of the four configurations every body the generator
    produces has a mass greater than zero, provided the library
    distribution never returns a value below its lower bound. *)
Theorem initializeParticles_masses_positive
    (bodyPos : list (vec4 binary32)) (bodyVel : list (vec3 binary32))
    (type : SimulationType) (gen : Gen) (i : nat) (p : vec4 binary32) :
  (i < Z.to_nat NUM_PARTICLES)%nat ->
  fst (fst (initializeParticles (M := ieee_machine) Gen uniform_real_distribution fcos fsin
              bodyPos bodyVel type gen)) !! i = Some p ->
  SFltb (f32 0) (Vec4.w p) = true.
Proof.
  intros Hi Hp.
  assert (HN : (10 <= Z.to_nat NUM_PARTICLES)%nat) by (vm_compute; lia).
  pose proof (initializeParticles_masses bodyPos bodyVel type gen
                (Z.to_nat NUM_PARTICLES) HN) as H.
  cbv zeta in H. apply (H i p Hi). rewrite <- Hp.
  unfold initializeParticles. by destruct type.
Qed.

End GeneratorMasses.

Lemma initializeParticles_masses_positive_witness :
  SFltb (IEEE.f32 0)
    (Vec4.w (Vec4.mk (IEEE.f32 (-10)) (IEEE.f32 (-10)) (IEEE.f32 (-10)) (IEEE.lit 24 128 1 10)))
  = true.
Proof.
  apply (initializeParticles_masses_positive unit (fun a _ g => (a, g))
           (fun v => v) (fun v => v)
           (fun a b g Hab => SFleb_lower_refl a b Hab)
           (replicate 1000 (Vec4.mk S754_nan S754_nan S754_nan S754_nan))
           (replicate 1000 (Vec3.mk S754_nan S754_nan S754_nan))
           RANDOM tt 5).
  - vm_compute. lia.
  - vm_compute. reflexivity.
Defined.

Section GeneratorCentres.
Import IEEE.
Variable Gen : Type.
Variable uniform_real_distribution : binary32 -> binary32 -> Gen -> binary32 * Gen.
Variables fcos fsin : binary64 -> binary64.

(** X15. With arrays of at least one body, the spiral-galaxy configuration
    leaves body 0 at the origin with mass 100 and at rest, and the
    solar-system configuration leaves body 0 at the origin with mass 50 and
    at rest: none of the loops that follow overwrites the central body. *)
Theorem initializeParticles_central_body
    (bodyPos : list (vec4 binary32)) (bodyVel : list (vec3 binary32)) (gen : Gen) :
  (1 <= length bodyPos)%nat -> (1 <= length bodyVel)%nat ->
  let spiral := initializeParticles (M := ieee_machine) Gen uniform_real_distribution
                  fcos fsin bodyPos bodyVel SPIRAL_GALAXY gen in
  let solar := initializeParticles (M := ieee_machine) Gen uniform_real_distribution
                 fcos fsin bodyPos bodyVel SOLAR_SYSTEM gen in
  fst (fst spiral) !! 0%nat = Some (Vec4.mk (f32 0) (f32 0) (f32 0) (f32 100)) /\
  snd (fst spiral) !! 0%nat = Some (Vec3.mk (f32 0) (f32 0) (f32 0)) /\
  fst (fst solar) !! 0%nat = Some (Vec4.mk (f32 0) (f32 0) (f32 0) (f32 50)) /\
  snd (fst solar) !! 0%nat = Some (Vec3.mk (f32 0) (f32 0) (f32 0)).
Proof.
  intros HP HV spiral solar.
  assert (HN : (10 <= Z.to_nat NUM_PARTICLES)%nat) by (vm_compute; lia).
  unfold spiral, solar, initializeParticles.
  revert HN. generalize (Z.to_nat NUM_PARTICLES) as n. intros n HN. cbv zeta.
  split; [|split; [|split]].
  - etrans.
    { apply (for_range_untouched (M := ieee_machine) Gen 1 n 0); [lia| |lia].
      intros i s. rewrite Nat.add_0_r. apply spiral_body_writes_at. }
    cbn [fst snd]. etrans; [apply list_lookup_insert_eq; exact HP|]. reflexivity.
  - etrans.
    { apply (for_range_untouched (M := ieee_machine) Gen 1 n 0); [lia| |lia].
      intros i s. rewrite Nat.add_0_r. apply spiral_body_writes_at. }
    cbn [fst snd]. etrans; [apply list_lookup_insert_eq; exact HV|]. reflexivity.
  - etrans.
    { apply (for_range_untouched (M := ieee_machine) Gen 10 n 0); [lia| |lia].
      intros i s. rewrite Nat.add_0_r. apply debris_body_writes_at. }
    etrans.
    { apply (for_range_untouched (M := ieee_machine) Gen 0 9 1); [lia| |lia].
      intros i s. rewrite Nat.add_1_r. apply solar_planet_body_writes_at. }
    cbn [fst snd]. etrans; [apply list_lookup_insert_eq; exact HP|]. reflexivity.
  - etrans.
    { apply (for_range_untouched (M := ieee_machine) Gen 10 n 0); [lia| |lia].
      intros i s. rewrite Nat.add_0_r. apply debris_body_writes_at. }
    etrans.
    { apply (for_range_untouched (M := ieee_machine) Gen 0 9 1); [lia| |lia].
      intros i s. rewrite Nat.add_1_r. apply solar_planet_body_writes_at. }
    cbn [fst snd]. etrans; [apply list_lookup_insert_eq; exact HV|]. reflexivity.
Qed.

End GeneratorCentres.

Lemma initializeParticles_central_body_witness :
  fst (fst (initializeParticles (M := IEEE.ieee_machine) unit
              (fun a _ g => (a, g)) (fun v => v) (fun v => v)
              (replicate 1000 (Vec4.mk S754_nan S754_nan S754_nan S754_nan))
              (replicate 1000 (Vec3.mk S754_nan S754_nan S754_nan))
              SPIRAL_GALAXY tt)) !! 0%nat
  = Some (Vec4.mk (IEEE.f32 0) (IEEE.f32 0) (IEEE.f32 0) (IEEE.f32 100)).
Proof.
  apply (initializeParticles_central_body unit (fun a _ g => (a, g))
           (fun v => v) (fun v => v)
           (replicate 1000 (Vec4.mk S754_nan S754_nan S754_nan S754_nan))
           (replicate 1000 (Vec3.mk S754_nan S754_nan S754_nan)) tt).
  - rewrite length_replicate. lia.
  - rewrite length_replicate. lia.
Defined.

Section GeneratorRandom.
Import IEEE.
Variable Gen : Type.
Variable uniform_real_distribution : binary32 -> binary32 -> Gen -> binary32 * Gen.
Variables fcos fsin : binary64 -> binary64.

(** Contract of the library distribution used here: a draw from
    [uniform_real_distribution a b] with [a <= b] lies between [a] and [b]. *)
Hypothesis draw_within :
  forall (a b : binary32) (g : Gen),
    SFleb a b = true ->
    SFleb a (fst (uniform_real_distribution a b g)) = true /\
    SFleb (fst (uniform_real_distribution a b g)) b = true.

Lemma random_body_box (k : nat) (st : arrays (M := ieee_machine) Gen) :
  bodies_below in_random_box k st ->
  bodies_below in_random_box (S k)
    (random_body (M := ieee_machine) Gen uniform_real_distribution k st).
Proof.
  intros Hst. destruct st as [[P V] g]. unfold random_body. cbv beta zeta.
  repeat match goal with
         | |- context [uniform_real_distribution ?a ?b ?g] =>
             let H := fresh "Hdraw" in
             let Hr := fresh "Hr" in
             pose proof (draw_within a b g eq_refl) as Hr;
             destruct (uniform_real_distribution a b g) eqn:H; cbn [fst] in Hr
         end.
  apply bodies_below_insert with (V := V) (g := g); [exact Hst|].
  unfold in_random_box. cbn [Vec4.x Vec4.y Vec4.z Vec4.w].
  split; [|split; [|split]];
    match goal with
    | H : SFleb _ ?v = true /\ SFleb ?v _ = true |- SFleb _ ?v = true /\ _ => exact H
    end.
Qed.

(** X16. In the random configuration every generated body lies in the cube
    [-10, 10]^3 and has a mass between 0.1 and 1, provided the library
    distribution returns values between its two bounds. *)
Theorem initializeParticles_random_box
    (bodyPos : list (vec4 binary32)) (bodyVel : list (vec3 binary32)) (gen : Gen)
    (i : nat) (p : vec4 binary32) :
  (i < Z.to_nat NUM_PARTICLES)%nat ->
  fst (fst (initializeParticles (M := ieee_machine) Gen uniform_real_distribution
              fcos fsin bodyPos bodyVel RANDOM gen)) !! i = Some p ->
  in_random_box p.
Proof.
  intros Hi Hp. unfold initializeParticles in Hp. cbv zeta in Hp.
  revert Hi Hp. generalize (Z.to_nat NUM_PARTICLES) as n. intros n Hi Hp.
  refine (for_range_invariant (bodies_below in_random_box) 0 n _ (bodyPos, bodyVel, gen)
            _ _ _ i p Hi Hp); [lia|intros j q Hj; lia|].
  intros j s _. apply random_body_box.
Qed.

End GeneratorRandom.

Lemma initializeParticles_random_box_witness :
  in_random_box
    (Vec4.mk (IEEE.f32 (-10)) (IEEE.f32 (-10)) (IEEE.f32 (-10)) (IEEE.lit 24 128 1 10)).
Proof.
  apply (initializeParticles_random_box unit (fun a _ g => (a, g))
           (fun v => v) (fun v => v)
           (fun a b g Hab => conj (SFleb_lower_refl a b Hab) Hab)
           (replicate 1000 (Vec4.mk S754_nan S754_nan S754_nan S754_nan))
           (replicate 1000 (Vec3.mk S754_nan S754_nan S754_nan))
           tt 5).
  - vm_compute. lia.
  - vm_compute. reflexivity.
Defined.

(** ** Motion of the centre of mass, in exact arithmetic *)

Section CentreOfMass.
Import Reference.
Local Open Scope R_scope.

Lemma update_loop_position (c4 : vec4 R -> R) (c3 : vec3 R -> R)
    (bodyPos : list (vec4 R)) (bodyVel bodyAccel : list (vec3 R)) (n k : nat) :
  (forall p v, c4 (update_pos (M := Exact.exact_machine) p v) = c4 p + c3 v * (1 / 100)) ->
  (n <= k)%nat ->
  (n <= length bodyPos)%nat -> (n <= length bodyVel)%nat -> (n <= length bodyAccel)%nat ->
  Rsum n (fun i =>
    Vec4.w (body_at (fst (for_range 0 k (update_body (M := Exact.exact_machine) bodyAccel)
                            (bodyPos, bodyVel))) i) *
    c4 (body_at (fst (for_range 0 k (update_body (M := Exact.exact_machine) bodyAccel)
                        (bodyPos, bodyVel))) i)) =
  Rsum n (fun i => Vec4.w (body_at bodyPos i) * c4 (body_at bodyPos i)) +
  (1 / 100) *
  Rsum n (fun i =>
    Vec4.w (body_at (fst (for_range 0 k (update_body (M := Exact.exact_machine) bodyAccel)
                            (bodyPos, bodyVel))) i) *
    c3 (vec_at (snd (for_range 0 k (update_body (M := Exact.exact_machine) bodyAccel)
                       (bodyPos, bodyVel))) i)).
Proof.
  intros Hc Hk Hp Hv Ha.
  rewrite <- Rsum_scal_l, <- Rsum_plus. apply Rsum_ext. intros i Hi.
  destruct (lookup_lt_is_Some_2 bodyPos i ltac:(lia)) as [p Ep].
  destruct (lookup_lt_is_Some_2 bodyVel i ltac:(lia)) as [v Ev].
  destruct (lookup_lt_is_Some_2 bodyAccel i ltac:(lia)) as [a Ea].
  destruct (update_loop_lookup (M := Exact.exact_machine)
              bodyPos bodyVel bodyAccel k i p v a Ep Ev Ea) as [Hp' Hv'].
  rewrite (proj2 (Nat.ltb_lt i k) ltac:(lia)) in Hp', Hv'.
  unfold body_at, vec_at.
  change (@float Exact.exact_machine) with R in *.
  rewrite Hp', Hv', Ep. simpl. rewrite Hc. ring.
Qed.

Lemma frame_position (bodyPos : list (vec4 R)) (bodyVel bodyAccel : list (vec3 R)) (n : nat) :
  Z.of_nat n = NUM_PARTICLES ->
  (n <= length bodyPos)%nat -> (n <= length bodyVel)%nat -> (n <= length bodyAccel)%nat ->
  mass_weighted_position
    (fst (fst (frame (M := Exact.exact_machine) (bodyPos, bodyVel, bodyAccel)))) n =
  Vec3.mk
    (Vec3.x (mass_weighted_position bodyPos n) +
     1 / 100 * Vec3.x (mass_weighted_sum bodyPos bodyVel n))
    (Vec3.y (mass_weighted_position bodyPos n) +
     1 / 100 * Vec3.y (mass_weighted_sum bodyPos bodyVel n))
    (Vec3.z (mass_weighted_position bodyPos n) +
     1 / 100 * Vec3.z (mass_weighted_sum bodyPos bodyVel n)).
Proof.
  intros HN Hp Hv Ha.
  rewrite (frame_unfold (M := Exact.exact_machine)).
  unfold updateParticles. rewrite <- HN, Nat2Z.id.
  pose proof (evaluate_then_update_momentum bodyPos bodyVel bodyAccel n n
                (le_n n) Hp Hv Ha) as Hmom.
  pose proof (calculateAccelerations_length (M := Exact.exact_machine)
                bodyPos bodyAccel (Z.of_nat n)) as Hlen.
  revert Hmom Hlen.
  generalize (calculateAccelerations (M := Exact.exact_machine) bodyPos bodyAccel (Z.of_nat n))
    as A.
  intros A Hmom Hlen.
  assert (HA : (n <= length A)%nat) by (rewrite Hlen; exact Ha).
  unfold mass_weighted_sum in Hmom. injection Hmom as Mx My Mz.
  unfold mass_weighted_position, mass_weighted_sum. cbn [fst snd Vec3.x Vec3.y Vec3.z].
  f_equal.
  - etrans; [exact (update_loop_position Vec4.x Vec3.x bodyPos bodyVel A n n
                      ltac:(reflexivity) (le_n n) Hp Hv HA)|].
    f_equal. f_equal. exact Mx.
  - etrans; [exact (update_loop_position Vec4.y Vec3.y bodyPos bodyVel A n n
                      ltac:(reflexivity) (le_n n) Hp Hv HA)|].
    f_equal. f_equal. exact My.
  - etrans; [exact (update_loop_position Vec4.z Vec3.z bodyPos bodyVel A n n
                      ltac:(reflexivity) (le_n n) Hp Hv HA)|].
    f_equal. f_equal. exact Mz.
Qed.

Lemma frames_position (m n : nat)
    (st : list (vec4 R) * list (vec3 R) * list (vec3 R)) :
  Z.of_nat n = NUM_PARTICLES ->
  (n <= length (fst (fst st)))%nat -> (n <= length (snd (fst st)))%nat ->
  (n <= length (snd st))%nat ->
  mass_weighted_position
    (fst (fst (for_range 0 m (fun _ => frame (M := Exact.exact_machine)) st))) n =
  Vec3.mk
    (Vec3.x (mass_weighted_position (fst (fst st)) n) +
     INR m * (1 / 100) * Vec3.x (mass_weighted_sum (fst (fst st)) (snd (fst st)) n))
    (Vec3.y (mass_weighted_position (fst (fst st)) n) +
     INR m * (1 / 100) * Vec3.y (mass_weighted_sum (fst (fst st)) (snd (fst st)) n))
    (Vec3.z (mass_weighted_position (fst (fst st)) n) +
     INR m * (1 / 100) * Vec3.z (mass_weighted_sum (fst (fst st)) (snd (fst st)) n)).
Proof.
  intros HN Hp Hv Ha. induction m as [|m IH].
  - rewrite for_range_0_0. simpl INR.
    unfold mass_weighted_position. cbn [Vec3.x Vec3.y Vec3.z].
    change (@float Exact.exact_machine) with R in *.
    apply (f_equal3 Vec3.mk); ring.
  - rewrite for_range_0_S.
    pose proof (frames_momentum m n st HN Hp Hv Ha) as Hmom.
    destruct (frames_masses_lengths (M := Exact.exact_machine) m st) as (Ew & Ev & Ea).
    apply (f_equal length) in Ew. rewrite !length_fmap in Ew.
    destruct (for_range 0 m (fun _ => frame (M := Exact.exact_machine)) st) as [[P V] A].
    cbn [fst snd] in *.
    change (@float Exact.exact_machine) with R in *.
    rewrite frame_position by (try exact HN; lia).
    rewrite IH, Hmom. rewrite S_INR. cbn [Vec3.x Vec3.y Vec3.z].
    apply (f_equal3 Vec3.mk); ring.
Qed.

(** X17. In exact arithmetic the centre of mass moves in a straight line at
    constant velocity over the whole run: after the [NUM_FRAMES] frames of
    the simulation loop of [main], the mass-weighted position sum of the
    [NUM_PARTICLES] bodies is the initial one plus
    [NUM_FRAMES * TIME_STEP] times the initial total momentum. *)
Theorem simulate_centre_of_mass
    (bodyPos : list (vec4 R)) (bodyVel bodyAccel : list (vec3 R)) (n : nat) :
  Z.of_nat n = NUM_PARTICLES ->
  (n <= length bodyPos)%nat -> (n <= length bodyVel)%nat -> (n <= length bodyAccel)%nat ->
  mass_weighted_position
    (fst (fst (simulate (M := Exact.exact_machine) (bodyPos, bodyVel, bodyAccel)))) n =
  Vec3.mk
    (Vec3.x (mass_weighted_position bodyPos n) +
     IZR NUM_FRAMES * TIME_STEP (M := Exact.exact_machine) *
     Vec3.x (mass_weighted_sum bodyPos bodyVel n))
    (Vec3.y (mass_weighted_position bodyPos n) +
     IZR NUM_FRAMES * TIME_STEP (M := Exact.exact_machine) *
     Vec3.y (mass_weighted_sum bodyPos bodyVel n))
    (Vec3.z (mass_weighted_position bodyPos n) +
     IZR NUM_FRAMES * TIME_STEP (M := Exact.exact_machine) *
     Vec3.z (mass_weighted_sum bodyPos bodyVel n)).
Proof.
  intros HN Hp Hv Ha. unfold simulate.
  assert (HF : IZR NUM_FRAMES = INR (Z.to_nat NUM_FRAMES)).
  { rewrite INR_IZR_INZ, Z2Nat.id; [reflexivity|]. unfold NUM_FRAMES. lia. }
  rewrite HF.
  exact (frames_position (Z.to_nat NUM_FRAMES) n (bodyPos, bodyVel, bodyAccel) HN Hp Hv Ha).
Qed.

End CentreOfMass.

Lemma simulate_centre_of_mass_witness :
  mass_weighted_position
    (fst (fst (simulate (M := Exact.exact_machine)
                 (replicate 1000 (Vec4.mk 0 0 0 1)%R, replicate 1000 (Vec3.mk 1 0 0)%R,
                  replicate 1000 (Vec3.mk 0 0 0)%R)))) 1000 =
  Vec3.mk
    (Vec3.x (mass_weighted_position (replicate 1000 (Vec4.mk 0 0 0 1)%R) 1000) +
     IZR NUM_FRAMES * TIME_STEP (M := Exact.exact_machine) *
     Vec3.x (Reference.mass_weighted_sum (replicate 1000 (Vec4.mk 0 0 0 1)%R)
               (replicate 1000 (Vec3.mk 1 0 0)%R) 1000))%R
    (Vec3.y (mass_weighted_position (replicate 1000 (Vec4.mk 0 0 0 1)%R) 1000) +
     IZR NUM_FRAMES * TIME_STEP (M := Exact.exact_machine) *
     Vec3.y (Reference.mass_weighted_sum (replicate 1000 (Vec4.mk 0 0 0 1)%R)
               (replicate 1000 (Vec3.mk 1 0 0)%R) 1000))%R
    (Vec3.z (mass_weighted_position (replicate 1000 (Vec4.mk 0 0 0 1)%R) 1000) +
     IZR NUM_FRAMES * TIME_STEP (M := Exact.exact_machine) *
     Vec3.z (Reference.mass_weighted_sum (replicate 1000 (Vec4.mk 0 0 0 1)%R)
               (replicate 1000 (Vec3.mk 1 0 0)%R) 1000))%R.
Proof.
  apply (simulate_centre_of_mass
           (replicate 1000 (Vec4.mk 0 0 0 1)%R) (replicate 1000 (Vec3.mk 1 0 0)%R)
           (replicate 1000 (Vec3.mk 0 0 0)%R) 1000).
  - reflexivity.
  - rewrite length_replicate. lia.
  - rewrite length_replicate. lia.
  - rewrite length_replicate. lia.
Defined.

(** ** The evaluator reads only the first [numParticles] positions *)

Section EvaluatorReads.
Context {M : Machine}.

Lemma row_ext (bodyPos bodyPos' : list (vec4 float)) (i m : nat) (a : vec3 float) :
  bodyPos !! i = bodyPos' !! i ->
  (forall j : nat, (j < m)%nat -> bodyPos !! j = bodyPos' !! j) ->
  row bodyPos i m a = row bodyPos' i m a.
Proof.
  intros Hi Hag. unfold row. induction m as [|m IH]; [done|].
  rewrite !for_range_0_S, IH by (intros j Hj; apply Hag; lia).
  by rewrite Hi, (Hag m) by lia.
Qed.

(** X18. The evaluator reads only the first [numParticles] positions: two
    position arrays that agree on those entries give the same
    accelerations, whatever they hold beyond and whatever their lengths. *)
Theorem calculateAccelerations_reads_prefix
    (bodyPos bodyPos' : list (vec4 float)) (bodyAccel : list (vec3 float))
    (numParticles : Z) :
  (forall j : nat, (j < Z.to_nat numParticles)%nat -> bodyPos !! j = bodyPos' !! j) ->
  calculateAccelerations bodyPos bodyAccel numParticles =
  calculateAccelerations bodyPos' bodyAccel numParticles.
Proof.
  intros Hag. apply list_eq. intros i.
  rewrite !calculateAccelerations_lookup_any.
  destruct (bodyAccel !! i) as [a|]; [|reflexivity].
  destruct (Nat.ltb_spec i (Z.to_nat numParticles)) as [Hi|Hi]; [|reflexivity].
  f_equal. apply row_ext; [by apply Hag|exact Hag].
Qed.

End EvaluatorReads.

Lemma calculateAccelerations_reads_prefix_witness :
  calculateAccelerations (M := IEEE.ieee_machine)
    [Vec4.mk (IEEE.f32 0) (IEEE.f32 0) (IEEE.f32 0) (IEEE.f32 1);
     Vec4.mk (IEEE.f32 1) (IEEE.f32 0) (IEEE.f32 0) (IEEE.f32 1);
     Vec4.mk (IEEE.f32 7) (IEEE.f32 7) (IEEE.f32 7) (IEEE.f32 7)]
    [Vec3.mk S754_nan S754_nan S754_nan; Vec3.mk S754_nan S754_nan S754_nan] 2
  = calculateAccelerations (M := IEEE.ieee_machine)
      [Vec4.mk (IEEE.f32 0) (IEEE.f32 0) (IEEE.f32 0) (IEEE.f32 1);
       Vec4.mk (IEEE.f32 1) (IEEE.f32 0) (IEEE.f32 0) (IEEE.f32 1)]
      [Vec3.mk S754_nan S754_nan S754_nan; Vec3.mk S754_nan S754_nan S754_nan] 2.
Proof.
  apply (calculateAccelerations_reads_prefix (M := IEEE.ieee_machine)
           [Vec4.mk (IEEE.f32 0) (IEEE.f32 0) (IEEE.f32 0) (IEEE.f32 1);
            Vec4.mk (IEEE.f32 1) (IEEE.f32 0) (IEEE.f32 0) (IEEE.f32 1);
            Vec4.mk (IEEE.f32 7) (IEEE.f32 7) (IEEE.f32 7) (IEEE.f32 7)]
           [Vec4.mk (IEEE.f32 0) (IEEE.f32 0) (IEEE.f32 0) (IEEE.f32 1);
            Vec4.mk (IEEE.f32 1) (IEEE.f32 0) (IEEE.f32 0) (IEEE.f32 1)]).
  intros j Hj. destruct j as [|[|j]]; [reflexivity|reflexivity|].
  vm_compute in Hj. lia.
Defined.

(** ** The whole program: masses over the run *)

Section MainMasses.
Import IEEE.
Variable Gen : Type.
Variable uniform_real_distribution : binary32 -> binary32 -> Gen -> binary32 * Gen.
Variables fcos fsin : binary64 -> binary64.

(** Contract of the library distribution used here: a draw from
    [uniform_real_distribution a b] with [a <= b] is at least [a]. *)
Hypothesis draw_not_below :
  forall (a b : binary32) (g : Gen),
    SFleb a b = true -> SFleb a (fst (uniform_real_distribution a b g)) = true.

Lemma spiral_centre_mass (bodyPos : list (vec4 binary32)) (bodyVel : list (vec3 binary32))
    (gen : Gen) :
  (1 <= length bodyPos)%nat ->
  Vec4.w <$> fst (fst (initializeParticles (M := ieee_machine) Gen uniform_real_distribution
                         fcos fsin bodyPos bodyVel SPIRAL_GALAXY gen)) !! 0%nat
  = Some (f32 100).
Proof.
  intros HP.
  assert (HN : (10 <= Z.to_nat NUM_PARTICLES)%nat) by (vm_compute; lia).
  unfold initializeParticles.
  revert HN. generalize (Z.to_nat NUM_PARTICLES) as n. intros n HN. cbv zeta.
  match goal with
  | |- _ <$> ?l !! _ = _ =>
      assert (l !! 0%nat =
              Some (Vec4.mk (f32 0) (f32 0) (f32 0) (f32 100))) as ->; [|reflexivity]
  end.
  etrans.
  { apply (for_range_untouched (M := ieee_machine) Gen 1 n 0); [lia| |lia].
    intros i s. rewrite Nat.add_0_r. apply spiral_body_writes_at. }
  cbn [fst snd]. etrans; [apply list_lookup_insert_eq; exact HP|]. reflexivity.
Qed.

(** X19. End to end, for the run that [main] performs (spiral galaxy,
    direct method) on arrays of at least one body: after the
    [NUM_FRAMES] frames the central body still has mass 100 and every body
    has a mass greater than zero, provided the library distribution never
    returns a value below its lower bound. *)
Theorem main_run_masses
    (bodyPos : list (vec4 binary32)) (bodyVel bodyAccel : list (vec3 binary32)) (gen : Gen) :
  (1 <= length bodyPos)%nat ->
  let final := main_run (M := ieee_machine) Gen uniform_real_distribution fcos fsin
                 bodyPos bodyVel bodyAccel gen in
  Vec4.w <$> fst (fst final) !! 0%nat = Some (f32 100) /\
  forall (i : nat) (p : vec4 binary32),
    (i < Z.to_nat NUM_PARTICLES)%nat -> fst (fst final) !! i = Some p ->
    SFltb (f32 0) (Vec4.w p) = true.
Proof.
  intros HP final. unfold final, main_run, simulate. cbv zeta.
  pose proof (spiral_centre_mass bodyPos bodyVel gen HP) as Hc.
  assert (HN : (10 <= Z.to_nat NUM_PARTICLES)%nat) by (vm_compute; lia).
  pose proof (initializeParticles_masses Gen uniform_real_distribution fcos fsin
                draw_not_below bodyPos bodyVel SPIRAL_GALAXY gen
                (Z.to_nat NUM_PARTICLES) HN) as Hm.
  cbv zeta in Hm.
  change (for_range 1 (Z.to_nat NUM_PARTICLES) _ _)
    with (initializeParticles (M := ieee_machine) Gen uniform_real_distribution
            fcos fsin bodyPos bodyVel SPIRAL_GALAXY gen) in Hm.
  revert Hc Hm.
  generalize (initializeParticles (M := ieee_machine) Gen uniform_real_distribution
                fcos fsin bodyPos bodyVel SPIRAL_GALAXY gen) as st.
  intros st Hc Hm.
  destruct (frames_masses_lengths (M := ieee_machine) (Z.to_nat NUM_FRAMES)
              (fst (fst st), snd (fst st), bodyAccel)) as (Ew & _ & _).
  cbn [fst snd] in Ew. split.
  - rewrite <- list_lookup_fmap.
    etrans; [exact (f_equal (fun l => l !! 0%nat) Ew)|].
    rewrite list_lookup_fmap. exact Hc.
  - intros i p Hi Hp.
    assert (Hw : (Vec4.w <$> fst (fst st)) !! i = Some (Vec4.w p)).
    { etrans; [symmetry; exact (f_equal (fun l => l !! i) Ew)|].
      rewrite list_lookup_fmap.
      etrans; [exact (f_equal (fmap Vec4.w) Hp)|]. reflexivity. }
    rewrite list_lookup_fmap in Hw.
    destruct (fst (fst st) !! i) as [p0|] eqn:Hp0; [|discriminate].
    injection Hw as Hw. rewrite <- Hw. exact (Hm i p0 Hi Hp0).
Qed.

End MainMasses.

Lemma main_run_masses_witness :
  Vec4.w <$> fst (fst (main_run (M := IEEE.ieee_machine) unit
                         (fun a _ g => (a, g)) (fun v => v) (fun v => v)
                         (replicate 1000 (Vec4.mk S754_nan S754_nan S754_nan S754_nan))
                         (replicate 1000 (Vec3.mk S754_nan S754_nan S754_nan))
                         (replicate 1000 (Vec3.mk S754_nan S754_nan S754_nan))
                         tt)) !! 0%nat
  = Some (IEEE.f32 100).
Proof.
  apply (main_run_masses unit (fun a _ g => (a, g)) (fun v => v) (fun v => v)
           (fun a b g Hab => SFleb_lower_refl a b Hab)
           (replicate 1000 (Vec4.mk S754_nan S754_nan S754_nan S754_nan))
           (replicate 1000 (Vec3.mk S754_nan S754_nan S754_nan))
           (replicate 1000 (Vec3.mk S754_nan S754_nan S754_nan)) tt).
  rewrite length_replicate. lia.
Defined.

(** ** Angular momentum over the whole run, in exact arithmetic *)

Section AngularMomentum.
Import Reference.
Local Open Scope R_scope.

Lemma Rsum_lin2 (n : nat) (a b : R) (f g : nat -> R) :
  Rsum n (fun j => a * f j - b * g j) = a * Rsum n f - b * Rsum n g.
Proof. induction n as [|n IH]; simpl; [lra|]. rewrite IH. lra. Qed.

(** The torques of a pair cancel: the pair force is along the line joining
    the two bodies. *)
Lemma torque_pair_antisymmetric (c1 c2 : vec4 R -> R) (bodyPos : list (vec4 R)) (i j : nat) :
  Vec4.w (body_at bodyPos i) *
    (c1 (body_at bodyPos i) * pair_term c2 bodyPos i j -
     c2 (body_at bodyPos i) * pair_term c1 bodyPos i j) =
  - (Vec4.w (body_at bodyPos j) *
       (c1 (body_at bodyPos j) * pair_term c2 bodyPos j i -
        c2 (body_at bodyPos j) * pair_term c1 bodyPos j i)).
Proof.
  unfold pair_term. destruct (Nat.eqb_spec i j) as [->|Hne].
  - rewrite Nat.eqb_refl. ring.
  - rewrite (proj2 (Nat.eqb_neq j i)) by congruence.
    rewrite (softened_sqdist_sym (body_at bodyPos j) (body_at bodyPos i)).
    unfold Rdiv. ring.
Qed.

Lemma torque_zero (c1 c2 : vec4 R -> R) (d1 d2 : vec3 R -> R)
    (bodyPos : list (vec4 R)) (bodyAccel : list (vec3 R)) (n : nat) :
  (forall i, d1 (pairwise_sum bodyPos n i) = Rsum n (pair_term c1 bodyPos i)) ->
  (forall i, d2 (pairwise_sum bodyPos n i) = Rsum n (pair_term c2 bodyPos i)) ->
  (n <= length bodyPos)%nat -> (n <= length bodyAccel)%nat ->
  moment c1 c2 d1 d2 bodyPos
    (calculateAccelerations (M := Exact.exact_machine) bodyPos bodyAccel (Z.of_nat n)) n = 0.
Proof.
  intros H1 H2 Hp Ha. unfold moment.
  rewrite <- (Rsum_antisymmetric n
                (fun i j => Vec4.w (body_at bodyPos i) *
                            (c1 (body_at bodyPos i) * pair_term c2 bodyPos i j -
                             c2 (body_at bodyPos i) * pair_term c1 bodyPos i j)))
    by (intros i j; apply torque_pair_antisymmetric).
  apply Rsum_ext. intros i Hi.
  rewrite vec_at_calculateAccelerations by assumption. rewrite H1, H2.
  rewrite Rsum_scal_l. f_equal.
  symmetry. apply (Rsum_lin2 n (c1 (body_at bodyPos i)) (c2 (body_at bodyPos i))
                     (pair_term c2 bodyPos i) (pair_term c1 bodyPos i)).
Qed.

Lemma update_loop_moment (c1 c2 : vec4 R -> R) (d1 d2 : vec3 R -> R)
    (bodyPos : list (vec4 R)) (bodyVel bodyAccel : list (vec3 R)) (n k : nat) :
  (forall p v, c1 (update_pos (M := Exact.exact_machine) p v) = c1 p + d1 v * (1 / 100)) ->
  (forall p v, c2 (update_pos (M := Exact.exact_machine) p v) = c2 p + d2 v * (1 / 100)) ->
  (forall v a, d1 (update_vel (M := Exact.exact_machine) v a) = d1 v + d1 a * (1 / 100)) ->
  (forall v a, d2 (update_vel (M := Exact.exact_machine) v a) = d2 v + d2 a * (1 / 100)) ->
  (n <= k)%nat ->
  (n <= length bodyPos)%nat -> (n <= length bodyVel)%nat -> (n <= length bodyAccel)%nat ->
  moment c1 c2 d1 d2
    (fst (for_range 0 k (update_body (M := Exact.exact_machine) bodyAccel) (bodyPos, bodyVel)))
    (snd (for_range 0 k (update_body (M := Exact.exact_machine) bodyAccel) (bodyPos, bodyVel)))
    n =
  moment c1 c2 d1 d2 bodyPos bodyVel n + (1 / 100) * moment c1 c2 d1 d2 bodyPos bodyAccel n.
Proof.
  intros Hc1 Hc2 Hd1 Hd2 Hk Hp Hv Ha. unfold moment.
  rewrite <- Rsum_scal_l, <- Rsum_plus. apply Rsum_ext. intros i Hi.
  destruct (lookup_lt_is_Some_2 bodyPos i ltac:(lia)) as [p Ep].
  destruct (lookup_lt_is_Some_2 bodyVel i ltac:(lia)) as [v Ev].
  destruct (lookup_lt_is_Some_2 bodyAccel i ltac:(lia)) as [a Ea].
  destruct (update_loop_lookup (M := Exact.exact_machine)
              bodyPos bodyVel bodyAccel k i p v a Ep Ev Ea) as [Hp' Hv'].
  rewrite (proj2 (Nat.ltb_lt i k) ltac:(lia)) in Hp', Hv'.
  unfold body_at, vec_at.
  change (@float Exact.exact_machine) with R in *.
  rewrite Hp', Hv', Ep, Ev, Ea. simpl. rewrite Hc1, Hc2, Hd1, Hd2. ring.
Qed.

(** Evaluator over [n] bodies followed by the integrator loop over [k >= n]
    bodies: the angular momentum of the [n] bodies is unchanged, because the
    new position is computed from the velocity just written. *)
Lemma evaluate_then_update_angular
    (bodyPos : list (vec4 R)) (bodyVel bodyAccel : list (vec3 R)) (n k : nat) :
  (n <= k)%nat ->
  (n <= length bodyPos)%nat -> (n <= length bodyVel)%nat -> (n <= length bodyAccel)%nat ->
  angular_momentum
    (fst (for_range 0 k
            (update_body (M := Exact.exact_machine)
               (calculateAccelerations (M := Exact.exact_machine)
                  bodyPos bodyAccel (Z.of_nat n)))
            (bodyPos, bodyVel)))
    (snd (for_range 0 k
            (update_body (M := Exact.exact_machine)
               (calculateAccelerations (M := Exact.exact_machine)
                  bodyPos bodyAccel (Z.of_nat n)))
            (bodyPos, bodyVel))) n =
  angular_momentum bodyPos bodyVel n.
Proof.
  intros Hk Hp Hv Ha.
  pose proof (calculateAccelerations_length (M := Exact.exact_machine)
                bodyPos bodyAccel (Z.of_nat n)) as Hlen.
  pose proof (torque_zero Vec4.y Vec4.z Vec3.y Vec3.z bodyPos bodyAccel n
                ltac:(reflexivity) ltac:(reflexivity) Hp Ha) as Tx.
  pose proof (torque_zero Vec4.z Vec4.x Vec3.z Vec3.x bodyPos bodyAccel n
                ltac:(reflexivity) ltac:(reflexivity) Hp Ha) as Ty.
  pose proof (torque_zero Vec4.x Vec4.y Vec3.x Vec3.y bodyPos bodyAccel n
                ltac:(reflexivity) ltac:(reflexivity) Hp Ha) as Tz.
  revert Hlen Tx Ty Tz.
  generalize (calculateAccelerations (M := Exact.exact_machine) bodyPos bodyAccel (Z.of_nat n))
    as A.
  intros A Hlen Tx Ty Tz.
  assert (HA : (n <= length A)%nat) by (rewrite Hlen; exact Ha).
  unfold angular_momentum. apply (f_equal3 Vec3.mk).
  - etrans; [exact (update_loop_moment Vec4.y Vec4.z Vec3.y Vec3.z bodyPos bodyVel A n k
                      ltac:(reflexivity) ltac:(reflexivity) ltac:(reflexivity)
                      ltac:(reflexivity) Hk Hp Hv HA)|].
    rewrite Tx. ring.
  - etrans; [exact (update_loop_moment Vec4.z Vec4.x Vec3.z Vec3.x bodyPos bodyVel A n k
                      ltac:(reflexivity) ltac:(reflexivity) ltac:(reflexivity)
                      ltac:(reflexivity) Hk Hp Hv HA)|].
    rewrite Ty. ring.
  - etrans; [exact (update_loop_moment Vec4.x Vec4.y Vec3.x Vec3.y bodyPos bodyVel A n k
                      ltac:(reflexivity) ltac:(reflexivity) ltac:(reflexivity)
                      ltac:(reflexivity) Hk Hp Hv HA)|].
    rewrite Tz. ring.
Qed.

Lemma frame_angular_momentum
    (bodyPos : list (vec4 R)) (bodyVel bodyAccel : list (vec3 R)) (n : nat) :
  Z.of_nat n = NUM_PARTICLES ->
  (n <= length bodyPos)%nat -> (n <= length bodyVel)%nat -> (n <= length bodyAccel)%nat ->
  angular_momentum
    (fst (fst (frame (M := Exact.exact_machine) (bodyPos, bodyVel, bodyAccel))))
    (snd (fst (frame (M := Exact.exact_machine) (bodyPos, bodyVel, bodyAccel)))) n =
  angular_momentum bodyPos bodyVel n.
Proof.
  intros HN Hp Hv Ha.
  rewrite (frame_unfold (M := Exact.exact_machine)).
  unfold updateParticles. rewrite <- HN, Nat2Z.id.
  by apply evaluate_then_update_angular.
Qed.

Lemma frames_angular_momentum (m n : nat)
    (st : list (vec4 R) * list (vec3 R) * list (vec3 R)) :
  Z.of_nat n = NUM_PARTICLES ->
  (n <= length (fst (fst st)))%nat -> (n <= length (snd (fst st)))%nat ->
  (n <= length (snd st))%nat ->
  angular_momentum
    (fst (fst (for_range 0 m (fun _ => frame (M := Exact.exact_machine)) st)))
    (snd (fst (for_range 0 m (fun _ => frame (M := Exact.exact_machine)) st))) n =
  angular_momentum (fst (fst st)) (snd (fst st)) n.
Proof.
  intros HN Hp Hv Ha. induction m as [|m IH]; [done|].
  rewrite for_range_0_S.
  destruct (frames_masses_lengths (M := Exact.exact_machine) m st) as (Ew & Ev & Ea).
  apply (f_equal length) in Ew. rewrite !length_fmap in Ew.
  destruct (for_range 0 m (fun _ => frame (M := Exact.exact_machine)) st) as [[P V] A].
  cbn [fst snd] in *.
  etrans; [|exact IH].
  change (@float Exact.exact_machine) with R in *.
  apply frame_angular_momentum; [exact HN|lia|lia|lia].
Qed.

(** X20. In exact arithmetic the whole run conserves the total angular
    momentum about the origin: after the [NUM_FRAMES] frames of the
    simulation loop of [main], sum_i mass[i] * (pos[i] x vel[i]) over the
    [NUM_PARTICLES] bodies is the one of the initial state.  This relies on
    the update order of the integrator (the position is advanced with the
    velocity just written) and on the pair forces being central. *)
Theorem simulate_conserves_angular_momentum
    (bodyPos : list (vec4 R)) (bodyVel bodyAccel : list (vec3 R)) (n : nat) :
  Z.of_nat n = NUM_PARTICLES ->
  (n <= length bodyPos)%nat -> (n <= length bodyVel)%nat -> (n <= length bodyAccel)%nat ->
  angular_momentum
    (fst (fst (simulate (M := Exact.exact_machine) (bodyPos, bodyVel, bodyAccel))))
    (snd (fst (simulate (M := Exact.exact_machine) (bodyPos, bodyVel, bodyAccel)))) n =
  angular_momentum bodyPos bodyVel n.
Proof.
  intros HN Hp Hv Ha. unfold simulate.
  exact (frames_angular_momentum (Z.to_nat NUM_FRAMES) n (bodyPos, bodyVel, bodyAccel)
           HN Hp Hv Ha).
Qed.

End AngularMomentum.

Lemma simulate_conserves_angular_momentum_witness :
  angular_momentum
    (fst (fst (simulate (M := Exact.exact_machine)
                 (replicate 1000 (Vec4.mk 1 2 0 1)%R, replicate 1000 (Vec3.mk 0 1 0)%R,
                  replicate 1000 (Vec3.mk 0 0 0)%R))))
    (snd (fst (simulate (M := Exact.exact_machine)
                 (replicate 1000 (Vec4.mk 1 2 0 1)%R, replicate 1000 (Vec3.mk 0 1 0)%R,
                  replicate 1000 (Vec3.mk 0 0 0)%R)))) 1000 =
  angular_momentum
    (replicate 1000 (Vec4.mk 1 2 0 1)%R) (replicate 1000 (Vec3.mk 0 1 0)%R) 1000.
Proof.
  apply (simulate_conserves_angular_momentum
           (replicate 1000 (Vec4.mk 1 2 0 1)%R) (replicate 1000 (Vec3.mk 0 1 0)%R)
           (replicate 1000 (Vec3.mk 0 0 0)%R) 1000).
  - reflexivity.
  - rewrite length_replicate. lia.
  - rewrite length_replicate. lia.
  - rewrite length_replicate. lia.
Defined.
